(** * Red-black tree with per-key buckets (rbt.h / rbt.c)

    The C program keeps a red-black tree of [struct RBT] nodes.  Every link
    ([left], [right], [next]) is owned by exactly one parent, so a tree is
    embedded as the value reachable from its root pointer: a pointer is either
    [NULL] (the black leaf), the sentinel address [(void * )1] used as the
    doubly-black leaf, or the node stored at some address together with what
    its three links own.  The address of a node is kept in the node so that
    the pointer comparisons of the source ([node == root], [current ==
    prevswap]) stay comparisons of addresses.

    Dereferencing [NULL] or the sentinel is a fault of the C program; every
    function that can fault returns [option], and [None] is the fault. *)

From Stdlib Require Import ZArith List Bool Lia Permutation Sorted.
From Stdlib Require Ascii String.
Import String.StringSyntax.
Import ListNotations.
Open Scope Z_scope.
Delimit Scope string_scope with string.

(** ** Data model *)

(** [#define BLACK 0], [#define RED 1] (rbt.h) and [#define DOUBLE_BLACK 2]
    (rbt.c): the three values the program ever writes to the 2-bit field. *)
Inductive color : Type := BLACK | RED | DOUBLE_BLACK.

Definition color_eqb (a b : color) : bool :=
  match a, b with
  | BLACK, BLACK | RED, RED | DOUBLE_BLACK, DOUBLE_BLACK => true
  | _, _ => false
  end.

(** The non-link fields of [struct RBT], with the address of the struct. *)
Record block : Type := mkBlock {
  self : Z;        (* address of the node *)
  capacity : Z;    (* unsigned int capacity  : 30 *)
  prev_dist : Z;   (* unsigned int prev_dist : 30 *)
  in_use : bool    (* unsigned int in_use    :  1 *)
}.

Inductive RBT : Type :=
| NULL                                   (* BLACK_LEAF *)
| DOUBLE_BLACK_PTR                       (* ((void * )1) *)
| Node (b : block) (col : color) (left right next : RBT).

(** Width of the [capacity] bit-field: a store keeps the low 30 bits. *)
Definition capacity_bits : Z := 30.
Definition store_capacity (cap : Z) : Z := cap mod 2 ^ capacity_bits.

(** ** A small error monad *)

Definition bind {A B : Type} (x : option A) (f : A -> option B) : option B :=
  match x with
  | Some a => f a
  | None => None
  end.

Notation "x <- e ;; k" := (bind e (fun x => k))
  (at level 61, e at next level, right associativity).
Notation "' p <- e ;; k" := (bind e (fun p => k))
  (at level 61, p pattern, e at next level, right associativity).

(** ** Pointer tests and field writes *)

(** [a == b] on pointers. *)
Definition ptr_eqb (a b : RBT) : bool :=
  match a, b with
  | NULL, NULL => true
  | DOUBLE_BLACK_PTR, DOUBLE_BLACK_PTR => true
  | Node x _ _ _ _, Node y _ _ _ _ => self x =? self y
  | _, _ => false
  end.

Definition is_null (p : RBT) : bool :=
  match p with
  | NULL => true
  | _ => false
  end.

(** [p != BLACK_LEAF && p->color == c]. *)
Definition nonleaf_color_is (p : RBT) (c : color) : option bool :=
  match p with
  | NULL => Some false
  | DOUBLE_BLACK_PTR => None
  | Node _ col _ _ _ => Some (color_eqb col c)
  end.

(** [p == BLACK_LEAF || p->color == c]. *)
Definition leaf_or_color_is (p : RBT) (c : color) : option bool :=
  match p with
  | NULL => Some true
  | DOUBLE_BLACK_PTR => None
  | Node _ col _ _ _ => Some (color_eqb col c)
  end.

(** [p == DOUBLE_BLACK_PTR || (p != BLACK_LEAF && p->color == DOUBLE_BLACK)]. *)
Definition is_double_black (p : RBT) : bool :=
  match p with
  | NULL => false
  | DOUBLE_BLACK_PTR => true
  | Node _ col _ _ _ => color_eqb col DOUBLE_BLACK
  end.

(** [p->color = c]. *)
Definition set_color (p : RBT) (c : color) : option RBT :=
  match p with
  | Node b _ l r nx => Some (Node b c l r nx)
  | _ => None
  end.

(** ** Tree height *)

Fixpoint RBT_height (root : RBT) : option Z :=
  match root with
  | NULL => Some 0
  | DOUBLE_BLACK_PTR => None
  | Node _ _ lft rgt _ =>
      if is_null lft && is_null rgt then Some 0
      else
        lh <- RBT_height lft ;;
        rh <- RBT_height rgt ;;
        let left_height := 1 + lh in
        let right_height := 1 + rh in
        if left_height >? right_height then Some left_height
        else Some right_height
  end.

Fixpoint RBT_black_height (root : RBT) : option Z :=
  match root with
  | NULL => Some 0
  | DOUBLE_BLACK_PTR => None
  | Node _ _ lft _ _ =>
      match lft with
      | NULL => Some 1
      | DOUBLE_BLACK_PTR => None
      | Node _ lc _ _ _ =>
          h <- RBT_black_height lft ;;
          if color_eqb lc BLACK then Some (1 + h) else Some h
      end
  end.

(** ** rep_ok

    Each checker returns [true] when the C function returns normally and
    [false] when it raises SIGABRT (or faults). *)

Fixpoint RBT_double_blackness_ok (root : RBT) : bool :=
  match root with
  | NULL => true
  | DOUBLE_BLACK_PTR => false
  | Node _ col lft rgt _ =>
      negb (color_eqb col DOUBLE_BLACK)
      && RBT_double_blackness_ok lft
      && RBT_double_blackness_ok rgt
  end.

Definition option_true (x : option bool) : bool :=
  match x with
  | Some b => b
  | None => false
  end.

Fixpoint RBT_red_red_ok (root : RBT) : bool :=
  match root with
  | NULL => true
  | DOUBLE_BLACK_PTR => false
  | Node _ col lft rgt _ =>
      (if color_eqb col RED
       then option_true (leaf_or_color_is lft BLACK)
            && option_true (leaf_or_color_is rgt BLACK)
       else true)
      && RBT_red_red_ok lft
      && RBT_red_red_ok rgt
  end.

Fixpoint RBT_black_height_ok (root : RBT) : bool :=
  match root with
  | NULL => true
  | DOUBLE_BLACK_PTR => false
  | Node _ _ lft rgt _ =>
      match RBT_black_height lft, RBT_black_height rgt,
            leaf_or_color_is lft BLACK, leaf_or_color_is rgt BLACK with
      | Some lh, Some rh, Some lb, Some rb =>
          let left_height := if lb then lh + 1 else lh in
          let right_height := if rb then rh + 1 else rh in
          (left_height =? right_height)
          && RBT_black_height_ok lft
          && RBT_black_height_ok rgt
      | _, _, _, _ => false
      end
  end.

Definition RBT_rep_ok (root : RBT) : bool :=
  match root with
  | NULL => true
  | DOUBLE_BLACK_PTR => false
  | Node _ col _ _ _ =>
      negb (color_eqb col DOUBLE_BLACK)
      && color_eqb col BLACK
      && RBT_double_blackness_ok root
      && RBT_red_red_ok root
      && RBT_black_height_ok root
  end.

(** ** Creation and insertion *)

Definition RBT_eliminate_red_red (root : RBT) : option RBT :=
  match root with
  | Node b c lft rgt nx =>
      (* case 1 : RED uncle -> recolor *)
      let recolor :=
        lft' <- set_color lft BLACK ;;
        rgt' <- set_color rgt BLACK ;;
        Some (Node b RED lft' rgt' nx) in
      let right_side :=
        right_red <- nonleaf_color_is rgt RED ;;
        if right_red then
          match rgt with
          | Node rb rc right_left right_right rnx =>
              rl_red <- nonleaf_color_is right_left RED ;;
              if rl_red then
                left_red <- nonleaf_color_is lft RED ;;
                if left_red then recolor
                else
                  match right_left with
                  | Node rlb _ rll rlr rlnx =>
                      Some (Node rlb BLACK
                              (Node b RED lft rll nx)
                              (Node rb rc rlr right_right rnx) rlnx)
                  | _ => None
                  end
              else
                rr_red <- nonleaf_color_is right_right RED ;;
                if rr_red then
                  left_red <- nonleaf_color_is lft RED ;;
                  if left_red then recolor
                  else
                    Some (Node rb BLACK (Node b RED lft right_left nx)
                            right_right rnx)
                else Some root
          | _ => None
          end
        else Some root in
      left_red <- nonleaf_color_is lft RED ;;
      if left_red then
        match lft with
        | Node lb lc left_left left_right lnx =>
            ll_red <- nonleaf_color_is left_left RED ;;
            if ll_red then
              right_red <- nonleaf_color_is rgt RED ;;
              if right_red then recolor
              else
                Some (Node lb BLACK left_left
                        (Node b RED left_right rgt nx) lnx)
            else
              lr_red <- nonleaf_color_is left_right RED ;;
              if lr_red then
                right_red <- nonleaf_color_is rgt RED ;;
                if right_red then recolor
                else
                  match left_right with
                  | Node lrb _ lrl lrr lrnx =>
                      Some (Node lrb BLACK
                              (Node lb lc left_left lrl lnx)
                              (Node b RED lrr rgt nx) lrnx)
                  | _ => None
                  end
              else right_side
        | _ => None
        end
      else right_side
  | _ => None
  end.

(** The [root == NULL] branch of [RBT_add_inner]: every field of [node] is
    overwritten, whatever the storage held before.

    The storage is a node of its own, as rbt.h has it ("inserts a new RBT
    node"): the node built here is the storage after the writes.  Were the
    storage a node that the tree already holds, the C code would overwrite
    that node where it is, which a tree of owned nodes does not express;
    what is proved of an insertion assumes that the address of the storage
    is not in the tree. *)
Definition init_node (node : RBT) (cap : Z) : option RBT :=
  match node with
  | Node b _ _ _ _ =>
      Some (Node (mkBlock (self b) (store_capacity cap) 0 false)
              BLACK NULL NULL NULL)
  | _ => None
  end.

(** [p->next = q]. *)
Definition set_next (p q : RBT) : option RBT :=
  match p with
  | Node b c l r _ => Some (Node b c l r q)
  | _ => None
  end.

Fixpoint RBT_add_inner (root node : RBT) (cap : Z) : option RBT :=
  match root with
  | NULL => init_node node cap
  | DOUBLE_BLACK_PTR => None
  | Node b col lft rgt nx =>
      let c := capacity b in
      if cap =? c then
        node0 <- init_node node cap ;;
        node1 <- set_next node0 nx ;;
        Some (Node b col lft rgt node1)
      else if cap <? c then
        new_left <- RBT_add_inner lft node cap ;;
        new_lft' <- (if is_null lft then set_color new_left RED
                      else Some new_left) ;;
        RBT_eliminate_red_red (Node b col new_lft' rgt nx)
      else
        new_right <- RBT_add_inner rgt node cap ;;
        new_rgt' <- (if is_null rgt then set_color new_right RED
                       else Some new_right) ;;
        RBT_eliminate_red_red (Node b col lft new_rgt' nx)
  end.

Definition RBT_add (root node : RBT) (cap : Z) : option RBT :=
  if is_null node then Some root
  else
    new_tree <- RBT_add_inner root node cap ;;
    set_color new_tree BLACK.

Definition RBT_new (root : RBT) (cap : Z) : option RBT :=
  RBT_add NULL root cap.

(** ** Removal *)

(** Size of a tree, the measure under which the recursion of
    [RBT_propagate_double_blackness] decreases. *)
Fixpoint RBT_size (root : RBT) : nat :=
  match root with
  | Node _ _ lft rgt _ => S (RBT_size lft + RBT_size rgt)
  | _ => O
  end.

(** Turns the doubly-black child back into a black one:
    [if (p == DOUBLE_BLACK_PTR) parent->child = BLACK_LEAF; else p->color = BLACK;] *)
Definition blacken (p : RBT) : option RBT :=
  match p with
  | DOUBLE_BLACK_PTR => Some NULL
  | _ => set_color p BLACK
  end.

(** The color given to [root] in case B. *)
Definition hoist (c : color) : color :=
  if color_eqb c BLACK then DOUBLE_BLACK else BLACK.

(** [RBT_propagate_double_blackness]; case C calls the function again on the
    rotated root, which is not a sub-term of the argument, hence the fuel. *)
Fixpoint propagate_fuel (fuel : nat) (root : RBT) : option RBT :=
  match fuel with
  | O => None
  | S fuel' =>
      match root with
      | NULL | DOUBLE_BLACK_PTR => Some root
      | Node b c lft rgt nx =>
          if is_double_black lft then
            match rgt with
            | Node rb rc right_left right_right rnx =>
                if color_eqb rc RED then
                  (* Case C: rotate & recolor *)
                  new_left <- propagate_fuel fuel' (Node b RED lft right_left nx) ;;
                  Some (Node rb BLACK new_left right_right rnx)
                else
                  lft' <- blacken lft ;;
                  rl_red <- nonleaf_color_is right_left RED ;;
                  if rl_red then
                    (* Case A: rotate & recolor *)
                    match right_left with
                    | Node rlb _ rll rlr rlnx =>
                        Some (Node rlb c (Node b BLACK lft' rll nx)
                                (Node rb rc rlr right_right rnx) rlnx)
                    | _ => None
                    end
                  else
                    rr_red <- nonleaf_color_is right_right RED ;;
                    if rr_red then
                      (* Case A: rotate & recolor *)
                      right_right' <- set_color right_right BLACK ;;
                      Some (Node rb c (Node b BLACK lft' right_left nx)
                              right_right' rnx)
                    else
                      (* Case B: propagate blackness upward *)
                      Some (Node b (hoist c) lft'
                              (Node rb RED right_left right_right rnx) nx)
            | _ => None
            end
          else if is_double_black rgt then
            match lft with
            | Node lb lc left_left left_right lnx =>
                if color_eqb lc RED then
                  (* Case C: rotate & recolor *)
                  new_right <- propagate_fuel fuel' (Node b RED left_right rgt nx) ;;
                  Some (Node lb BLACK left_left new_right lnx)
                else
                  rgt' <- blacken rgt ;;
                  lr_red <- nonleaf_color_is left_right RED ;;
                  if lr_red then
                    (* Case A: rotate & recolor *)
                    match left_right with
                    | Node lrb _ lrl lrr lrnx =>
                        Some (Node lrb c (Node lb lc left_left lrl lnx)
                                (Node b BLACK lrr rgt' nx) lrnx)
                    | _ => None
                    end
                  else
                    ll_red <- nonleaf_color_is left_left RED ;;
                    if ll_red then
                      (* Case A: rotate & recolor *)
                      left_left' <- set_color left_left BLACK ;;
                      Some (Node lb c left_left'
                              (Node b BLACK left_right rgt' nx) lnx)
                    else
                      (* Case B: propagate blackness upward *)
                      Some (Node b (hoist c)
                              (Node lb RED left_left left_right lnx) rgt' nx)
            | _ => None
            end
          else Some root
      end
  end.

Definition RBT_propagate_double_blackness (root : RBT) : option RBT :=
  propagate_fuel (S (RBT_size root)) root.

Fixpoint RBT_propagate_double_blackness_prevswap (prevswap current : RBT)
  : option RBT :=
  match current with
  | Node b c lft rgt nx =>
      if ptr_eqb current prevswap then RBT_propagate_double_blackness current
      else
        new_left <- RBT_propagate_double_blackness_prevswap prevswap lft ;;
        RBT_propagate_double_blackness (Node b c new_left rgt nx)
  | _ =>
      if ptr_eqb current prevswap then RBT_propagate_double_blackness current
      else None
  end.

(** The blackening of the child that takes the place of a removed BLACK node:
    [if (p == BLACK_LEAF) parent->child = DOUBLE_BLACK_PTR;
     else if (p->color == RED) p->color = BLACK; else p->color = DOUBLE_BLACK;] *)
Definition add_black (p : RBT) : option RBT :=
  match p with
  | NULL => Some DOUBLE_BLACK_PTR
  | DOUBLE_BLACK_PTR => None
  | Node b c l r nx =>
      if color_eqb c RED then Some (Node b BLACK l r nx)
      else Some (Node b DOUBLE_BLACK l r nx)
  end.

(** The loop [while (swap->left != NULL) { prevswap = swap; swap = swap->left; }]
    of [RBT_remove_empty_root], started at [prevswap] with [swap =
    prevswap->left] not NULL, followed by the writes to the node the loop stops
    at: [prevswap->left = swap->right] and, when [swap] is BLACK, the
    blackening of that new left child.  Returns the final [prevswap], the
    [swap] node as the loop leaves it, and the tree under the initial
    [prevswap] after the writes. *)
Fixpoint detach_swap (prevswap : RBT) : option (RBT * RBT * RBT) :=
  match prevswap with
  | Node pb pc swap pr pnx =>
      match swap with
      | Node sb sc sl sr snx =>
          if is_null sl then
            prv_left <- (if color_eqb sc BLACK then add_black sr else Some sr) ;;
            Some (prevswap, swap, Node pb pc prv_left pr pnx)
          else
            '(last, found, swap') <- detach_swap swap ;;
            Some (last, found, Node pb pc swap' pr pnx)
      | _ => None
      end
  | _ => None
  end.

(** Returns the new root and the node stored in [*removed]. *)
Definition RBT_remove_empty_root (root : RBT) : option (RBT * RBT) :=
  match root with
  | Node b c lft rgt nx =>
      let removed := Node b c NULL NULL nx in
      if is_null lft then
        if is_null rgt then
          if color_eqb c RED then Some (NULL, removed)
          else Some (DOUBLE_BLACK_PTR, removed)
        else
          match rgt with
          | Node rb rc rl rr rnx =>
              if color_eqb rc RED then Some (Node rb BLACK rl rr rnx, removed)
              else Some (Node rb DOUBLE_BLACK rl rr rnx, removed)
          | _ => None
          end
      else if is_null rgt then
        match lft with
        | Node lb lc ll lr lnx =>
            if color_eqb lc RED then Some (Node lb BLACK ll lr lnx, removed)
            else Some (Node lb DOUBLE_BLACK ll lr lnx, removed)
        | _ => None
        end
      else
        match lft with
        | Node lb lc ll lr lnx =>
            if is_null ll && is_null lr then
              let ll' := if color_eqb lc BLACK then DOUBLE_BLACK_PTR else ll in
              new_root <- RBT_propagate_double_blackness (Node lb c ll' rgt lnx) ;;
              Some (new_root, removed)
            else
              match rgt with
              | Node rb rc swap prv_right rnx =>
                  if is_null swap then
                    prv_right' <- (if color_eqb rc BLACK then add_black prv_right
                                   else Some prv_right) ;;
                    new_root <- RBT_propagate_double_blackness
                                  (Node rb c lft prv_right' rnx) ;;
                    Some (new_root, removed)
                  else
                    '(prevswap, found, rgt') <- detach_swap rgt ;;
                    match found with
                    | Node sb _ _ _ snx =>
                        new_right <- RBT_propagate_double_blackness_prevswap
                                       prevswap rgt' ;;
                        new_root <- RBT_propagate_double_blackness
                                      (Node sb c lft new_right snx) ;;
                        Some (new_root, removed)
                    | _ => None
                    end
              | _ => None
              end
        | _ => None
        end
  | _ => None
  end.

Definition RBT_remove_root (root : RBT) : option (RBT * RBT) :=
  match root with
  | Node b c lft rgt target =>
      match target with
      | NULL => RBT_remove_empty_root root
      | DOUBLE_BLACK_PTR => None
      | Node tb tc tl tr tnx =>
          Some (Node b c lft rgt tnx, Node tb tc tl tr NULL)
      end
  | _ => None
  end.

Fixpoint RBT_remove_at_least_inner (root : RBT) (cap : Z)
  : option (RBT * RBT) :=
  match root with
  | NULL => Some (NULL, NULL)
  | DOUBLE_BLACK_PTR => None
  | Node b col lft rgt nx =>
      let c := capacity b in
      if cap =? c then RBT_remove_root root
      else if cap <? c then
        '(newleft, removed) <- RBT_remove_at_least_inner lft cap ;;
        if is_null removed then RBT_remove_root root
        else
          new_root <- RBT_propagate_double_blackness (Node b col newleft rgt nx) ;;
          Some (new_root, removed)
      else
        '(newright, removed) <- RBT_remove_at_least_inner rgt cap ;;
        if is_null removed then Some (root, removed)
        else
          new_root <- RBT_propagate_double_blackness (Node b col lft newright nx) ;;
          Some (new_root, removed)
  end.

(** The end of both public removals: a doubly-black leaf becomes the empty
    tree, any other non-empty root is colored BLACK. *)
Definition finish_root (newroot : RBT) : RBT :=
  match newroot with
  | DOUBLE_BLACK_PTR => NULL
  | NULL => NULL
  | Node b _ l r nx => Node b BLACK l r nx
  end.

(** [removed] is the out-parameter: [None] when the pointer passed is NULL,
    [Some x] when it points to a variable holding [x].  The result is the
    returned root with the content of the variable afterwards. *)
Definition RBT_remove_at_least (root : RBT) (cap : Z) (removed : option RBT)
  : option (RBT * option RBT) :=
  match removed with
  | None => Some (root, None)
  | Some _ =>
      '(newroot, out) <- RBT_remove_at_least_inner root cap ;;
      Some (finish_root newroot, Some out)
  end.

(** The loop of [RBT_remove_node_root] over the linked list, entered with
    [target = prev_target->next].  Returns the new value of
    [prev_target->next] and the node stored in [*removed]. *)
Fixpoint remove_from_list (node target : RBT) : option (RBT * RBT) :=
  match target with
  | NULL => Some (NULL, NULL)
  | DOUBLE_BLACK_PTR => None
  | Node tb tc tl tr tnx =>
      if ptr_eqb node target then Some (tnx, Node tb tc tl tr NULL)
      else
        '(tnx', removed) <- remove_from_list node tnx ;;
        Some (Node tb tc tl tr tnx', removed)
  end.

Definition RBT_remove_node_root (root node : RBT) : option (RBT * RBT) :=
  match root with
  | Node b c lft rgt nx =>
      if negb (ptr_eqb node root) then
        '(nx', removed) <- remove_from_list node nx ;;
        Some (Node b c lft rgt nx', removed)
      else
        match nx with
        | NULL => RBT_remove_empty_root root
        | DOUBLE_BLACK_PTR => None
        | Node nb _ _ _ nnx =>
            Some (Node nb c lft rgt nnx, Node b c NULL NULL NULL)
        end
  | _ => None
  end.

Fixpoint RBT_remove_node_inner (root node : RBT) (cap : Z)
  : option (RBT * RBT) :=
  match root with
  | NULL => Some (NULL, NULL)
  | DOUBLE_BLACK_PTR => None
  | Node b col lft rgt nx =>
      let c := capacity b in
      if cap =? c then RBT_remove_node_root root node
      else if cap <? c then
        '(newleft, removed) <- RBT_remove_node_inner lft node cap ;;
        new_root <- RBT_propagate_double_blackness (Node b col newleft rgt nx) ;;
        Some (new_root, removed)
      else
        '(newright, removed) <- RBT_remove_node_inner rgt node cap ;;
        new_root <- RBT_propagate_double_blackness (Node b col lft newright nx) ;;
        Some (new_root, removed)
  end.

Definition RBT_remove_node (root node : RBT) (removed : option RBT)
  : option (RBT * option RBT) :=
  match removed with
  | None => Some (root, None)
  | Some _ =>
      match node with
      | NULL => Some (root, Some NULL)
      | DOUBLE_BLACK_PTR => None
      | Node nb _ _ _ _ =>
          '(newroot, out) <- RBT_remove_node_inner root node (capacity nb) ;;
          Some (finish_root newroot, Some out)
      end
  end.

(** ** Printing

    Standard output is seen as the list of the values written on it: each
    [printf("%u ", v)] appends [v]. *)

Fixpoint RBT_list_print (head : RBT) : option (list Z) :=
  match head with
  | NULL => Some []
  | DOUBLE_BLACK_PTR => None
  | Node b _ _ _ nx =>
      out <- RBT_list_print nx ;;
      Some (capacity b :: out)
  end.

Fixpoint RBT_in_order_print (root : RBT) : option (list Z) :=
  match root with
  | NULL => Some []
  | DOUBLE_BLACK_PTR => None
  | Node b _ lft rgt nx =>
      out_left <- RBT_in_order_print lft ;;
      out_list <- RBT_list_print nx ;;
      out_right <- RBT_in_order_print rgt ;;
      Some (out_left ++ capacity b :: out_list ++ out_right)
  end.

(** ** Freeing and allocation tracking

    The allocator is seen through the calls made to it: [freed] lists the
    addresses passed to [free], in call order.  [NUM_NODES] is the global
    counter, an [unsigned int], that the functions update when the library
    is compiled with ALLOC_TRACK; without the flag the counter is never
    touched and [RBT_num_nodes] returns 0. *)

Record alloc : Type := mkAlloc {
  freed : list Z;
  NUM_NODES : Z
}.

Definition uint_bits : Z := 32.

(** Arithmetic on [unsigned int] wraps around. *)
Definition uint (n : Z) : Z := n mod 2 ^ uint_bits.

Section AllocTrack.
Variable ALLOC_TRACK : bool.

(** [NUM_NODES++;] *)
Definition count_up (s : alloc) : alloc :=
  if ALLOC_TRACK then mkAlloc (freed s) (uint (NUM_NODES s + 1)) else s.

(** [NUM_NODES--;] *)
Definition count_down (s : alloc) : alloc :=
  if ALLOC_TRACK then mkAlloc (freed s) (uint (NUM_NODES s - 1)) else s.

(** [free(p);] *)
Definition free (p : block) (s : alloc) : alloc :=
  mkAlloc (freed s ++ [self p]) (NUM_NODES s).

Fixpoint RBT_free_list (head : RBT) (s : alloc) : option alloc :=
  match head with
  | NULL => Some s
  | DOUBLE_BLACK_PTR => None
  | Node b _ _ _ nx => RBT_free_list nx (count_down (free b s))
  end.

Fixpoint RBT_free (root : RBT) (s : alloc) : option alloc :=
  match root with
  | NULL => Some s
  | DOUBLE_BLACK_PTR => None
  | Node b _ lft rgt nx =>
      s1 <- RBT_free lft s ;;
      s2 <- RBT_free_list nx s1 ;;
      s3 <- RBT_free rgt s2 ;;
      Some (count_down (free b s3))
  end.

(** [RBT_add] with the counter: the new root and the allocation state. *)
Definition RBT_add_counted (root node : RBT) (cap : Z) (s : alloc)
  : option (RBT * alloc) :=
  if is_null node then Some (root, s)
  else
    new_tree <- RBT_add_inner root node cap ;;
    new_tree' <- set_color new_tree BLACK ;;
    Some (new_tree', count_up s).

Definition RBT_num_nodes (s : alloc) : Z :=
  if ALLOC_TRACK then NUM_NODES s else 0.

End AllocTrack.

(** * Specification-level definitions *)

Definition is_node (t : RBT) : Prop :=
  match t with
  | Node _ _ _ _ _ => True
  | _ => False
  end.

(** ** In-order listing

    The tree nodes from left to right, each with the bucket list hanging off
    its [next] field.  A leaf, doubly-black or not, lists nothing. *)
Fixpoint inorder (t : RBT) : list (block * RBT) :=
  match t with
  | Node b _ l r nx => inorder l ++ (b, nx) :: inorder r
  | _ => []
  end.

Definition key (g : block * RBT) : Z := capacity (fst g).

Fixpoint chain_blocks (ch : RBT) : list block :=
  match ch with
  | Node b _ _ _ nx => b :: chain_blocks nx
  | _ => []
  end.

Definition group_blocks (g : block * RBT) : list block :=
  fst g :: chain_blocks (snd g).

Definition blocks_of (gs : list (block * RBT)) : list block :=
  flat_map group_blocks gs.

(** Every node stored in the tree, tree nodes and bucket members alike. *)
Definition blocks (t : RBT) : list block := blocks_of (inorder t).

Definition addrs (t : RBT) : list Z := map self (blocks t).

Definition tree_addrs (t : RBT) : list Z :=
  map (fun g => self (fst g)) (inorder t).

Definition node_block (x : RBT) : list block :=
  match x with
  | Node b _ _ _ _ => [b]
  | _ => []
  end.

(** A bucket list: nodes without children linked by [next] up to NULL. *)
Fixpoint chain_ok (ch : RBT) : Prop :=
  match ch with
  | NULL => True
  | DOUBLE_BLACK_PTR => False
  | Node _ _ l r nx => l = NULL /\ r = NULL /\ chain_ok nx
  end.

Definition chains_ok (gs : list (block * RBT)) : Prop :=
  Forall (fun g => chain_ok (snd g)) gs.

(** ** Ordering *)

Definition keys_sorted (gs : list (block * RBT)) : Prop :=
  StronglySorted Z.lt (map key gs).

Definition bucket_keys_ok (g : block * RBT) : Prop :=
  Forall (fun b => capacity b = key g) (chain_blocks (snd g)).

Definition ordered (gs : list (block * RBT)) : Prop :=
  keys_sorted gs /\ Forall bucket_keys_ok gs.

(** ** Removal of one node, seen on the in-order listing *)

(** [unlinked ch x ch']: [x] is a member of the list [ch], and [ch'] is the
    list without it. *)
Inductive unlinked : RBT -> RBT -> RBT -> Prop :=
| unlink_here b c l r nx : unlinked (Node b c l r nx) (Node b c l r NULL) nx
| unlink_later b c l r nx x nx' :
    unlinked nx x nx' -> unlinked (Node b c l r nx) x (Node b c l r nx').

(** What the removal of [x] does to the group [(b, chain)] it belongs to:
    the tree node disappears with its group, or it is replaced by the head of
    its bucket, or a bucket member is unlinked. *)
Inductive group_removed : block * RBT -> RBT -> list (block * RBT) -> Prop :=
| removed_tree_node b c :
    group_removed (b, NULL) (Node b c NULL NULL NULL) []
| removed_promoted b c nb nc nl nr nnx :
    group_removed (b, Node nb nc nl nr nnx) (Node b c NULL NULL NULL) [(nb, nnx)]
| removed_bucket b ch x ch' :
    unlinked ch x ch' -> group_removed (b, ch) x [(b, ch')].

(** ** Colors *)

(** [is_rb t c n]: [t] is a red-black tree without doubly-black node whose
    root has color [c] (a leaf is BLACK) and whose paths to the leaves all
    cross [n] BLACK nodes. *)
Inductive is_rb : RBT -> color -> nat -> Prop :=
| rb_leaf : is_rb NULL BLACK 0
| rb_red b l r nx n :
    is_rb l BLACK n -> is_rb r BLACK n -> is_rb (Node b RED l r nx) RED n
| rb_black b l r nx cl cr n :
    is_rb l cl n -> is_rb r cr n -> is_rb (Node b BLACK l r nx) BLACK (S n).

(** A doubly-black root over red-black subtrees; the root counts twice. *)
Inductive is_dbl : RBT -> nat -> Prop :=
| dbl_leaf : is_dbl DOUBLE_BLACK_PTR 1
| dbl_node b l r nx cl cr n :
    is_rb l cl n -> is_rb r cr n ->
    is_dbl (Node b DOUBLE_BLACK l r nx) (S (S n)).

(** What a removal returns for a subtree that had root color [c] and black
    height [n]. *)
Inductive del_res (c : color) (n : nat) (t' : RBT) : Prop :=
| dr_rb c' : is_rb t' c' n -> (c = BLACK -> c' = BLACK) -> del_res c n t'
| dr_dbl : c = BLACK -> is_dbl t' n -> del_res c n t'.

(** What an insertion returns for a subtree that had root color [c] and
    black height [n]. *)
Inductive ins_res : color -> nat -> RBT -> Prop :=
| ir_black c' n t' : is_rb t' c' n -> is_node t' -> ins_res BLACK n t'
| ir_red b l r nx cl cr n :
    is_rb l cl n -> is_rb r cr n -> (cl = BLACK \/ cr = BLACK) ->
    ins_res RED n (Node b RED l r nx).

Definition up (c : color) (n : nat) : nat :=
  match c with
  | BLACK => S n
  | _ => n
  end.


(** ** The red-black invariant, stated on paths *)

(** The root is BLACK, or the tree is empty. *)
Definition root_black (t : RBT) : Prop :=
  match t with
  | NULL => True
  | DOUBLE_BLACK_PTR => False
  | Node _ c _ _ _ => c = BLACK
  end.

(** No node is DOUBLE_BLACK and no pointer is the doubly-black sentinel. *)
Fixpoint no_double_black (t : RBT) : Prop :=
  match t with
  | NULL => True
  | DOUBLE_BLACK_PTR => False
  | Node _ c l r _ => c <> DOUBLE_BLACK /\ no_double_black l /\ no_double_black r
  end.

Definition is_red (t : RBT) : Prop :=
  match t with
  | Node _ RED _ _ _ => True
  | _ => False
  end.

(** No RED node has a RED child. *)
Fixpoint no_red_red (t : RBT) : Prop :=
  match t with
  | Node _ c l r _ =>
      (c = RED -> ~ is_red l /\ ~ is_red r) /\ no_red_red l /\ no_red_red r
  | _ => True
  end.

(** The number of BLACK nodes on each path from the root to a leaf, one
    entry per path, from the leftmost path to the rightmost. *)
Fixpoint black_counts (t : RBT) : list nat :=
  match t with
  | Node _ c l r _ =>
      map (fun n => if color_eqb c BLACK then S n else n)
          (black_counts l ++ black_counts r)
  | _ => [O]
  end.

Definition same_black_count (t : RBT) : Prop :=
  forall x y, In x (black_counts t) -> In y (black_counts t) -> x = y.

Definition rb_invariant (t : RBT) : Prop :=
  root_black t /\ no_double_black t /\ no_red_red t /\ same_black_count t.

(** The invariant of the trees the library hands out: the red-black
    invariant, bucket lists made of nodes without children, and no node
    stored twice. *)
Definition well_formed (t : RBT) : Prop :=
  rb_invariant t
  /\ chains_ok (inorder t)
  /\ NoDup (addrs t).

(** ** Sequences of operations *)

Inductive op : Type :=
| Add (node : RBT) (cap : Z)
| RemoveAtLeast (cap : Z) (removed : option RBT)
| RemoveNode (node : RBT) (removed : option RBT).

(** The root returned by one operation. *)
Definition step (t : RBT) (o : op) : option RBT :=
  match o with
  | Add node cap => RBT_add t node cap
  | RemoveAtLeast cap removed =>
      option_map fst (RBT_remove_at_least t cap removed)
  | RemoveNode node removed =>
      option_map fst (RBT_remove_node t node removed)
  end.

(** The roots returned by a sequence of operations, one after the other. *)
Fixpoint run (t : RBT) (ops : list op) : option (list RBT) :=
  match ops with
  | [] => Some []
  | o :: ops' =>
      t' <- step t o ;;
      rest <- run t' ops' ;;
      Some (t' :: rest)
  end.

(** What a caller may pass: storage given to [RBT_add] is NULL or a node that
    is not in the tree at that time; a handle is NULL or the address of a
    node. *)
Definition allowed (t : RBT) (o : op) : Prop :=
  match o with
  | Add node _ =>
      match node with
      | NULL => True
      | DOUBLE_BLACK_PTR => False
      | Node nb _ _ _ _ => ~ In (self nb) (addrs t)
      end
  | RemoveAtLeast _ _ => True
  | RemoveNode node _ => node <> DOUBLE_BLACK_PTR
  end.

(** The capacities passed to [RBT_add] fit the 30-bit field. *)
Definition capacity_fits (o : op) : Prop :=
  match o with
  | Add _ cap => 0 <= cap < 2 ^ capacity_bits
  | _ => True
  end.

Fixpoint allowed_run (t : RBT) (ops : list op) : Prop :=
  match ops with
  | [] => True
  | o :: ops' =>
      allowed t o /\ forall t', step t o = Some t' -> allowed_run t' ops'
  end.

(** ** Changing the payload

    [map_blocks f t] is the tree [t] in which the non-link fields of every
    node, bucket members included, went through [f]. *)
Fixpoint map_blocks (f : block -> block) (t : RBT) : RBT :=
  match t with
  | Node b c l r nx =>
      Node (f b) c (map_blocks f l) (map_blocks f r) (map_blocks f nx)
  | _ => t
  end.

(** [f] keeps the address of every block. *)
Definition keeps_self (f : block -> block) : Prop :=
  forall b, self (f b) = self b.

(** [f] changes nothing but [prev_dist] and [in_use]. *)
Definition payload_only (f : block -> block) : Prop :=
  forall b, self (f b) = self b /\ capacity (f b) = capacity b.

Definition map_pair (f : block -> block) (r : RBT * RBT) : RBT * RBT :=
  (map_blocks f (fst r), map_blocks f (snd r)).

Definition map_result (f : block -> block) (r : RBT * option RBT)
  : RBT * option RBT :=
  (map_blocks f (fst r), option_map (map_blocks f) (snd r)).

(** The node an operation stored in its out-parameter, if any. *)
Definition stored (out : option RBT) : list block :=
  match out with
  | Some x => node_block x
  | None => []
  end.

(** The leftmost node of a subtree: the in-order successor of the node whose
    right subtree it is. *)
Fixpoint leftmost (t : RBT) : RBT :=
  match t with
  | Node _ _ l _ _ =>
      match l with
      | Node _ _ _ _ _ => leftmost l
      | _ => t
      end
  | _ => t
  end.

(** ** Key lookup *)

(** The descent of [RBT_add_inner] and [RBT_remove_node_inner]: is there a
    tree node with capacity [cap] on the search path? *)
Fixpoint find_key (t : RBT) (cap : Z) : bool :=
  match t with
  | Node b _ l r _ =>
      if cap =? capacity b then true
      else if cap <? capacity b then find_key l cap
      else find_key r cap
  | _ => false
  end.

(** The tree without its bucket lists. *)
Fixpoint skeleton (t : RBT) : RBT :=
  match t with
  | Node b c l r _ => Node b c (skeleton l) (skeleton r) NULL
  | _ => t
  end.

(** The addresses of the storage passed to a series of insertions. *)
Definition node_addrs (nodes : list RBT) : list Z :=
  map self (flat_map node_block nodes).

Definition left_of (t : RBT) : RBT :=
  match t with
  | Node _ _ l _ _ => l
  | _ => t
  end.

Definition right_of (t : RBT) : RBT :=
  match t with
  | Node _ _ _ r _ => r
  | _ => t
  end.

(** ** Drivers for the examples *)

(** Storage as a caller hands it to [RBT_add]: the address is what matters,
    the fields still hold whatever was there. *)
Definition storage (a : Z) : RBT :=
  Node (mkBlock a 12345 77 true) RED DOUBLE_BLACK_PTR DOUBLE_BLACK_PTR
       DOUBLE_BLACK_PTR.

(** A node without children or bucket, as the tree holds it. *)
Definition leaf_node (a cap : Z) (c : color) : RBT :=
  Node (mkBlock a cap 0 false) c NULL NULL NULL.

(** A handle on the node at address [a] holding capacity [cap]. *)
Definition handle (a cap : Z) : RBT :=
  Node (mkBlock a cap 0 false) BLACK NULL NULL NULL.

(** [tree = RBT_add(tree, node, cap)] for each pair (address, capacity). *)
Fixpoint add_each (t : RBT) (l : list (Z * Z)) : option RBT :=
  match l with
  | [] => Some t
  | (a, cap) :: l' => t' <- RBT_add t (storage a) cap ;; add_each t' l'
  end.

(** [tree = RBT_add(tree, node, cap)] for each node, with one capacity. *)
Fixpoint add_all (t : RBT) (nodes : list RBT) (cap : Z) : option RBT :=
  match nodes with
  | [] => Some t
  | node :: nodes' => t' <- RBT_add t node cap ;; add_all t' nodes' cap
  end.

(** The character codes of a string, as the test passes them. *)
Definition char_codes (s : String.string) : list Z :=
  map (fun ch => Z.of_N (Ascii.N_of_ascii ch)) (String.list_ascii_of_string s).

(** One node per character, at addresses 100, 101, ... *)
Fixpoint at_addresses (a : Z) (caps : list Z) : list (Z * Z) :=
  match caps with
  | [] => []
  | cap :: caps' => (a, cap) :: at_addresses (a + 1) caps'
  end.

(** rbt_insertion_test_1 and rbt_insertion_test_2: "ALGORITHM". *)
Definition algorithm_tree : option RBT :=
  add_each NULL (at_addresses 100 (char_codes "ALGORITHM"%string)).

(** The tree 2 (BLACK) over 1 (RED) and 3 (RED). *)
Definition three_nodes : option RBT := add_each NULL [(2, 2); (1, 1); (3, 3)].

(** The tree 2 (BLACK) over 1 (RED) and 3 (RED), with a second node of
    capacity 3, at address 5, on the bucket list of 3. *)
Definition sample_tree : RBT :=
  Node (mkBlock 2 2 0 false) BLACK
    (leaf_node 1 1 RED)
    (Node (mkBlock 3 3 0 false) RED NULL NULL (leaf_node 5 3 BLACK))
    NULL.

(** [sample_tree] without the node at address 5. *)
Definition sample_tree_less_5 : RBT :=
  Node (mkBlock 2 2 0 false) BLACK
    (leaf_node 1 1 RED) (leaf_node 3 3 RED) NULL.

(** A tree of depth three: 4 over 2 (over 1 and 3) and 6 (over 5 and 7, the
    latter over 8). *)
Definition seven_nodes : RBT :=
  Node (mkBlock 4 4 0 false) BLACK
    (Node (mkBlock 2 2 0 false) RED
       (leaf_node 1 1 BLACK) (leaf_node 3 3 BLACK) NULL)
    (Node (mkBlock 6 6 0 false) RED
       (Node (mkBlock 5 5 0 false) BLACK NULL NULL NULL)
       (Node (mkBlock 7 7 0 false) BLACK NULL (leaf_node 8 8 RED) NULL) NULL)
    NULL.

Definition sample_ops : list op :=
  [Add (storage 2) 2; Add (storage 1) 1; Add (storage 3) 3; Add (storage 5) 3;
   RemoveAtLeast 2 (Some NULL); RemoveNode (handle 5 3) (Some NULL);
   Add NULL 9; RemoveNode (handle 8 8) (Some NULL); RemoveAtLeast 0 None;
   RemoveAtLeast 4 (Some NULL); RemoveNode (handle 3 3) (Some NULL);
   RemoveAtLeast 0 (Some NULL)].

(** A caller that marks every block as used, 16 bytes behind the previous
    header. *)
Definition mark_in_use (b : block) : block :=
  mkBlock (self b) (capacity b) 16 true.

(** A change of the blocks that keeps the addresses but not the capacities. *)
Definition clear_capacity (b : block) : block :=
  mkBlock (self b) 0 (prev_dist b) (in_use b).

(** ** Callers *)

(** The removal loop of bst_tests:
    [for (i = 0; i < n; i++) { tree = RBT_remove_at_least(tree, k, &removed);
     if (removed == NULL) exit(1); ... }].
    Returns the tree after the loop and the nodes stored in [removed], one
    per iteration; the listing ends with NULL when the loop exits early. *)
Fixpoint remove_each (n : nat) (tree : RBT) (k : Z) (removed : RBT)
  : option (RBT * list RBT) :=
  match n with
  | O => Some (tree, [])
  | S n' =>
      '(tree', out) <- RBT_remove_at_least tree k (Some removed) ;;
      match out with
      | Some x =>
          if is_null x then Some (tree', [x])
          else
            '(last, xs) <- remove_each n' tree' k x ;;
            Some (last, x :: xs)
      | None => None
      end
  end.

(** [RBT_free(removed)] after a removal, as the tests do; there is nothing
    to free when no out-parameter was passed. *)
Definition free_removed (track : bool) (out : option RBT) (s : alloc)
  : option alloc :=
  match out with
  | Some x => RBT_free track x s
  | None => Some s
  end.

(** One operation on the tree and the allocation state, every removal being
    followed by [RBT_free(removed)]. *)
Definition step_freeing (track : bool) (t : RBT) (s : alloc) (o : op)
  : option (RBT * alloc) :=
  match o with
  | Add node cap => RBT_add_counted track t node cap s
  | RemoveAtLeast cap removed =>
      '(t', out) <- RBT_remove_at_least t cap removed ;;
      s' <- free_removed track out s ;;
      Some (t', s')
  | RemoveNode node removed =>
      '(t', out) <- RBT_remove_node t node removed ;;
      s' <- free_removed track out s ;;
      Some (t', s')
  end.

Fixpoint run_freeing (track : bool) (t : RBT) (s : alloc) (ops : list op)
  : option (RBT * alloc) :=
  match ops with
  | [] => Some (t, s)
  | o :: ops' =>
      '(t', s') <- step_freeing track t s o ;;
      run_freeing track t' s' ops'
  end.

(** The capacities printed for a list of nodes. *)
Definition capacities (bs : list block) : list Z := map capacity bs.

(** The nodes of a list of pointers, NULL left out. *)
Definition nodes_of (xs : list RBT) : list block := flat_map node_block xs.

(** ** Allocation states *)

(** The counter holds an [unsigned int]. *)
Definition counter_ok (s : alloc) : Prop :=
  0 <= NUM_NODES s < 2 ^ uint_bits.

(** The allocation state after [free] was called on each address of [l],
    in that order, the counter going down by one at each call when the
    library tracks allocations. *)
Definition released (track : bool) (l : list Z) (s : alloc) : alloc :=
  mkAlloc (freed s ++ l)
          (if track then uint (NUM_NODES s - Z.of_nat (length l))
           else NUM_NODES s).

(** The addresses of a tree, children before their parent: the left
    subtree, the bucket list from its head on, the right subtree, the node
    itself. *)
Fixpoint free_order (t : RBT) : list Z :=
  match t with
  | Node b _ l r nx =>
      free_order l ++ map self (chain_blocks nx) ++ free_order r ++ [self b]
  | _ => []
  end.


(** No node below the root is DOUBLE_BLACK and no pointer below the root is
    the doubly-black sentinel; the root itself may be either. *)
Definition double_black_only_root (t : RBT) : Prop :=
  match t with
  | Node _ _ l r _ => no_double_black l /\ no_double_black r
  | _ => True
  end.

(** ** Deficiencies *)

(** What the removal of a node of color [c] leaves to the pointer [p] that
    takes its place: [p] as it is when the node was RED; [p] with one more
    unit of black when the node was BLACK (a RED node turns BLACK, a BLACK
    node DOUBLE_BLACK, a leaf becomes the doubly-black leaf). *)
Definition take_place (c : color) (p : RBT) : option RBT :=
  if color_eqb c BLACK then add_black p else Some p.

(** A subtree once its leftmost node is taken out: the right child of that
    node takes its place, with the deficiency the node leaves, and
    [RBT_propagate_double_blackness] is applied at every node on the way
    from there up to the root of the subtree. *)
Fixpoint without_leftmost (t : RBT) : option RBT :=
  match t with
  | Node b c l r nx =>
      match l with
      | NULL => take_place c r
      | DOUBLE_BLACK_PTR => None
      | Node _ _ _ _ _ =>
          l' <- without_leftmost l ;;
          RBT_propagate_double_blackness (Node b c l' r nx)
      end
  | _ => None
  end.

(** The black a node counts for on a path: a doubly-black node counts
    twice. *)
Definition weight (c : color) : nat :=
  match c with
  | BLACK => 1
  | RED => 0
  | DOUBLE_BLACK => 2
  end.

(** The black counted on each path from the root to a leaf, one entry per
    path; the doubly-black leaf counts for one. *)
Fixpoint path_weights (t : RBT) : list nat :=
  match t with
  | Node _ c l r _ =>
      map (fun n => (weight c + n)%nat) (path_weights l ++ path_weights r)
  | DOUBLE_BLACK_PTR => [1%nat]
  | NULL => [0%nat]
  end.

(** Every path of [t] counts as much black as every path of [u]. *)
Definition same_weight (t u : RBT) : Prop :=
  forall x y, In x (path_weights t) -> In y (path_weights u) -> x = y.

(** ** Capacities that do not fit the 30-bit field *)

(** [RBT_new(n1, 5)], then [RBT_add(t, n2, 2^30 + 1)]: the node at address
    2 is stored with capacity 1, to the right of the node of capacity 5. *)
Definition oversize_tree : option RBT :=
  t <- RBT_new (storage 1) 5 ;; RBT_add t (storage 2) (2 ^ 30 + 1).

(** The capacity 2^30 + 3 inserted once, and twice. *)
Definition oversize_once : option RBT := RBT_new (storage 1) (2 ^ 30 + 3).

Definition oversize_twice : option RBT :=
  t <- oversize_once ;; RBT_add t (storage 2) (2 ^ 30 + 3).

(** * Proofs *)

Arguments RBT_eliminate_red_red : simpl never.
Arguments RBT_propagate_double_blackness : simpl never.
Arguments RBT_remove_empty_root : simpl never.
Arguments RBT_remove_root : simpl never.
Arguments RBT_remove_node_root : simpl never.
Arguments tree_addrs : simpl never.

Ltac inv H := inversion H; subst; clear H.

Ltac break_hyp :=
  match goal with
  | H : Some _ = Some _ |- _ => inv H
  | H : None = Some _ |- _ => discriminate H
  | H : context [match ?x with _ => _ end] |- _ => destruct x eqn:?; simpl in H
  end.

Ltac crush_opt := simpl in *; unfold bind in *; repeat (break_hyp; simpl in *; unfold bind in * ).

Ltac list_eq := simpl; repeat (rewrite <- app_assoc; simpl); try reflexivity.

Lemma eliminate_inorder t t' :
  RBT_eliminate_red_red t = Some t' -> inorder t' = inorder t.
Proof.
  unfold RBT_eliminate_red_red, nonleaf_color_is, set_color. intros H.
  crush_opt; list_eq.
Qed.

Lemma propagate_fuel_inorder fuel : forall t t',
  propagate_fuel fuel t = Some t' -> inorder t' = inorder t.
Proof.
  induction fuel; intros t t' H; simpl in H; [discriminate|].
  destruct t as [| |b c l r nx]; try (inv H; reflexivity).
  destruct (is_double_black l) eqn:Hl.
  - destruct r as [| |rb rc rl rr rnx]; try discriminate.
    destruct (color_eqb rc RED).
    + unfold bind in H. destruct (propagate_fuel fuel _) eqn:E; [|discriminate]. inv H.
      apply IHfuel in E. simpl in *. rewrite E. list_eq.
    + unfold blacken, nonleaf_color_is, set_color in H. crush_opt; list_eq.
  - destruct (is_double_black r) eqn:Hr; [|inv H; reflexivity].
    destruct l as [| |lb lc ll lr lnx]; try discriminate.
    destruct (color_eqb lc RED).
    + unfold bind in H. destruct (propagate_fuel fuel _) eqn:E; [|discriminate]. inv H.
      apply IHfuel in E. simpl in *. rewrite E. list_eq.
    + unfold blacken, nonleaf_color_is, set_color in H. crush_opt; list_eq.
Qed.

Lemma propagate_inorder t t' :
  RBT_propagate_double_blackness t = Some t' -> inorder t' = inorder t.
Proof. apply propagate_fuel_inorder. Qed.


Lemma prevswap_inorder prevswap : forall current t',
  RBT_propagate_double_blackness_prevswap prevswap current = Some t' ->
  inorder t' = inorder current.
Proof.
  induction current as [| |b c l IHl r _ nx _]; intros t' H; simpl in H.
  - destruct prevswap; try discriminate. apply propagate_inorder in H. exact H.
  - destruct prevswap; try discriminate. apply propagate_inorder in H. exact H.
  - match type of H with (if ?c then _ else _) = _ => destruct c end.
    + apply propagate_inorder in H. exact H.
    + unfold bind in H.
      destruct (RBT_propagate_double_blackness_prevswap prevswap l) eqn:E; [|discriminate].
      apply propagate_inorder in H. rewrite H. simpl. rewrite (IHl _ eq_refl). reflexivity.
Qed.

Lemma add_black_inorder p p' : add_black p = Some p' -> inorder p' = inorder p.
Proof. unfold add_black. intros H. crush_opt; reflexivity. Qed.

Lemma detach_swap_inorder : forall R last found R',
  detach_swap R = Some (last, found, R') ->
  exists sb sc sr snx, found = Node sb sc NULL sr snx
                       /\ inorder R = (sb, snx) :: inorder R'.
Proof.
  induction R as [| |pb pc sw IHsw pr _ pnx _]; intros last found R' H; simpl in H; try discriminate.
  destruct sw as [| |sb sc sl sr snx]; try discriminate.
  destruct (is_null sl) eqn:Hsl.
  - destruct sl; try discriminate. unfold bind in H.
    destruct (if color_eqb sc BLACK then add_black sr else Some sr) as [prv_left|] eqn:E; [|discriminate].
    inv H. do 4 eexists; split; [reflexivity|].
    assert (inorder prv_left = inorder sr) as Hi.
    { destruct (color_eqb sc BLACK); [apply add_black_inorder; exact E | inv E; reflexivity]. }
    simpl. rewrite Hi. reflexivity.
  - unfold bind in H.
    destruct (detach_swap (Node sb sc sl sr snx)) as [[[last0 found0] sw']|] eqn:E; [|discriminate].
    inv H. destruct (IHsw _ _ _ eq_refl) as (fb & fc & fr & fnx & -> & Hi).
    do 4 eexists; split; [reflexivity|].
    change (inorder (Node pb pc (Node sb sc sl sr snx) pr pnx))
      with (inorder (Node sb sc sl sr snx) ++ (pb, pnx) :: inorder pr).
    rewrite Hi. reflexivity.
Qed.


Lemma remove_empty_root_inorder b c l r nx t' x :
  RBT_remove_empty_root (Node b c l r nx) = Some (t', x) ->
  x = Node b c NULL NULL nx /\ inorder t' = inorder l ++ inorder r.
Proof.
  unfold RBT_remove_empty_root. intros H.
  destruct l as [| |lb lc ll lr lnx]; simpl is_null in H; cbv iota in H.
  - destruct r as [| |rb rc rl rr rnx]; simpl in H; crush_opt; auto.
  - destruct r; simpl in H; discriminate.
  - destruct r as [| |rb rc rl rr rnx]; simpl is_null in H; cbv iota in H.
    + destruct (color_eqb lc RED); inv H; simpl; rewrite app_nil_r; auto.
    + destruct (is_null ll && is_null lr) eqn:Hleaf; [|discriminate].
      destruct ll, lr; try discriminate. unfold bind in H.
      destruct (RBT_propagate_double_blackness _) eqn:E; [|discriminate]. inv H.
      apply propagate_inorder in E. rewrite E. destruct lc; simpl; auto.
    + destruct (is_null ll && is_null lr) eqn:Hleaf.
      * destruct ll, lr; try discriminate. unfold bind in H.
        destruct (RBT_propagate_double_blackness _) eqn:E; [|discriminate]. inv H.
        apply propagate_inorder in E. rewrite E. destruct lc; simpl; auto.
      * destruct (is_null rl) eqn:Hrl.
        -- destruct rl; try discriminate. unfold bind in H.
           destruct (if color_eqb rc BLACK then add_black rr else Some rr) as [p|] eqn:E1; [|discriminate].
           destruct (RBT_propagate_double_blackness _) eqn:E; [|discriminate]. inv H.
           apply propagate_inorder in E. rewrite E.
           assert (inorder p = inorder rr) as Hi.
           { destruct (color_eqb rc BLACK); [apply add_black_inorder; exact E1 | inv E1; reflexivity]. }
           simpl. rewrite Hi. auto.
        -- unfold bind in H.
           destruct (detach_swap (Node rb rc rl rr rnx)) as [[[last found] R']|] eqn:E1; [|discriminate].
           destruct (detach_swap_inorder _ _ _ _ E1) as (sb & sc & sr & snx & -> & Hi).
           destruct (RBT_propagate_double_blackness_prevswap last R') as [R''|] eqn:E2; [|discriminate].
           destruct (RBT_propagate_double_blackness _) eqn:E; [|discriminate]. inv H.
           apply propagate_inorder in E. apply prevswap_inorder in E2.
           rewrite E. split; [reflexivity|].
           change (inorder (Node sb c (Node lb lc ll lr lnx) R'' snx))
             with (inorder (Node lb lc ll lr lnx) ++ (sb, snx) :: inorder R'').
           rewrite E2, Hi. reflexivity.
Qed.

Lemma sorted_app_inv (l1 l2 : list Z) x :
  StronglySorted Z.lt (l1 ++ x :: l2) ->
  StronglySorted Z.lt l1 /\ StronglySorted Z.lt l2
  /\ Forall (fun y => y < x) l1 /\ Forall (fun y => x < y) l2.
Proof.
  induction l1 as [|a l1 IH]; simpl; intros H.
  - inv H. repeat split; auto. constructor.
  - inv H. destruct (IH H2) as (S1 & S2 & F1 & F2).
    repeat split; auto.
    + constructor; auto. apply Forall_app in H3. tauto.
    + constructor; auto. apply Forall_app in H3. destruct H3 as [_ H3]. inv H3. assumption.
Qed.

Lemma keys_sorted_node b c l r nx :
  keys_sorted (inorder (Node b c l r nx)) ->
  keys_sorted (inorder l) /\ keys_sorted (inorder r)
  /\ Forall (fun g => key g < capacity b) (inorder l)
  /\ Forall (fun g => capacity b < key g) (inorder r).
Proof.
  unfold keys_sorted. simpl. rewrite map_app. simpl. intros H.
  apply sorted_app_inv in H. destruct H as (S1 & S2 & F1 & F2).
  rewrite Forall_map in F1, F2. auto.
Qed.


Lemma remove_root_inorder b c l r nx t' x :
  RBT_remove_root (Node b c l r nx) = Some (t', x) ->
  exists og, group_removed (b, nx) x og /\ inorder t' = inorder l ++ og ++ inorder r.
Proof.
  unfold RBT_remove_root. destruct nx as [| |tb tc tl tr tnx]; intros H; try discriminate.
  - apply remove_empty_root_inorder in H. destruct H as [-> H].
    exists []. split; [constructor | exact H].
  - inv H. exists [(b, tnx)]. split; [|reflexivity]. apply removed_bucket. constructor.
Qed.

Lemma group_removed_node g x og : group_removed g x og -> is_node x.
Proof. destruct 1; simpl; auto. induction H; simpl; auto. Qed.

Lemma Forall_lt_trans (gs : list (block * RBT)) a b :
  Forall (fun g => key g < a) gs -> a <= b -> Forall (fun g => key g < b) gs.
Proof. intros H Hab. eapply Forall_impl; [|exact H]. simpl. intros; lia. Qed.

Lemma remove_at_least_inner_inorder : forall t k t' x,
  RBT_remove_at_least_inner t k = Some (t', x) ->
  (x = NULL /\ t' = t
   /\ (keys_sorted (inorder t) -> Forall (fun g => key g < k) (inorder t)))
  \/ (exists g1 g g2 og,
        inorder t = g1 ++ g :: g2 /\ group_removed g x og
        /\ inorder t' = g1 ++ og ++ g2
        /\ (keys_sorted (inorder t) -> Forall (fun h => key h < k) g1 /\ k <= key g)).
Proof.
  induction t as [| |b c l IHl r IHr nx _]; intros k t' x H; simpl in H.
  - inv H. left. repeat split; auto.
  - discriminate.
  - destruct (k =? capacity b) eqn:Heq.
    + apply Z.eqb_eq in Heq. apply remove_root_inorder in H. destruct H as (og & G & Hi).
      right. exists (inorder l), (b, nx), (inorder r), og. repeat split; auto.
      * apply keys_sorted_node in H. destruct H as (_ & _ & F & _).
        eapply Forall_lt_trans; [exact F|lia].
      * unfold key; simpl; lia.
    + apply Z.eqb_neq in Heq. destruct (k <? capacity b) eqn:Hlt; unfold bind in H.
      * apply Z.ltb_lt in Hlt.
        destruct (RBT_remove_at_least_inner l k) as [[newleft removed]|] eqn:E; [|discriminate].
        destruct (IHl _ _ _ E) as [(-> & -> & Hall)|(g1 & g & g2 & og & Hi & G & Hi' & Hpos)].
        -- simpl in H. apply remove_root_inorder in H. destruct H as (og & G & Hi).
           right. exists (inorder l), (b, nx), (inorder r), og. repeat split; auto.
           ++ apply keys_sorted_node in H. destruct H as (S1 & _). auto.
           ++ unfold key; simpl; lia.
        -- pose proof (group_removed_node _ _ _ G) as Hx.
           destruct removed; try contradiction. simpl in H.
           destruct (RBT_propagate_double_blackness _) eqn:E2; [|discriminate]. inv H.
           apply propagate_inorder in E2.
           right. exists g1, g, (g2 ++ (b, nx) :: inorder r), og. repeat split.
           ++ simpl. rewrite Hi. list_eq.
           ++ exact G.
           ++ rewrite E2. simpl. rewrite Hi'. list_eq.
           ++ apply keys_sorted_node in H. destruct H as (S1 & _). apply Hpos; auto.
           ++ apply keys_sorted_node in H. destruct H as (S1 & _). apply Hpos; auto.
      * apply Z.ltb_ge in Hlt.
        destruct (RBT_remove_at_least_inner r k) as [[newright removed]|] eqn:E; [|discriminate].
        destruct (IHr _ _ _ E) as [(-> & -> & Hall)|(g1 & g & g2 & og & Hi & G & Hi' & Hpos)].
        -- simpl in H. inv H. left. repeat split; auto. intros HS.
           apply keys_sorted_node in HS. destruct HS as (S1 & S2 & F1 & F2).
           simpl. apply Forall_app; split; [|constructor].
           ++ eapply Forall_lt_trans; [exact F1|lia].
           ++ unfold key; simpl; lia.
           ++ auto.
        -- pose proof (group_removed_node _ _ _ G) as Hx.
           destruct removed; try contradiction. simpl in H.
           destruct (RBT_propagate_double_blackness _) eqn:E2; [|discriminate]. inv H.
           apply propagate_inorder in E2.
           right. exists (inorder l ++ (b, nx) :: g1), g, g2, og. repeat split.
           ++ simpl. rewrite Hi. list_eq.
           ++ exact G.
           ++ rewrite E2. simpl. rewrite Hi'. list_eq.
           ++ apply keys_sorted_node in H. destruct H as (S1 & S2 & F1 & F2).
              apply Forall_app; split; [|constructor].
              ** eapply Forall_lt_trans; [exact F1|lia].
              ** unfold key; simpl; lia.
              ** apply Hpos; auto.
           ++ apply keys_sorted_node in H. destruct H as (S1 & S2 & _). apply Hpos; auto.
Qed.

Section RemoveNode.
Variables (nb : block) (nc : color) (nl nr nnx : RBT).
Let node := Node nb nc nl nr nnx.

Lemma remove_from_list_spec : forall ch ch' x,
  remove_from_list node ch = Some (ch', x) ->
  (x = NULL /\ ch' = ch /\ Forall (fun b => self b <> self nb) (chain_blocks ch))
  \/ (unlinked ch x ch' /\ ptr_eqb node x = true).
Proof.
  induction ch as [| |tb tc tl _ tr _ tnx IH]; intros ch' x H; simpl in H.
  - inv H. left. repeat split. constructor.
  - discriminate.
  - destruct (self nb =? self tb) eqn:Heq.
    + inv H. right. split; [constructor|]. simpl. exact Heq.
    + unfold bind in H.
      destruct (remove_from_list node tnx) as [[tnx' removed]|] eqn:E; [|discriminate].
      inv H. destruct (IH _ _ eq_refl) as [(-> & -> & F)|(U & P)].
      * left. repeat split. simpl. constructor; auto.
        apply Z.eqb_neq in Heq. congruence.
      * right. split; [constructor; exact U | exact P].
Qed.


Lemma remove_node_root_spec b c l r nx t' x :
  RBT_remove_node_root (Node b c l r nx) node = Some (t', x) ->
  (x = NULL /\ t' = Node b c l r nx
   /\ Forall (fun b' => self b' <> self nb) (group_blocks (b, nx)))
  \/ (exists og, group_removed (b, nx) x og
                 /\ inorder t' = inorder l ++ og ++ inorder r
                 /\ ptr_eqb node x = true).
Proof.
  unfold RBT_remove_node_root. simpl ptr_eqb. intros H.
  destruct (self nb =? self b) eqn:Heq; simpl in H.
  - right. destruct nx as [| |xb xc xl xr xnx]; try discriminate.
    + apply remove_empty_root_inorder in H. destruct H as [-> H].
      exists []. repeat split; [constructor | exact H | simpl; exact Heq].
    + inv H. exists [(xb, xnx)]. repeat split; [constructor | simpl; exact Heq].
  - unfold bind in H.
    destruct (remove_from_list _ nx) as [[nx' removed]|] eqn:E; [|discriminate].
    inv H. destruct (remove_from_list_spec _ _ _ E) as [(-> & -> & F)|(U & P)].
    + left. repeat split. constructor; auto. simpl. apply Z.eqb_neq in Heq. congruence.
    + right. exists [(b, nx')]. repeat split; [constructor; exact U | exact P].
Qed.

Lemma blocks_of_app g1 g2 : blocks_of (g1 ++ g2) = blocks_of g1 ++ blocks_of g2.
Proof. apply flat_map_app. Qed.

Lemma blocks_node b c l r nx :
  blocks (Node b c l r nx) = blocks l ++ (b :: chain_blocks nx) ++ blocks r.
Proof. unfold blocks. simpl. rewrite blocks_of_app. reflexivity. Qed.

Lemma ordered_node b c l r nx :
  ordered (inorder (Node b c l r nx)) ->
  ordered (inorder l) /\ ordered (inorder r) /\ bucket_keys_ok (b, nx)
  /\ Forall (fun g => key g < capacity b) (inorder l)
  /\ Forall (fun g => capacity b < key g) (inorder r).
Proof.
  intros [S F]. apply keys_sorted_node in S. destruct S as (S1 & S2 & F1 & F2).
  simpl in F. apply Forall_app in F. destruct F as [Fl F]. inv F.
  unfold ordered. auto 10.
Qed.

Lemma blocks_of_capacity (P : Z -> Prop) gs :
  Forall bucket_keys_ok gs -> Forall (fun g => P (key g)) gs ->
  Forall (fun b => P (capacity b)) (blocks_of gs).
Proof.
  induction gs as [|g gs IH]; simpl; intros F1 F2; [constructor|].
  inv F1. inv F2. constructor; [exact H3|]. apply Forall_app; split; auto.
  eapply Forall_impl; [|exact H1]. simpl. intros a ->. exact H3.
Qed.

Lemma remove_node_inner_spec : forall t cap t' x,
  RBT_remove_node_inner t node cap = Some (t', x) ->
  (x = NULL /\ inorder t' = inorder t
   /\ (ordered (inorder t) ->
       Forall (fun b => capacity b = cap -> self b <> self nb) (blocks t)))
  \/ (exists g1 g g2 og,
        inorder t = g1 ++ g :: g2 /\ group_removed g x og
        /\ inorder t' = g1 ++ og ++ g2
        /\ ptr_eqb node x = true).
Proof.
  induction t as [| |b c l IHl r IHr nx _]; intros cap t' x H; simpl in H.
  - inv H. left. repeat split. constructor.
  - discriminate.
  - destruct (cap =? capacity b) eqn:Heq.
    + apply Z.eqb_eq in Heq.
      destruct (remove_node_root_spec _ _ _ _ _ _ _ H) as [(-> & -> & F)|(og & G & Hi & P)].
      * left. repeat split. intros Ho.
        apply ordered_node in Ho. destruct Ho as (Ol & Or & Bk & Fl & Fr).
        rewrite blocks_node.
        apply Forall_app; split; [|apply Forall_app; split].
        -- destruct Ol as [_ Ol].
           pose proof (blocks_of_capacity (fun z => z < capacity b) _ Ol Fl) as Hc.
           eapply Forall_impl; [|exact Hc]. simpl. intros; lia.
        -- eapply Forall_impl; [|exact F]. simpl. auto.
        -- destruct Or as [_ Or].
           pose proof (blocks_of_capacity (fun z => capacity b < z) _ Or Fr) as Hc.
           eapply Forall_impl; [|exact Hc]. simpl. intros; lia.
      * right. exists (inorder l), (b, nx), (inorder r), og. auto.
    + apply Z.eqb_neq in Heq. destruct (cap <? capacity b) eqn:Hlt; unfold bind in H.
      * apply Z.ltb_lt in Hlt.
        destruct (RBT_remove_node_inner l node cap) as [[newleft removed]|] eqn:E; [|discriminate].
        destruct (RBT_propagate_double_blackness _) eqn:E2; [|discriminate]. inv H.
        apply propagate_inorder in E2.
        destruct (IHl _ _ _ E) as [(-> & Hi & Habs)|(g1 & g & g2 & og & Hi & G & Hi' & P)].
        -- left. repeat split; [rewrite E2; simpl; rewrite Hi; reflexivity|].
           intros Ho. apply ordered_node in Ho. destruct Ho as (Ol & Or & Bk & Fl & Fr).
           rewrite blocks_node.
           apply Forall_app; split; [exact (Habs Ol)|].
           simpl. constructor; [intros; lia|]. apply Forall_app; split.
           ++ eapply Forall_impl; [|exact Bk]. unfold key; simpl. intros; lia.
           ++ destruct Or as [_ Or].
              pose proof (blocks_of_capacity (fun z => capacity b < z) _ Or Fr) as Hc.
              eapply Forall_impl; [|exact Hc]. simpl. intros; lia.
        -- right. exists g1, g, (g2 ++ (b, nx) :: inorder r), og. repeat split; auto.
           ++ simpl. rewrite Hi. list_eq.
           ++ rewrite E2. simpl. rewrite Hi'. list_eq.
      * apply Z.ltb_ge in Hlt.
        destruct (RBT_remove_node_inner r node cap) as [[newright removed]|] eqn:E; [|discriminate].
        destruct (RBT_propagate_double_blackness _) eqn:E2; [|discriminate]. inv H.
        apply propagate_inorder in E2.
        destruct (IHr _ _ _ E) as [(-> & Hi & Habs)|(g1 & g & g2 & og & Hi & G & Hi' & P)].
        -- left. repeat split; [rewrite E2; simpl; rewrite Hi; reflexivity|].
           intros Ho. apply ordered_node in Ho. destruct Ho as (Ol & Or & Bk & Fl & Fr).
           rewrite blocks_node.
           apply Forall_app; split.
           ++ destruct Ol as [_ Ol].
              pose proof (blocks_of_capacity (fun z => z < capacity b) _ Ol Fl) as Hc.
              eapply Forall_impl; [|exact Hc]. simpl. intros; lia.
           ++ simpl. constructor; [intros; lia|]. apply Forall_app; split; [|exact (Habs Or)].
              eapply Forall_impl; [|exact Bk]. unfold key; simpl. intros; lia.
        -- right. exists (inorder l ++ (b, nx) :: g1), g, g2, og. repeat split; auto.
           ++ simpl. rewrite Hi. list_eq.
           ++ rewrite E2. simpl. rewrite Hi'. list_eq.
Qed.

End RemoveNode.

Lemma set_color_inorder p c p' : set_color p c = Some p' -> inorder p' = inorder p.
Proof. destruct p; simpl; intros H; inv H; reflexivity. Qed.

Section Add.
Variables (nb : block) (nc : color) (nl nr nnx : RBT) (cap : Z).
Let node := Node nb nc nl nr nnx.
Let nb' := mkBlock (self nb) (store_capacity cap) 0 false.


Lemma add_inner_inorder : forall t t',
  RBT_add_inner t node cap = Some t' ->
  (exists g1 g2,
      inorder t = g1 ++ g2 /\ inorder t' = g1 ++ (nb', NULL) :: g2
      /\ (keys_sorted (inorder t) ->
          Forall (fun g => key g < cap) g1 /\ Forall (fun g => cap < key g) g2))
  \/ (exists g1 b ch g2,
        inorder t = g1 ++ (b, ch) :: g2
        /\ inorder t' = g1 ++ (b, Node nb' BLACK NULL NULL ch) :: g2
        /\ capacity b = cap).
Proof.
  induction t as [| |b c l IHl r IHr nx _]; intros t' H; simpl in H.
  - inv H. left. exists [], []. repeat split; constructor.
  - discriminate.
  - destruct (cap =? capacity b) eqn:Heq.
    + apply Z.eqb_eq in Heq. inv H. right.
      exists (inorder l), b, nx, (inorder r). auto.
    + apply Z.eqb_neq in Heq. destruct (cap <? capacity b) eqn:Hlt; unfold bind in H.
      * apply Z.ltb_lt in Hlt.
        destruct (RBT_add_inner l node cap) as [new_left|] eqn:E; [|discriminate].
        destruct (if is_null l then set_color new_left RED else Some new_left)
          as [new_left'|] eqn:E1; [|discriminate].
        assert (inorder new_left' = inorder new_left) as Hc.
        { destruct (is_null l); [eapply set_color_inorder; eauto | inv E1; reflexivity]. }
        apply eliminate_inorder in H.
        destruct (IHl _ eq_refl) as [(g1 & g2 & Hi & Hi' & Hpos)|(g1 & b0 & ch & g2 & Hi & Hi' & Hk)].
        -- left. exists g1, (g2 ++ (b, nx) :: inorder r).
           split; [simpl; rewrite Hi; list_eq|].
           split; [rewrite H; simpl; rewrite Hc, Hi'; list_eq|].
           intros HS. apply (keys_sorted_node b c l r nx) in HS.
           destruct HS as (S1 & S2 & F1 & F2). destruct (Hpos S1) as [P1 P2].
           split; [exact P1|]. apply Forall_app; split; [exact P2|].
           constructor; [unfold key; simpl; lia|].
           eapply Forall_impl; [|exact F2]. simpl. intros; lia.
        -- right. exists g1, b0, ch, (g2 ++ (b, nx) :: inorder r).
           split; [simpl; rewrite Hi; list_eq|].
           split; [rewrite H; simpl; rewrite Hc, Hi'; list_eq|exact Hk].
      * apply Z.ltb_ge in Hlt.
        destruct (RBT_add_inner r node cap) as [new_right|] eqn:E; [|discriminate].
        destruct (if is_null r then set_color new_right RED else Some new_right)
          as [new_right'|] eqn:E1; [|discriminate].
        assert (inorder new_right' = inorder new_right) as Hc.
        { destruct (is_null r); [eapply set_color_inorder; eauto | inv E1; reflexivity]. }
        apply eliminate_inorder in H.
        destruct (IHr _ eq_refl) as [(g1 & g2 & Hi & Hi' & Hpos)|(g1 & b0 & ch & g2 & Hi & Hi' & Hk)].
        -- left. exists (inorder l ++ (b, nx) :: g1), g2.
           split; [simpl; rewrite Hi; list_eq|].
           split; [rewrite H; simpl; rewrite Hc, Hi'; list_eq|].
           intros HS. apply (keys_sorted_node b c l r nx) in HS.
           destruct HS as (S1 & S2 & F1 & F2). destruct (Hpos S2) as [P1 P2].
           split; [|exact P2]. apply Forall_app; split.
           ++ eapply Forall_impl; [|exact F1]. simpl. intros; lia.
           ++ constructor; [unfold key; simpl; lia|exact P1].
        -- right. exists (inorder l ++ (b, nx) :: g1), b0, ch, g2.
           split; [simpl; rewrite Hi; list_eq|].
           split; [rewrite H; simpl; rewrite Hc, Hi'; list_eq|exact Hk].
Qed.

End Add.

Lemma unlinked_blocks ch x ch' :
  unlinked ch x ch' ->
  exists bx l1 l2, node_block x = [bx]
                   /\ chain_blocks ch = l1 ++ bx :: l2 /\ chain_blocks ch' = l1 ++ l2.
Proof.
  induction 1 as [b c l r nx|b c l r nx x nx' U (bx & l1 & l2 & E1 & E2 & E3)].
  - exists b, [], (chain_blocks nx). auto.
  - exists bx, (b :: l1), l2. simpl. rewrite E2, E3. auto.
Qed.

Lemma group_removed_blocks g x og :
  group_removed g x og ->
  exists bx l1 l2, node_block x = [bx]
                   /\ group_blocks g = l1 ++ bx :: l2 /\ blocks_of og = l1 ++ l2.
Proof.
  destruct 1 as [b c|b c xb xc xl xr xnx|b ch x ch' U].
  - exists b, [], []. auto.
  - exists b, [], (xb :: chain_blocks xnx). simpl. rewrite app_nil_r. auto.
  - destruct (unlinked_blocks _ _ _ U) as (bx & l1 & l2 & E1 & E2 & E3).
    exists bx, (b :: l1), l2. unfold group_blocks. simpl. rewrite E2, E3, app_nil_r. auto.
Qed.

Lemma removed_blocks g1 g g2 x og :
  group_removed g x og ->
  exists bx l1 l2, node_block x = [bx]
                   /\ blocks_of (g1 ++ g :: g2) = l1 ++ bx :: l2
                   /\ blocks_of (g1 ++ og ++ g2) = l1 ++ l2.
Proof.
  intros G. destruct (group_removed_blocks _ _ _ G) as (bx & l1 & l2 & E1 & E2 & E3).
  exists bx, (blocks_of g1 ++ l1), (l2 ++ blocks_of g2).
  rewrite !blocks_of_app.
  change (blocks_of (g :: g2)) with (group_blocks g ++ blocks_of g2).
  rewrite E2, E3. split; [exact E1|]. split; list_eq.
Qed.

Lemma unlinked_chain_ok ch x ch' :
  unlinked ch x ch' -> chain_ok ch ->
  chain_ok ch' /\ exists bx cx, x = Node bx cx NULL NULL NULL.
Proof.
  induction 1 as [b c l r nx|b c l r nx x nx' U IH]; simpl; intros (-> & -> & Hnx).
  - split; eauto.
  - destruct (IH Hnx) as [H1 H2]. auto.
Qed.

Lemma group_removed_chain_ok g x og :
  group_removed g x og -> chain_ok (snd g) ->
  chains_ok og /\ exists bx cx, x = Node bx cx NULL NULL NULL.
Proof.
  destruct 1 as [b c|b c xb xc xl xr xnx|b ch x ch' U]; simpl.
  - intros _. split; [constructor|eauto].
  - intros (-> & -> & Hnx). split; [repeat constructor; exact Hnx|eauto].
  - intros Hc. destruct (unlinked_chain_ok _ _ _ U Hc) as [H1 H2].
    split; [repeat constructor; exact H1|exact H2].
Qed.

Lemma removed_chains_ok g1 g g2 x og :
  group_removed g x og -> chains_ok (g1 ++ g :: g2) ->
  chains_ok (g1 ++ og ++ g2) /\ exists bx cx, x = Node bx cx NULL NULL NULL.
Proof.
  unfold chains_ok. intros G H. apply Forall_app in H. destruct H as [H1 H2]. inv H2.
  destruct (group_removed_chain_ok _ _ _ G H3) as [Ho Hx].
  split; [|exact Hx]. apply Forall_app; split; [exact H1|]. apply Forall_app; split; assumption.
Qed.

Lemma unlinked_keys ch x ch' (P : block -> Prop) :
  unlinked ch x ch' -> Forall P (chain_blocks ch) -> Forall P (chain_blocks ch').
Proof.
  induction 1; simpl; intros F; inv F; auto.
Qed.

Lemma sorted_remove (l1 l2 : list Z) x :
  StronglySorted Z.lt (l1 ++ x :: l2) -> StronglySorted Z.lt (l1 ++ l2).
Proof.
  induction l1 as [|a l1 IH]; simpl; intros H; inv H; auto.
  constructor; auto. apply Forall_app in H3. destruct H3 as [F1 F2]. inv F2.
  apply Forall_app; auto.
Qed.

Lemma removed_ordered g1 g g2 x og :
  group_removed g x og -> ordered (g1 ++ g :: g2) -> ordered (g1 ++ og ++ g2).
Proof.
  unfold ordered, keys_sorted. intros G [S F].
  apply Forall_app in F. destruct F as [F1 F2]. inv F2.
  destruct G as [b c|b c xb xc xl xr xnx|b ch x ch' U]; simpl.
  - split; [|apply Forall_app; auto].
    rewrite map_app in *. simpl in S. eapply sorted_remove; eauto.
  - unfold bucket_keys_ok, key in H1. simpl in H1. inv H1.
    split.
    + rewrite map_app in *. simpl in *. unfold key at 2. simpl. rewrite H3. exact S.
    + apply Forall_app; split; auto. constructor; auto.
      unfold bucket_keys_ok, key. simpl. rewrite H3. exact H4.
  - split; [rewrite map_app in *; exact S|].
    apply Forall_app; split; auto. constructor; auto.
    unfold bucket_keys_ok, key in *. simpl in *. eapply unlinked_keys; eauto.
Qed.

(** ** Color invariants *)

Create HintDb rb.
#[local] Hint Constructors is_rb is_dbl ins_res : rb.
#[local] Hint Extern 1 (is_node _) => exact I : rb.

Ltac inv_rb :=
  repeat match goal with
  | H : is_rb NULL _ _ |- _ => inv H
  | H : is_rb DOUBLE_BLACK_PTR _ _ |- _ => inv H
  | H : is_rb (Node _ _ _ _ _) _ _ |- _ => inv H
  | H : is_dbl NULL _ |- _ => inv H
  | H : is_dbl DOUBLE_BLACK_PTR _ |- _ => inv H
  | H : is_dbl (Node _ _ _ _ _) _ |- _ => inv H
  | H : is_rb _ RED _ |- _ => inv H
  | H : is_rb _ DOUBLE_BLACK _ |- _ => inv H
  | H : is_rb _ _ 0 |- _ => inv H
  | H : is_node NULL |- _ => destruct H
  | H : is_node DOUBLE_BLACK_PTR |- _ => destruct H
  | H : _ \/ _ |- _ => destruct H
  | H : RED = BLACK |- _ => discriminate H
  | H : BLACK = RED |- _ => discriminate H
  end.

(* run the code one test further: split on the tree or color it inspects *)
Ltac run_step :=
  match goal with
  | |- context [match ?x with _ => _ end] => is_var x; destruct x
  | |- context [color_eqb ?x _] => is_var x; destruct x
  | |- context [nonleaf_color_is ?x _] => is_var x; destruct x
  | |- context [is_double_black ?x] => is_var x; destruct x
  | |- context [is_null ?x] => is_var x; destruct x
  | |- context [set_color ?x _] => is_var x; destruct x
  | |- context [blacken ?x] => is_var x; destruct x
  | |- context [add_black ?x] => is_var x; destruct x
  end.

Ltac run := repeat (inv_rb; simpl; unfold bind; try run_step).


Lemma elim_black_left b l' r nx cl cr n :
  ins_res cl n l' -> is_rb r cr n ->
  exists t' c', RBT_eliminate_red_red (Node b BLACK l' r nx) = Some t' /\ is_rb t' c' (S n) /\ is_node t'.
Proof.
  intros Hl Hr. unfold RBT_eliminate_red_red. inv Hl; run; simpl; eauto 12 with rb.
Qed.

Lemma elim_black_right b l r' nx cl cr n :
  is_rb l cl n -> ins_res cr n r' ->
  exists t' c', RBT_eliminate_red_red (Node b BLACK l r' nx) = Some t' /\ is_rb t' c' (S n) /\ is_node t'.
Proof.
  intros Hl Hr. unfold RBT_eliminate_red_red. inv Hr; run; simpl; eauto 12 with rb.
Qed.

Lemma elim_red_left b l' r nx c' n :
  is_rb l' c' n -> is_rb r BLACK n ->
  RBT_eliminate_red_red (Node b RED l' r nx) = Some (Node b RED l' r nx).
Proof.
  intros Hl Hr. unfold RBT_eliminate_red_red. run; simpl; eauto 12 with rb.
Qed.

Lemma elim_red_right b l r' nx c' n :
  is_rb l BLACK n -> is_rb r' c' n ->
  RBT_eliminate_red_red (Node b RED l r' nx) = Some (Node b RED l r' nx).
Proof.
  intros Hl Hr. unfold RBT_eliminate_red_red. run; simpl; eauto 12 with rb.
Qed.

Lemma add_inner_rb node cap (Hn : is_node node) : forall t c n,
  is_rb t c n ->
  exists t',
    (new <- RBT_add_inner t node cap ;;
     if is_null t then set_color new RED else Some new) = Some t'
    /\ ins_res c n t'.
Proof.
  destruct node as [| |nb nc nl nr nnx]; try contradiction.
  induction 1 as [|b l r nx n Hl IHl Hr IHr|b l r nx cl cr n Hl IHl Hr IHr].
  - simpl. eexists; split; [reflexivity|]. eapply ir_black; simpl; eauto with rb.
  - simpl. destruct (cap =? capacity b).
    + simpl. eexists; split; [reflexivity|]. eapply ir_red; eauto.
    + destruct (cap <? capacity b).
      * destruct IHl as (l' & El & Rl). unfold bind in *.
        destruct (RBT_add_inner l (Node nb nc nl nr nnx) cap); [|discriminate].
        rewrite El. inv Rl.
        erewrite elim_red_left by eauto.
        eexists; split; [reflexivity|]. eapply ir_red; eauto.
      * destruct IHr as (r' & Er & Rr). unfold bind in *.
        destruct (RBT_add_inner r (Node nb nc nl nr nnx) cap); [|discriminate].
        rewrite Er. inv Rr.
        erewrite elim_red_right by eauto.
        eexists; split; [reflexivity|]. eapply ir_red; eauto.
  - simpl. destruct (cap =? capacity b).
    + simpl. eexists; split; [reflexivity|]. eapply ir_black; simpl; eauto with rb.
    + destruct (cap <? capacity b).
      * destruct IHl as (l' & El & Rl). unfold bind in *.
        destruct (RBT_add_inner l (Node nb nc nl nr nnx) cap); [|discriminate].
        rewrite El.
        destruct (elim_black_left b l' r nx _ _ _ Rl Hr) as (t' & c' & E & R & N).
        rewrite E. eexists; split; [reflexivity|]. eapply ir_black; eauto.
      * destruct IHr as (r' & Er & Rr). unfold bind in *.
        destruct (RBT_add_inner r (Node nb nc nl nr nnx) cap); [|discriminate].
        rewrite Er.
        destruct (elim_black_right b l r' nx _ _ _ Hl Rr) as (t' & c' & E & R & N).
        rewrite E. eexists; split; [reflexivity|]. eapply ir_black; eauto.
Qed.

Lemma RBT_add_rb t node cap n :
  is_rb t BLACK n -> is_node node ->
  exists t' n', RBT_add t node cap = Some t' /\ is_rb t' BLACK n' /\ is_node t'.
Proof.
  intros Ht Hn. unfold RBT_add.
  destruct (add_inner_rb node cap Hn t BLACK n Ht) as (t' & E & R).
  destruct node as [| |nb nc nl nr nnx]; try contradiction. simpl is_null. cbv iota.
  destruct t as [| |b c l r nx].
  - simpl. do 2 eexists; split; [reflexivity|]. split; simpl; eauto with rb.
  - inv Ht.
  - simpl is_null in E. unfold bind in *.
    destruct (RBT_add_inner _ _ _); [|discriminate]. inv E.
    inv R. destruct t' as [| |b' c0 l' r' nx']; try contradiction.
    match goal with H : is_rb (Node _ _ _ _ _) _ _ |- _ => inv H end; simpl; do 2 eexists; (split; [reflexivity|]); split; simpl; eauto with rb.
Qed.

#[local] Hint Constructors del_res : rb.
#[local] Hint Extern 1 (_ = BLACK -> _ = BLACK) => (intros _; reflexivity) || (intros; discriminate) || (intros; assumption) : rb.

Ltac inv_dr :=
  repeat match goal with
  | H : del_res _ _ _ |- _ => inv H
  | H : BLACK = BLACK -> _ |- _ => specialize (H eq_refl)
  | H : RED = RED -> _ |- _ => specialize (H eq_refl)
  | H : _ /\ _ |- _ => destruct H
  | H : ?c <> ?c |- _ => destruct (H eq_refl)
  end; subst.

Lemma propagate_fuel_left_black fuel b c l' r nx n :
  is_dbl l' n -> is_rb r BLACK n -> c <> DOUBLE_BLACK ->
  exists t', propagate_fuel (S fuel) (Node b c l' r nx) = Some t'
             /\ del_res c (up c n) t'.
Proof.
  intros Hl Hr Hc. inv Hl; inv Hr; destruct c; try congruence; simpl; run; simpl; eauto 12 with rb.
Qed.

Lemma propagate_fuel_right_black fuel b c l r' nx n :
  is_rb l BLACK n -> is_dbl r' n -> c <> DOUBLE_BLACK ->
  exists t', propagate_fuel (S fuel) (Node b c l r' nx) = Some t'
             /\ del_res c (up c n) t'.
Proof.
  intros Hl Hr Hc. inv Hl; inv Hr; destruct c; try congruence; simpl; run; simpl; eauto 12 with rb.
Qed.

Lemma is_dbl_double_black t n : is_dbl t n -> is_double_black t = true.
Proof. destruct 1; reflexivity. Qed.

Lemma is_rb_not_double_black t c n : is_rb t c n -> is_double_black t = false.
Proof. destruct 1; reflexivity. Qed.

Lemma propagate_fuel_left_red fuel b l' r nx n :
  is_dbl l' n -> is_rb r RED n ->
  exists t', propagate_fuel (S (S fuel)) (Node b BLACK l' r nx) = Some t'
             /\ is_rb t' BLACK (S n).
Proof.
  intros Hl Hr. inv Hr.
  destruct (propagate_fuel_left_black fuel b RED l' l nx n) as (t'' & E & R);
    auto; try discriminate.
  remember (S fuel) as f. simpl.
  rewrite (is_dbl_double_black _ _ Hl). unfold bind. rewrite E.
  inv R; [|discriminate]. eauto with rb.
Qed.

Lemma propagate_fuel_right_red fuel b l r' nx n :
  is_rb l RED n -> is_dbl r' n ->
  exists t', propagate_fuel (S (S fuel)) (Node b BLACK l r' nx) = Some t'
             /\ is_rb t' BLACK (S n).
Proof.
  intros Hl Hr. inv Hl.
  destruct (propagate_fuel_right_black fuel b RED r r' nx n) as (t'' & E & R);
    auto; try discriminate.
  remember (S fuel) as f. simpl.
  rewrite (is_dbl_double_black _ _ Hr). unfold bind. rewrite E.
  inv R; [|discriminate]. eauto with rb.
Qed.


Lemma propagate_unchanged b c l r nx :
  is_double_black l = false -> is_double_black r = false ->
  RBT_propagate_double_blackness (Node b c l r nx) = Some (Node b c l r nx).
Proof.
  intros Hl Hr. unfold RBT_propagate_double_blackness. simpl. rewrite Hl, Hr. reflexivity.
Qed.

Lemma propagate_left b c l' r nx cl cr n :
  del_res cl n l' -> is_rb r cr n ->
  (c = RED -> cl = BLACK /\ cr = BLACK) -> c <> DOUBLE_BLACK ->
  exists t', RBT_propagate_double_blackness (Node b c l' r nx) = Some t'
             /\ del_res c (up c n) t'.
Proof.
  intros Hl Hr Hred Hc. inv Hl.
  - rewrite propagate_unchanged by eauto using is_rb_not_double_black.
    eexists; split; [reflexivity|].
    destruct c; try congruence.
    + eapply dr_rb; simpl; eauto with rb.
    + destruct Hred as [-> ->]; auto. rewrite H0 in H by auto.
      eapply dr_rb; simpl; eauto with rb.
  - unfold RBT_propagate_double_blackness. simpl RBT_size.
    destruct cr.
    + apply propagate_fuel_left_black; auto.
    + destruct c; try congruence; [|destruct Hred; auto; discriminate].
      destruct (propagate_fuel_left_red (RBT_size l' + RBT_size r) b l' r nx n) as (t' & E & R); auto.
      eauto with rb.
    + inv Hr.
Qed.

Lemma propagate_right b c l r' nx cl cr n :
  is_rb l cl n -> del_res cr n r' ->
  (c = RED -> cl = BLACK /\ cr = BLACK) -> c <> DOUBLE_BLACK ->
  exists t', RBT_propagate_double_blackness (Node b c l r' nx) = Some t'
             /\ del_res c (up c n) t'.
Proof.
  intros Hl Hr Hred Hc. inv Hr.
  - rewrite propagate_unchanged by eauto using is_rb_not_double_black.
    eexists; split; [reflexivity|].
    destruct c; try congruence.
    + eapply dr_rb; simpl; eauto with rb.
    + destruct Hred as [-> ->]; auto. rewrite H0 in H by auto.
      eapply dr_rb; simpl; eauto with rb.
  - unfold RBT_propagate_double_blackness. simpl RBT_size.
    destruct cl.
    + apply propagate_fuel_right_black; auto.
    + destruct c; try congruence; [|destruct Hred; auto; discriminate].
      destruct (propagate_fuel_right_red (RBT_size l + RBT_size r') b l r' nx n) as (t' & E & R); auto.
      eauto with rb.
    + inv Hl.
Qed.


Lemma is_rb_color t c n : is_rb t c n -> c <> DOUBLE_BLACK.
Proof. destruct 1; discriminate. Qed.

Lemma is_rb_up b c l r nx n : is_rb (Node b c l r nx) c n ->
  exists cl cr m, is_rb l cl m /\ is_rb r cr m /\ n = up c m /\ (c = RED -> cl = BLACK /\ cr = BLACK).
Proof.
  intros H; inv H; simpl.
  - exists BLACK, BLACK, n. auto.
  - exists cl, cr, n0. repeat split; auto; discriminate.
Qed.

Lemma tree_addrs_node b c l r nx :
  tree_addrs (Node b c l r nx) = tree_addrs l ++ self b :: tree_addrs r.
Proof. unfold tree_addrs. simpl. rewrite map_app. reflexivity. Qed.

Lemma detach_swap_step pb pc sb sc sl sr snx pr pnx :
  is_node sl ->
  detach_swap (Node pb pc (Node sb sc sl sr snx) pr pnx) =
  ('(last, found, swap') <- detach_swap (Node sb sc sl sr snx) ;;
   Some (last, found, Node pb pc swap' pr pnx)).
Proof. destruct sl; simpl; try contradiction; reflexivity. Qed.

Lemma detach_swap_rb : forall R c n,
  is_rb R c n -> is_node R ->
  (match R with Node _ _ sw _ _ => is_node sw | _ => False end) ->
  NoDup (tree_addrs R) ->
  exists last found R' R'',
    detach_swap R = Some (last, found, R')
    /\ RBT_propagate_double_blackness_prevswap last R' = Some R''
    /\ del_res c n R''
    /\ is_node found
    /\ (exists lb lc ll lr lnx, last = Node lb lc ll lr lnx /\ In (self lb) (tree_addrs R)).
Proof.
  induction R as [| |pb pc sw IHS pr _ pnx _]; intros c n HR HN HS ND; try contradiction.
  destruct sw as [| |sb sc sl sr snx]; try contradiction.
  assert (pc = c) by (inv HR; reflexivity). subst pc.
  destruct (is_rb_up _ _ _ _ _ _ HR) as (cl & cr & m & HSrb & Hpr & -> & Hred).
  assert (sc = cl) by (inv HSrb; reflexivity). subst sc.
  rewrite tree_addrs_node in ND.
  destruct sl as [| |slb slc sll slr slnx].
  - (* the loop stops at once *)
    assert (exists prv_left, (if color_eqb cl BLACK then add_black sr else Some sr) = Some prv_left
              /\ del_res cl m prv_left) as (prv_left & E1 & D1).
    { inv HSrb; run; simpl; eauto 10 with rb. }
    destruct (propagate_left pb c prv_left pr pnx cl cr m D1 Hpr Hred (is_rb_color _ _ _ HR))
      as (t' & E2 & D2).
    simpl. unfold bind. rewrite E1. do 4 eexists. split; [reflexivity|].
    simpl. rewrite Z.eqb_refl. split; [exact E2|]. split; [exact D2|]. split; [exact I|].
    exists pb, c, (Node sb cl NULL sr snx), pr, pnx; split; [reflexivity|].
    change (In (self pb) (tree_addrs (Node pb c (Node sb cl NULL sr snx) pr pnx))).
    rewrite tree_addrs_node. apply in_or_app; right; left; reflexivity.
  - exfalso. inv HSrb; inv_rb.
  - assert (NDS : NoDup (tree_addrs (Node sb cl (Node slb slc sll slr slnx) sr snx))).
    { apply NoDup_app_remove_r in ND. exact ND. }
    destruct (IHS cl m HSrb I I NDS) as (last & found & sw' & sw'' & E1 & E2 & D & NF & lb & lc & ll & lr & lnx & -> & Hin).
    destruct (propagate_left pb c sw'' pr pnx cl cr m D Hpr Hred (is_rb_color _ _ _ HR))
      as (t' & E3 & D3).
    rewrite detach_swap_step by exact I.
    remember (Node sb cl (Node slb slc sll slr slnx) sr snx) as S0.
    unfold bind. rewrite E1. do 4 eexists. split; [reflexivity|].
    simpl. 
    assert ((self pb =? self lb) = false) as ->.
    { apply Z.eqb_neq. intros Heq. rewrite <- Heq in Hin.
      apply NoDup_remove_2 in ND. apply ND. apply in_or_app; left; exact Hin. }
    unfold bind. rewrite E2. split; [exact E3|]. split; [exact D3|]. split; [exact NF|].
    exists lb, lc, ll, lr, lnx; split; [reflexivity|].
    change (In (self lb) (tree_addrs (Node pb c S0 pr pnx))).
    rewrite tree_addrs_node. apply in_or_app; left; exact Hin.
Qed.


Lemma remove_empty_root_rb b c l r nx n :
  is_rb (Node b c l r nx) c n ->
  NoDup (tree_addrs (Node b c l r nx)) ->
  exists t', RBT_remove_empty_root (Node b c l r nx) = Some (t', Node b c NULL NULL nx)
             /\ del_res c n t'.
Proof.
  intros HR ND.
  destruct (is_rb_up _ _ _ _ _ _ HR) as (cl & cr & m & Hl & Hr & -> & Hred).
  pose proof (is_rb_color _ _ _ HR) as Hc.
  unfold RBT_remove_empty_root.
  destruct l as [| |lb lc ll lr lnx]; [| inv Hl |].
  - (* no left child *)
    inv Hl. inv Hr; run; simpl; eauto 8 with rb; try congruence.
  - destruct r as [| |rb rc rl rr rnx]; [| inv Hr |].
    + (* no right child *)
      inv Hr. inv Hl; run; simpl; eauto 8 with rb; try congruence.
    + simpl is_null. cbv iota.
      destruct (is_null ll && is_null lr) eqn:Hleaf.
      * (* the left child has no children and takes the place of the root *)
        assert (exists cl', del_res cl' m (if color_eqb lc BLACK then DOUBLE_BLACK_PTR else ll)
                  /\ (c = RED -> cl' = BLACK /\ cr = BLACK)) as (cl' & D & Hred').
        { destruct ll, lr; try discriminate.
          inv Hl; inv_rb; simpl; exists BLACK; (split; [solve [eauto with rb]|]);
            intros Heq; try discriminate Heq; destruct Hred; auto; subst;
            try discriminate; inv_rb; auto. }
        destruct (propagate_left lb c _ _ lnx _ _ _ D Hr Hred' Hc) as (t' & E & R).
        unfold bind. rewrite E. eauto.
      * destruct rl as [| |sb sc sl sr snx].
        -- (* the right child has no left child and takes the place of the root *)
           simpl is_null. cbv iota.
           assert (exists prv_right', (if color_eqb rc BLACK then add_black rr else Some rr) = Some prv_right'
                     /\ del_res cr m prv_right') as (p & E1 & D).
           { inv Hr; inv Hl; run; simpl in *; try discriminate; eauto 8 with rb. }
           destruct (propagate_right rb c _ _ rnx _ _ _ Hl D Hred Hc) as (t' & E & R).
           unfold bind. rewrite E1, E. eauto.
        -- exfalso. inv Hr; inv_rb.
        -- simpl is_null. cbv iota.
           assert (NDr : NoDup (tree_addrs (Node rb rc (Node sb sc sl sr snx) rr rnx))).
           { rewrite tree_addrs_node in ND. apply NoDup_app_remove_l in ND.
             inv ND. assumption. }
           assert (rc = cr) by (inv Hr; reflexivity). subst rc.
           destruct (detach_swap_rb _ _ _ Hr I I NDr)
             as (last & found & R' & R'' & E1 & E2 & D & NF & _).
           destruct found as [| |fb fc fl fr fnx]; try contradiction.
           destruct (propagate_right fb c _ _ fnx _ _ _ Hl D Hred Hc) as (t' & E & R).
           unfold bind. rewrite E1, E2, E. eauto.
Qed.

(** ** Color invariants of the removals *)

Lemma is_rb_next b c l r nx nx' n :
  is_rb (Node b c l r nx) c n -> is_rb (Node b c l r nx') c n.
Proof. intros H; inv H; eauto with rb. Qed.

Lemma is_rb_root_color b c l r nx c' n :
  is_rb (Node b c l r nx) c' n -> c' = c.
Proof. intros H; inv H; reflexivity. Qed.

Lemma chains_ok_node b c l r nx :
  chains_ok (inorder (Node b c l r nx)) ->
  chains_ok (inorder l) /\ chain_ok nx /\ chains_ok (inorder r).
Proof.
  unfold chains_ok. simpl. intros H. apply Forall_app in H.
  destruct H as [H1 H2]. inv H2. auto.
Qed.

Lemma tree_addrs_NoDup_node b c l r nx :
  NoDup (tree_addrs (Node b c l r nx)) ->
  NoDup (tree_addrs l) /\ NoDup (tree_addrs r).
Proof.
  rewrite tree_addrs_node. intros H. split.
  - apply NoDup_app_remove_r in H. exact H.
  - apply NoDup_app_remove_l in H. inv H. assumption.
Qed.

Lemma remove_root_rb b c l r nx n :
  is_rb (Node b c l r nx) c n -> chain_ok nx ->
  NoDup (tree_addrs (Node b c l r nx)) ->
  exists t' x, RBT_remove_root (Node b c l r nx) = Some (t', x)
               /\ is_node x /\ del_res c n t'.
Proof.
  intros HR Hch ND. unfold RBT_remove_root.
  destruct nx as [| |tb tc tl tr tnx]; [| destruct Hch |].
  - destruct (remove_empty_root_rb _ _ _ _ _ _ HR ND) as (t' & E & D).
    rewrite E. do 2 eexists. split; [reflexivity|]. split; [exact I|exact D].
  - do 2 eexists. split; [reflexivity|]. split; [exact I|].
    apply (dr_rb _ _ _ c); [eapply is_rb_next; exact HR|auto].
Qed.

Lemma remove_at_least_inner_rb k : forall t c n,
  is_rb t c n -> chains_ok (inorder t) -> NoDup (tree_addrs t) ->
  exists t' x, RBT_remove_at_least_inner t k = Some (t', x)
               /\ (x = NULL \/ del_res c n t').
Proof.
  induction t as [| |b col l IHl r IHr nx _]; intros c n HR Hch ND.
  - simpl. eauto.
  - inv HR.
  - assert (col = c) by (inv HR; reflexivity). subst col.
    destruct (is_rb_up _ _ _ _ _ _ HR) as (cl & cr & m & Hl & Hr & -> & Hred).
    pose proof (is_rb_color _ _ _ HR) as Hc.
    destruct (chains_ok_node _ _ _ _ _ Hch) as (Cl & Cnx & Cr).
    destruct (tree_addrs_NoDup_node _ _ _ _ _ ND) as (Nl & Nr).
    destruct (remove_root_rb _ _ _ _ _ _ HR Cnx ND) as (t0 & x0 & E0 & N0 & D0).
    simpl. destruct (k =? capacity b).
    + rewrite E0. eauto.
    + destruct (k <? capacity b); unfold bind.
      * destruct (IHl _ _ Hl Cl Nl) as (l' & x & E & D). rewrite E.
        destruct (is_null x) eqn:Hx.
        -- rewrite E0. eauto.
        -- destruct D as [->|D]; [discriminate|].
           destruct (propagate_left b c _ _ nx _ _ _ D Hr Hred Hc) as (t' & E' & D').
           rewrite E'. eauto.
      * destruct (IHr _ _ Hr Cr Nr) as (r' & x & E & D). rewrite E.
        destruct (is_null x) eqn:Hx.
        -- destruct x; try discriminate. eauto.
        -- destruct D as [->|D]; [discriminate|].
           destruct (propagate_right b c _ _ nx _ _ _ Hl D Hred Hc) as (t' & E' & D').
           rewrite E'. eauto.
Qed.

Section RemoveNodeColors.
Variables (nb : block) (nc : color) (nl nr nnx : RBT).
Let node := Node nb nc nl nr nnx.

Lemma remove_from_list_total : forall ch,
  chain_ok ch -> exists ch' x, remove_from_list node ch = Some (ch', x).
Proof.
  induction ch as [| |tb tc tl _ tr _ tnx IH]; simpl; intros H.
  - eauto.
  - destruct H.
  - destruct H as (_ & _ & H). destruct (IH H) as (ch' & x & E).
    destruct (self nb =? self tb); [eauto|]. unfold bind. rewrite E. eauto.
Qed.

Lemma remove_node_root_rb b c l r nx n :
  is_rb (Node b c l r nx) c n -> chain_ok nx ->
  NoDup (tree_addrs (Node b c l r nx)) ->
  exists t' x, RBT_remove_node_root (Node b c l r nx) node = Some (t', x)
               /\ del_res c n t'.
Proof.
  intros HR Hch ND. unfold RBT_remove_node_root. simpl ptr_eqb.
  destruct (self nb =? self b); simpl.
  - destruct nx as [| |xb xc xl xr xnx]; [| destruct Hch |].
    + destruct (remove_empty_root_rb _ _ _ _ _ _ HR ND) as (t' & E & D).
      rewrite E. eauto.
    + do 2 eexists. split; [reflexivity|].
      apply (dr_rb _ _ _ c); [|auto]. inv HR; eauto with rb.
  - destruct (remove_from_list_total nx Hch) as (ch' & x & E).
    fold node. unfold bind. rewrite E. do 2 eexists. split; [reflexivity|].
    apply (dr_rb _ _ _ c); [eapply is_rb_next; exact HR|auto].
Qed.

Lemma remove_node_inner_rb cap : forall t c n,
  is_rb t c n -> chains_ok (inorder t) -> NoDup (tree_addrs t) ->
  exists t' x, RBT_remove_node_inner t node cap = Some (t', x)
               /\ ((x = NULL /\ t' = t) \/ (is_node x /\ del_res c n t')).
Proof.
  induction t as [| |b col l IHl r IHr nx _]; intros c n HR Hch ND.
  - simpl. do 2 eexists. split; [reflexivity|left; auto].
  - inv HR.
  - assert (col = c) by (inv HR; reflexivity). subst col.
    destruct (is_rb_up _ _ _ _ _ _ HR) as (cl & cr & m & Hl & Hr & -> & Hred).
    pose proof (is_rb_color _ _ _ HR) as Hc.
    destruct (chains_ok_node _ _ _ _ _ Hch) as (Cl & Cnx & Cr).
    destruct (tree_addrs_NoDup_node _ _ _ _ _ ND) as (Nl & Nr).
    simpl. destruct (cap =? capacity b).
    + destruct (remove_node_root_rb _ _ _ _ _ _ HR Cnx ND) as (t0 & x0 & E0 & D0).
      fold node. rewrite E0. do 2 eexists. split; [reflexivity|].
      destruct (remove_node_root_spec _ _ _ _ _ _ _ _ _ _ _ _ E0)
        as [(-> & -> & _)|(og & G & _)]; [left; auto|right].
      split; [eapply group_removed_node; eauto|exact D0].
    + destruct (cap <? capacity b); unfold bind.
      * destruct (IHl _ _ Hl Cl Nl) as (l' & x & E & D). rewrite E.
        destruct D as [(-> & ->)|(Nx & D)].
        -- rewrite propagate_unchanged by eauto using is_rb_not_double_black.
           do 2 eexists. split; [reflexivity|left; auto].
        -- destruct (propagate_left b c _ _ nx _ _ _ D Hr Hred Hc) as (t' & E' & D').
           rewrite E'. do 2 eexists. split; [reflexivity|right; auto].
      * destruct (IHr _ _ Hr Cr Nr) as (r' & x & E & D). rewrite E.
        destruct D as [(-> & ->)|(Nx & D)].
        -- rewrite propagate_unchanged by eauto using is_rb_not_double_black.
           do 2 eexists. split; [reflexivity|left; auto].
        -- destruct (propagate_right b c _ _ nx _ _ _ Hl D Hred Hc) as (t' & E' & D').
           rewrite E'. do 2 eexists. split; [reflexivity|right; auto].
Qed.

End RemoveNodeColors.

Lemma finish_root_rb n t' :
  del_res BLACK n t' -> exists n', is_rb (finish_root t') BLACK n'.
Proof.
  intros D. inv D.
  - rewrite (H0 eq_refl) in H. inv H; simpl; eauto with rb.
  - inv H0; simpl; eauto with rb.
Qed.

Lemma finish_root_inorder t : inorder (finish_root t) = inorder t.
Proof. destruct t; reflexivity. Qed.

Lemma finish_root_black t n : is_rb t BLACK n -> finish_root t = t.
Proof. intros H; inv H; reflexivity. Qed.

(** ** The path invariant and the checker *)

Lemma black_counts_nonempty t : black_counts t <> [].
Proof.
  induction t as [| |b c l IHl r _ nx _]; simpl; try discriminate.
  destruct (black_counts l); [contradiction|discriminate].
Qed.

Lemma is_rb_black_counts t c n :
  is_rb t c n -> forall x, In x (black_counts t) -> x = n.
Proof.
  induction 1 as [|b l r nx n Hl IHl Hr IHr|b l r nx cl cr n Hl IHl Hr IHr];
    simpl; intros x Hx.
  - destruct Hx as [<-|[]]. reflexivity.
  - apply in_map_iff in Hx. destruct Hx as (y & <- & Hy).
    apply in_app_or in Hy. destruct Hy; auto.
  - apply in_map_iff in Hx. destruct Hx as (y & <- & Hy).
    apply in_app_or in Hy. destruct Hy; f_equal; auto.
Qed.

Lemma is_rb_no_double_black t c n : is_rb t c n -> no_double_black t.
Proof. induction 1; simpl; repeat split; auto; discriminate. Qed.

Lemma is_rb_not_red t n : is_rb t BLACK n -> ~ is_red t.
Proof. intros H; inv H; simpl; auto. Qed.

Lemma is_rb_no_red_red t c n : is_rb t c n -> no_red_red t.
Proof.
  induction 1; simpl; repeat split; auto; try discriminate;
    eapply is_rb_not_red; eauto.
Qed.

Lemma is_rb_invariant t n : is_rb t BLACK n -> rb_invariant t.
Proof.
  intros H. split; [inv H; simpl; auto|].
  split; [eapply is_rb_no_double_black; eauto|].
  split; [eapply is_rb_no_red_red; eauto|].
  intros x y Hx Hy.
  rewrite (is_rb_black_counts _ _ _ H _ Hx), (is_rb_black_counts _ _ _ H _ Hy).
  reflexivity.
Qed.

Lemma same_black_count_node b c l r nx :
  same_black_count (Node b c l r nx) ->
  same_black_count l /\ same_black_count r
  /\ forall x y, In x (black_counts l) -> In y (black_counts r) -> x = y.
Proof.
  unfold same_black_count. simpl. intros H.
  assert (Hinj : forall x y, In x (black_counts l ++ black_counts r) ->
                             In y (black_counts l ++ black_counts r) -> x = y).
  { intros x y Hx Hy.
    pose proof (H _ _ (in_map _ _ _ Hx) (in_map _ _ _ Hy)) as E.
    destruct (color_eqb c BLACK); congruence. }
  repeat split; intros x y Hx Hy; apply Hinj; apply in_or_app; auto.
Qed.

Lemma invariant_is_rb t :
  no_double_black t -> no_red_red t -> same_black_count t ->
  exists c n, is_rb t c n.
Proof.
  induction t as [| |b c l IHl r IHr nx _]; simpl; intros ND RR SB.
  - eauto with rb.
  - destruct ND.
  - destruct ND as (Hc & NDl & NDr). destruct RR as (Hred & RRl & RRr).
    destruct (same_black_count_node _ _ _ _ _ SB) as (SBl & SBr & Heq).
    destruct (IHl NDl RRl SBl) as (cl & nl & Hl).
    destruct (IHr NDr RRr SBr) as (cr & nr & Hr).
    assert (nl = nr).
    { destruct (black_counts l) as [|x xs] eqn:El; [exfalso; eapply black_counts_nonempty; eauto|].
      destruct (black_counts r) as [|y ys] eqn:Er; [exfalso; eapply black_counts_nonempty; eauto|].
      assert (x = nl) by (eapply is_rb_black_counts; [exact Hl|rewrite El; left; reflexivity]).
      assert (y = nr) by (eapply is_rb_black_counts; [exact Hr|rewrite Er; left; reflexivity]).
      subst. apply Heq; left; reflexivity. }
    subst nr. destruct c; [eauto with rb| |congruence].
    destruct (Hred eq_refl) as [Rl Rr].
    assert (cl = BLACK) by (inv Hl; simpl in Rl; tauto).
    assert (cr = BLACK) by (inv Hr; simpl in Rr; tauto).
    subst. eauto with rb.
Qed.

Lemma black_height_node b c lb lc ll lr lnx r nx :
  RBT_black_height (Node b c (Node lb lc ll lr lnx) r nx)
  = (h <- RBT_black_height (Node lb lc ll lr lnx) ;;
     if color_eqb lc BLACK then Some (1 + h) else Some h).
Proof. reflexivity. Qed.

(** [RBT_black_height] on a red-black tree: the BLACK nodes below the root
    and the leaf. *)
Lemma black_height_is_rb t c n :
  is_rb t c n ->
  RBT_black_height t
  = Some (Z.of_nat n + (if color_eqb c RED then 1 else 0)).
Proof.
  induction 1 as [|b l r nx n Hl IHl Hr IHr|b l r nx cl cr n Hl IHl Hr IHr].
  - reflexivity.
  - destruct l as [| |lb lc ll lr lnx].
    + inv Hl. reflexivity.
    + inv Hl.
    + rewrite black_height_node, IHl. inv Hl. cbn [bind color_eqb]. apply f_equal. lia.
  - destruct l as [| |lb lc ll lr lnx].
    + inv Hl. reflexivity.
    + inv Hl.
    + rewrite black_height_node, IHl. inv Hl; cbn [bind color_eqb]; apply f_equal; lia.
Qed.

Lemma leaf_or_color_black t c n :
  is_rb t c n -> leaf_or_color_is t BLACK = Some (color_eqb c BLACK).
Proof. destruct 1; reflexivity. Qed.

Lemma is_rb_checkers t c n :
  is_rb t c n ->
  RBT_double_blackness_ok t = true /\ RBT_red_red_ok t = true
  /\ RBT_black_height_ok t = true.
Proof.
  induction 1 as [|b l r nx n Hl (D1 & R1 & B1) Hr (D2 & R2 & B2)
                  |b l r nx cl cr n Hl (D1 & R1 & B1) Hr (D2 & R2 & B2)]; simpl.
  - auto.
  - rewrite D1, D2, R1, R2, B1, B2.
    rewrite (black_height_is_rb _ _ _ Hl), (black_height_is_rb _ _ _ Hr).
    rewrite (leaf_or_color_black _ _ _ Hl), (leaf_or_color_black _ _ _ Hr).
    simpl. rewrite Z.eqb_refl. auto.
  - rewrite D1, D2, R1, R2, B1, B2.
    rewrite (black_height_is_rb _ _ _ Hl), (black_height_is_rb _ _ _ Hr).
    rewrite (leaf_or_color_black _ _ _ Hl), (leaf_or_color_black _ _ _ Hr).
    assert ((if color_eqb cl BLACK
             then Z.of_nat n + (if color_eqb cl RED then 1 else 0) + 1
             else Z.of_nat n + (if color_eqb cl RED then 1 else 0))
            = Z.of_nat n + 1) as -> by (inv Hl; simpl; lia).
    assert ((if color_eqb cr BLACK
             then Z.of_nat n + (if color_eqb cr RED then 1 else 0) + 1
             else Z.of_nat n + (if color_eqb cr RED then 1 else 0))
            = Z.of_nat n + 1) as -> by (inv Hr; simpl; lia).
    rewrite Z.eqb_refl. auto.
Qed.

Lemma is_rb_rep_ok t n : is_rb t BLACK n -> RBT_rep_ok t = true.
Proof.
  intros H. destruct (is_rb_checkers _ _ _ H) as (D & R & B).
  inv H; [reflexivity|]. unfold RBT_rep_ok. rewrite D, R, B. reflexivity.
Qed.

(** [well_formed], taken apart and put together. *)
Lemma well_formed_parts t :
  well_formed t ->
  (exists n, is_rb t BLACK n) /\ chains_ok (inorder t) /\ NoDup (addrs t).
Proof.
  intros ((RB & ND & RR & SB) & Hch & Hnd).
  split; [|auto].
  destruct (invariant_is_rb t ND RR SB) as (c & n & H).
  exists n. inv H; simpl in RB; try congruence; eauto with rb.
Qed.

Lemma well_formed_intro t n :
  is_rb t BLACK n -> chains_ok (inorder t) -> NoDup (addrs t) -> well_formed t.
Proof.
  intros H Hch Hnd. split; [eapply is_rb_invariant; exact H|auto].
Qed.


(** ** The invariant is kept by the public operations *)

Lemma tree_addrs_sub gs a :
  In a (map (fun g => self (fst g)) gs) -> In a (map self (blocks_of gs)).
Proof.
  induction gs as [|g gs IH]; simpl; [tauto|].
  intros [<-|H]; [left; reflexivity|].
  right. rewrite map_app. apply in_or_app. right. apply IH. exact H.
Qed.

Lemma addrs_tree_addrs_NoDup gs :
  NoDup (map self (blocks_of gs)) -> NoDup (map (fun g => self (fst g)) gs).
Proof.
  induction gs as [|g gs IH]; simpl; intros H; [constructor|].
  inv H. rewrite map_app in *. constructor.
  - intros Hin. apply H2. apply in_or_app. right. apply tree_addrs_sub. exact Hin.
  - apply IH. apply NoDup_app_remove_l in H3. exact H3.
Qed.

Lemma well_formed_tree_addrs t : NoDup (addrs t) -> NoDup (tree_addrs t).
Proof. apply addrs_tree_addrs_NoDup. Qed.

Lemma NoDup_map_remove (l1 l2 : list block) x :
  NoDup (map self (l1 ++ x :: l2)) ->
  NoDup (map self (l1 ++ l2)) /\ ~ In (self x) (map self (l1 ++ l2)).
Proof.
  rewrite !map_app. simpl. intros H. split.
  - eapply NoDup_remove_1; eauto.
  - eapply NoDup_remove_2; eauto.
Qed.

(** What every successful removal leaves behind. *)
Lemma removal_facts t t' g1 g g2 x og :
  chains_ok (inorder t) -> NoDup (addrs t) ->
  inorder t = g1 ++ g :: g2 -> group_removed g x og ->
  inorder t' = g1 ++ og ++ g2 ->
  chains_ok (inorder t') /\ NoDup (addrs t')
  /\ exists bx cx l1 l2,
       x = Node bx cx NULL NULL NULL
       /\ blocks t = l1 ++ bx :: l2 /\ blocks t' = l1 ++ l2
       /\ ~ In (self bx) (addrs t').
Proof.
  intros Hch ND Hi G Hi'. unfold addrs, blocks in *. rewrite Hi in *. rewrite Hi'.
  destruct (removed_chains_ok _ _ _ _ _ G Hch) as (Hch' & bx & cx & ->).
  destruct (removed_blocks g1 g g2 _ _ G) as (bx' & l1 & l2 & E1 & E2 & E3).
  simpl in E1. inv E1. rewrite E2 in ND. rewrite E3.
  destruct (NoDup_map_remove _ _ _ ND) as [N1 N2].
  split; [exact Hch'|]. split; [exact N1|].
  exists bx', cx, l1, l2. auto.
Qed.

Theorem RBT_remove_at_least_well_formed t k cell :
  well_formed t ->
  exists t' x,
    RBT_remove_at_least t k (Some cell) = Some (t', Some x)
    /\ well_formed t'
    /\ ((x = NULL /\ t' = t
         /\ (keys_sorted (inorder t) -> Forall (fun g => key g < k) (inorder t)))
        \/ (exists g1 g g2 og,
              inorder t = g1 ++ g :: g2 /\ group_removed g x og
              /\ inorder t' = g1 ++ og ++ g2
              /\ (keys_sorted (inorder t) ->
                  Forall (fun h => key h < k) g1 /\ k <= key g))).
Proof.
  intros WF. destruct (well_formed_parts _ WF) as ((n & HR) & Hch & ND).
  destruct (remove_at_least_inner_rb k _ _ _ HR Hch (well_formed_tree_addrs _ ND))
    as (t1 & x & E & D).
  unfold RBT_remove_at_least, bind. rewrite E.
  do 2 eexists. split; [reflexivity|].
  destruct (remove_at_least_inner_inorder _ _ _ _ E)
    as [(-> & -> & Hall)|(g1 & g & g2 & og & Hi & G & Hi' & Hpos)].
  - rewrite (finish_root_black _ _ HR). split; [exact WF|left; auto].
  - destruct D as [->|D]; [apply group_removed_node in G; destruct G|].
    assert (Hi'' : inorder (finish_root t1) = g1 ++ og ++ g2)
      by (rewrite finish_root_inorder; exact Hi').
    destruct (removal_facts _ _ _ _ _ _ _ Hch ND Hi G Hi'') as (C' & N' & _).
    split; [|right; exists g1, g, g2, og; auto].
    destruct (finish_root_rb _ _ D) as (n' & HR').
    eapply well_formed_intro; eauto.
Qed.

Theorem RBT_remove_node_well_formed t nb nc nl nr nnx cell :
  well_formed t ->
  exists t' x,
    RBT_remove_node t (Node nb nc nl nr nnx) (Some cell) = Some (t', Some x)
    /\ well_formed t'
    /\ ((x = NULL /\ t' = t
         /\ (ordered (inorder t) ->
             Forall (fun b => capacity b = capacity nb -> self b <> self nb) (blocks t)))
        \/ (exists g1 g g2 og,
              inorder t = g1 ++ g :: g2 /\ group_removed g x og
              /\ inorder t' = g1 ++ og ++ g2
              /\ ptr_eqb (Node nb nc nl nr nnx) x = true)).
Proof.
  intros WF. destruct (well_formed_parts _ WF) as ((n & HR) & Hch & ND).
  destruct (remove_node_inner_rb nb nc nl nr nnx (capacity nb) _ _ _ HR Hch
              (well_formed_tree_addrs _ ND)) as (t1 & x & E & D).
  unfold RBT_remove_node, bind. rewrite E.
  do 2 eexists. split; [reflexivity|].
  destruct (remove_node_inner_spec _ _ _ _ _ _ _ _ _ E)
    as [(-> & Hi & Habs)|(g1 & g & g2 & og & Hi & G & Hi' & P)].
  - destruct D as [(_ & ->)|(Nx & _)]; [|destruct Nx].
    rewrite (finish_root_black _ _ HR). split; [exact WF|left; auto].
  - destruct D as [(-> & _)|(_ & D)]; [apply group_removed_node in G; destruct G|].
    assert (Hi'' : inorder (finish_root t1) = g1 ++ og ++ g2)
      by (rewrite finish_root_inorder; exact Hi').
    destruct (removal_facts _ _ _ _ _ _ _ Hch ND Hi G Hi'') as (C' & N' & _).
    split; [|right; exists g1, g, g2, og; auto].
    destruct (finish_root_rb _ _ D) as (n0 & HR').
    eapply well_formed_intro; eauto.
Qed.

Lemma blocks_of_insert g1 g2 (nb' : block) :
  Permutation (blocks_of (g1 ++ (nb', NULL) :: g2)) (nb' :: blocks_of (g1 ++ g2)).
Proof.
  rewrite !blocks_of_app. simpl. symmetry. apply Permutation_middle.
Qed.

Lemma blocks_of_push g1 g2 b ch (nb' : block) c :
  Permutation (blocks_of (g1 ++ (b, Node nb' c NULL NULL ch) :: g2))
              (nb' :: blocks_of (g1 ++ (b, ch) :: g2)).
Proof.
  rewrite !blocks_of_app. simpl.
  rewrite (Permutation_middle (blocks_of g1) _ nb').
  apply Permutation_app_head. unfold group_blocks. simpl. apply perm_swap.
Qed.

Theorem RBT_add_well_formed t nb nc nl nr nnx cap :
  well_formed t -> ~ In (self nb) (addrs t) ->
  exists t',
    RBT_add t (Node nb nc nl nr nnx) cap = Some t'
    /\ well_formed t' /\ is_node t'
    /\ Permutation (blocks t')
         (mkBlock (self nb) (store_capacity cap) 0 false :: blocks t).
Proof.
  intros WF Hfresh. destruct (well_formed_parts _ WF) as ((n & HR) & Hch & ND).
  destruct (RBT_add_rb t (Node nb nc nl nr nnx) cap n HR I) as (t' & n' & E & HR' & N').
  exists t'. split; [exact E|].
  unfold RBT_add in E. simpl is_null in E. cbv iota in E. unfold bind in E.
  destruct (RBT_add_inner t (Node nb nc nl nr nnx) cap) as [t1|] eqn:E1; [|discriminate].
  apply set_color_inorder in E.
  set (nb' := mkBlock (self nb) (store_capacity cap) 0 false).
  assert (HP : Permutation (blocks t') (nb' :: blocks t) /\ chains_ok (inorder t')).
  { unfold blocks, chains_ok. rewrite E.
    destruct (add_inner_inorder _ _ _ _ _ _ _ _ E1)
      as [(g1 & g2 & Hi & Hi' & _)|(g1 & b & ch & g2 & Hi & Hi' & _)];
      rewrite Hi'; unfold chains_ok in Hch; rewrite Hi in *.
    - split; [apply blocks_of_insert|].
      apply Forall_app in Hch. destruct Hch as [C1 C2].
      apply Forall_app; split; [exact C1|]. constructor; [exact I|exact C2].
    - split; [apply blocks_of_push|].
      apply Forall_app in Hch. destruct Hch as [C1 C2]. inv C2.
      apply Forall_app; split; [exact C1|]. constructor; [simpl; auto|assumption]. }
  destruct HP as [HP HC].
  split; [|split; [exact N'|exact HP]].
  apply (well_formed_intro t' n'); [exact HR'|exact HC|].
  unfold addrs. eapply Permutation_NoDup; [symmetry; apply Permutation_map; exact HP|].
  simpl. constructor; assumption.
Qed.

Lemma well_formed_invariant t :
  well_formed t -> rb_invariant t /\ RBT_rep_ok t = true.
Proof.
  intros WF. split; [exact (proj1 WF)|].
  destruct (well_formed_parts _ WF) as ((n & H) & _). eapply is_rb_rep_ok; eauto.
Qed.

Lemma well_formed_empty : well_formed NULL.
Proof. apply (well_formed_intro NULL O); constructor. Qed.

(** ** Every operation keeps the invariant *)

Lemma step_well_formed t o :
  well_formed t -> allowed t o ->
  exists t', step t o = Some t' /\ well_formed t'.
Proof.
  intros WF A. destruct o as [node cap|cap removed|node removed]; simpl in *.
  - destruct node as [| |nb nc nl nr nnx]; [exists t; auto|destruct A|].
    destruct (RBT_add_well_formed t nb nc nl nr nnx cap WF A) as (t' & E & W & _).
    eauto.
  - destruct removed as [cell|]; [|exists t; auto].
    destruct (RBT_remove_at_least_well_formed t cap cell WF) as (t' & x & E & W & _).
    rewrite E. simpl. eauto.
  - destruct removed as [cell|]; [|exists t; auto].
    destruct node as [| |nb nc nl nr nnx]; [exists t; auto|congruence|].
    destruct (RBT_remove_node_well_formed t nb nc nl nr nnx cell WF) as (t' & x & E & W & _).
    rewrite E. simpl. eauto.
Qed.

Lemma run_well_formed ops : forall t,
  well_formed t -> allowed_run t ops ->
  exists roots, run t ops = Some roots
                /\ length roots = length ops /\ Forall well_formed roots.
Proof.
  induction ops as [|o ops IH]; simpl; intros t WF A.
  - exists []. auto.
  - destruct A as [A1 A2].
    destruct (step_well_formed t o WF A1) as (t' & E & W).
    destruct (IH t' W (A2 t' E)) as (roots & E' & L & F).
    unfold bind. rewrite E, E'. exists (t' :: roots). simpl. auto.
Qed.

(** C1. Starting from the empty tree, every sequence of [RBT_add],
    [RBT_remove_at_least] and [RBT_remove_node] calls (storage passed to
    [RBT_add] not being in the tree already) runs to completion, and every
    root returned is BLACK or empty, has no doubly-black node or sentinel, no
    RED node with a RED child, and the same number of BLACK nodes on every
    path from the root to a leaf; [RBT_rep_ok] accepts each of them. *)
Theorem invariant_closure ops :
  allowed_run NULL ops ->
  exists roots,
    run NULL ops = Some roots
    /\ length roots = length ops
    /\ Forall (fun root => rb_invariant root /\ RBT_rep_ok root = true) roots.
Proof.
  intros A.
  destruct (run_well_formed ops NULL well_formed_empty A) as (roots & E & L & F).
  exists roots. split; [exact E|]. split; [exact L|].
  eapply Forall_impl; [|exact F]. apply well_formed_invariant.
Qed.

(** ** Best fit *)

Lemma unlinked_member ch x ch' bx :
  unlinked ch x ch' -> node_block x = [bx] -> In bx (chain_blocks ch).
Proof.
  intros U E. destruct (unlinked_blocks _ _ _ U) as (b' & l1 & l2 & E1 & E2 & _).
  rewrite E in E1. inv E1. rewrite E2. apply in_or_app. right. left. reflexivity.
Qed.

Lemma group_removed_capacity g x og bx :
  group_removed g x og -> bucket_keys_ok g -> node_block x = [bx] ->
  capacity bx = key g.
Proof.
  destruct 1 as [b c|b c xb xc xl xr xnx|b ch x ch' U]; intros Hk E.
  - inv E. reflexivity.
  - inv E. reflexivity.
  - unfold bucket_keys_ok in Hk. rewrite Forall_forall in Hk.
    apply Hk. simpl. eapply unlinked_member; eauto.
Qed.

Lemma ordered_split g1 g g2 :
  ordered (g1 ++ g :: g2) ->
  Forall bucket_keys_ok g1 /\ bucket_keys_ok g /\ Forall bucket_keys_ok g2
  /\ Forall (fun h => key h < key g) g1 /\ Forall (fun h => key g < key h) g2.
Proof.
  intros [S F]. apply Forall_app in F. destruct F as [F1 F2]. inv F2.
  unfold keys_sorted in S. rewrite map_app in S. simpl in S.
  apply sorted_app_inv in S. destruct S as (_ & _ & S1 & S2).
  rewrite Forall_map in S1, S2. auto 10.
Qed.

(** C2. On a well-formed tree whose keys are in order, [RBT_remove_at_least]
    with a non-NULL out-parameter stores NULL exactly when no stored node
    (tree node or bucket member) has capacity at least [k], and then returns
    the tree untouched; otherwise it stores a detached node whose capacity is
    the least stored capacity that is at least [k], and the returned tree
    holds exactly the other nodes and is again well-formed and in order. *)
Theorem best_fit_removal t k cell :
  well_formed t -> ordered (inorder t) ->
  exists t' x,
    RBT_remove_at_least t k (Some cell) = Some (t', Some x)
    /\ well_formed t' /\ ordered (inorder t') /\ rb_invariant t'
    /\ (x = NULL <-> Forall (fun b => capacity b < k) (blocks t))
    /\ (x = NULL -> t' = t)
    /\ (x <> NULL ->
        exists bx cx l1 l2,
          x = Node bx cx NULL NULL NULL
          /\ k <= capacity bx
          /\ Forall (fun b => k <= capacity b -> capacity bx <= capacity b) (blocks t)
          /\ blocks t = l1 ++ bx :: l2 /\ blocks t' = l1 ++ l2).
Proof.
  intros WF Ho.
  destruct (RBT_remove_at_least_well_formed t k cell WF)
    as (t' & x & E & WF' & [(-> & -> & Hall)|(g1 & g & g2 & og & Hi & G & Hi' & Hpos)]).
  - exists t, NULL. split; [exact E|]. split; [exact WF'|]. split; [exact Ho|].
    split; [apply well_formed_invariant; exact WF'|].
    assert (Forall (fun b => capacity b < k) (blocks t)) as Hlt.
    { destruct Ho as [S F]. apply (blocks_of_capacity (fun z => z < k)); auto. }
    split; [tauto|]. split; [auto|congruence].
  - exists t', x. split; [exact E|]. split; [exact WF'|].
    destruct (well_formed_parts _ WF) as (_ & Hch & ND).
    destruct (removal_facts _ _ _ _ _ _ _ Hch ND Hi G Hi')
      as (_ & _ & bx & cx & l1 & l2 & -> & B & B' & _).
    destruct (Hpos (proj1 Ho)) as [P1 P2].
    pose proof Ho as Ho1. rewrite Hi in Ho1.
    destruct (ordered_split _ _ _ Ho1) as (F1 & Fg & F2 & S1 & S2).
    pose proof (group_removed_capacity _ _ _ bx G Fg eq_refl) as Hcap.
    assert (Hin : In bx (blocks t)) by (rewrite B; apply in_or_app; right; left; reflexivity).
    split; [rewrite Hi'; eapply removed_ordered; eauto|].
    split; [apply well_formed_invariant; exact WF'|].
    split; [|split; [discriminate|]].
    + split; [discriminate|]. intros Hall. exfalso.
      rewrite Forall_forall in Hall. specialize (Hall _ Hin). lia.
    + intros _. exists bx, cx, l1, l2. split; [reflexivity|]. split; [lia|].
      split; [|auto].
      unfold blocks. rewrite Hi, blocks_of_app.
      change (blocks_of (g :: g2)) with (group_blocks g ++ blocks_of g2).
      apply Forall_app; split; [|apply Forall_app; split].
      * pose proof (blocks_of_capacity (fun z => z < k) _ F1 P1) as Hc.
        eapply Forall_impl; [|exact Hc]. simpl. intros; lia.
      * unfold group_blocks. constructor; [unfold key in *; intros; lia|].
        eapply Forall_impl; [|exact Fg]. simpl. intros; lia.
      * pose proof (blocks_of_capacity (fun z => key g < z) _ F2 S2) as Hc.
        eapply Forall_impl; [|exact Hc]. simpl. intros; lia.
Qed.

(** ** Removal by identity *)

(** C3. On a well-formed tree whose keys are in order, [RBT_remove_node] with
    a non-NULL out-parameter and a handle whose [capacity] field is the one
    the tree holds for that address stores the node of that address when it
    is stored in the tree (as a tree node or as a bucket member), detached,
    and returns a well-formed tree holding exactly the other nodes; it stores
    NULL and returns the tree itself when the address is not in the tree. *)
Theorem identity_removal t nb nc nl nr nnx cell :
  well_formed t -> ordered (inorder t) ->
  (forall b, In b (blocks t) -> self b = self nb -> capacity b = capacity nb) ->
  exists t' x,
    RBT_remove_node t (Node nb nc nl nr nnx) (Some cell) = Some (t', Some x)
    /\ well_formed t' /\ ordered (inorder t') /\ rb_invariant t'
    /\ (ptr_eqb (Node nb nc nl nr nnx) x = true <-> In (self nb) (addrs t))
    /\ (In (self nb) (addrs t) ->
        exists bx cx l1 l2,
          x = Node bx cx NULL NULL NULL /\ self bx = self nb
          /\ blocks t = l1 ++ bx :: l2 /\ blocks t' = l1 ++ l2)
    /\ (~ In (self nb) (addrs t) -> x = NULL /\ t' = t).
Proof.
  intros WF Ho Hcoh.
  destruct (RBT_remove_node_well_formed t nb nc nl nr nnx cell WF)
    as (t' & x & E & WF' & [(-> & -> & Habs)|(g1 & g & g2 & og & Hi & G & Hi' & P)]).
  - exists t, NULL. split; [exact E|]. split; [exact WF'|]. split; [exact Ho|].
    split; [apply well_formed_invariant; exact WF'|].
    assert (Hnot : ~ In (self nb) (addrs t)).
    { intros Hin. unfold addrs in Hin. apply in_map_iff in Hin.
      destruct Hin as (b & Hs & Hb).
      specialize (Habs Ho). rewrite Forall_forall in Habs.
      apply (Habs _ Hb); auto. }
    split; [simpl; split; [discriminate|intros; contradiction]|].
    split; [intros; contradiction|auto].
  - exists t', x. split; [exact E|]. split; [exact WF'|].
    destruct (well_formed_parts _ WF) as (_ & Hch & ND).
    destruct (removal_facts _ _ _ _ _ _ _ Hch ND Hi G Hi')
      as (_ & _ & bx & cx & l1 & l2 & -> & B & B' & _).
    simpl in P. apply Z.eqb_eq in P.
    assert (Hin : In (self nb) (addrs t)).
    { unfold addrs. rewrite B, P. apply in_map. apply in_or_app. right. left. reflexivity. }
    split; [rewrite Hi'; rewrite Hi in Ho; eapply removed_ordered; eauto|].
    split; [apply well_formed_invariant; exact WF'|].
    split; [simpl; split; [intros _; exact Hin|intros _; apply Z.eqb_eq; exact P]|].
    split; [|intros Hnot; destruct (Hnot Hin)].
    intros _. exists bx, cx, l1, l2. auto.
Qed.

(** ** The removed node is detached *)

Lemma root_in_addrs b c l r nx : In (self b) (addrs (Node b c l r nx)).
Proof.
  unfold addrs. rewrite blocks_node, !map_app. apply in_or_app. right.
  left. reflexivity.
Qed.

Lemma not_in_addrs_not_root bx cx t' :
  ~ In (self bx) (addrs t') -> ptr_eqb (Node bx cx NULL NULL NULL) t' = false.
Proof.
  destruct t' as [| |b c l r nx]; simpl; auto. intros H.
  apply Z.eqb_neq. intros Heq. apply H. rewrite Heq. apply root_in_addrs.
Qed.

(** C8. Whenever [RBT_remove_at_least] or [RBT_remove_node] stores a node in
    the out-parameter, its [left], [right] and [next] pointers are NULL and
    it is not the root that the operation returns. *)
Theorem removed_is_detached t :
  well_formed t ->
  (forall k cell t' x,
      RBT_remove_at_least t k (Some cell) = Some (t', Some x) -> x <> NULL ->
      (exists bx cx, x = Node bx cx NULL NULL NULL) /\ ptr_eqb x t' = false)
  /\ (forall node cell t' x,
        RBT_remove_node t node (Some cell) = Some (t', Some x) -> x <> NULL ->
        (exists bx cx, x = Node bx cx NULL NULL NULL) /\ ptr_eqb x t' = false).
Proof.
  intros WF. split.
  - intros k cell t' x E Hx.
    destruct (RBT_remove_at_least_well_formed t k cell WF)
      as (t0 & x0 & E0 & WF' & [(-> & _)|(g1 & g & g2 & og & Hi & G & Hi' & _)]);
      rewrite E in E0; inv E0; [congruence|].
    destruct (well_formed_parts _ WF) as (_ & Hch & ND).
    destruct (removal_facts _ _ _ _ _ _ _ Hch ND Hi G Hi')
      as (_ & _ & bx & cx & l1 & l2 & -> & _ & _ & Hnot).
    split; [eauto|]. apply not_in_addrs_not_root. exact Hnot.
  - intros node cell t' x E Hx.
    destruct node as [| |nb nc nl nr nnx]; simpl in E; [inv E; congruence|discriminate|].
    destruct (RBT_remove_node_well_formed t nb nc nl nr nnx cell WF)
      as (t0 & x0 & E0 & WF' & [(-> & _)|(g1 & g & g2 & og & Hi & G & Hi' & _)]);
      unfold RBT_remove_node in E0; rewrite E in E0; inv E0; [congruence|].
    destruct (well_formed_parts _ WF) as (_ & Hch & ND).
    destruct (removal_facts _ _ _ _ _ _ _ Hch ND Hi G Hi')
      as (_ & _ & bx & cx & l1 & l2 & -> & _ & _ & Hnot).
    split; [eauto|]. apply not_in_addrs_not_root. exact Hnot.
Qed.

(** ** Deficiencies *)

Lemma is_rb_weights t c n :
  is_rb t c n -> forall x, In x (path_weights t) -> x = n.
Proof.
  induction 1 as [|b l r nx n Hl IHl Hr IHr|b l r nx cl cr n Hl IHl Hr IHr];
    intros x Hx; simpl in Hx.
  - destruct Hx as [<-|[]]. reflexivity.
  - apply in_map_iff in Hx. destruct Hx as (y & <- & Hy).
    apply in_app_or in Hy. destruct Hy as [Hy|Hy]; [apply IHl|apply IHr]; exact Hy.
  - apply in_map_iff in Hx. destruct Hx as (y & <- & Hy). apply f_equal.
    apply in_app_or in Hy. destruct Hy as [Hy|Hy]; [apply IHl|apply IHr]; exact Hy.
Qed.

Lemma is_dbl_weights t n :
  is_dbl t n -> forall x, In x (path_weights t) -> x = n.
Proof.
  intros H x Hx. inv H; simpl in Hx.
  - destruct Hx as [<-|[]]. reflexivity.
  - apply in_map_iff in Hx. destruct Hx as (y & <- & Hy). do 2 apply f_equal.
    apply in_app_or in Hy.
    destruct Hy as [Hy|Hy];
      match goal with
      | Hl : is_rb ?l _ _, Hin : In _ (path_weights ?l) |- _ =>
          exact (is_rb_weights _ _ _ Hl _ Hin)
      end.
Qed.

Lemma del_res_weights c n t' :
  del_res c n t' -> forall x, In x (path_weights t') -> x = n.
Proof.
  intros [c' HR _|_ HD]; [eapply is_rb_weights|eapply is_dbl_weights]; eauto.
Qed.

Lemma no_double_black_only_root t : no_double_black t -> double_black_only_root t.
Proof. destruct t as [| |b c l r nx]; simpl; tauto. Qed.

Lemma del_res_only_root c n t' :
  del_res c n t' ->
  double_black_only_root t' /\ (c = RED -> no_double_black t').
Proof.
  intros [c' HR _|Hc HD].
  - pose proof (is_rb_no_double_black _ _ _ HR) as H.
    split; [apply no_double_black_only_root; exact H|intros _; exact H].
  - split; [|intros ->; discriminate].
    inv HD; simpl; eauto using is_rb_no_double_black.
Qed.

(** The walk of [RBT_propagate_double_blackness_prevswap], which goes down
    the left links until it meets the address of [prevswap], is the walk up
    from the place of the leftmost node. *)
Lemma prevswap_without_leftmost : forall R last found R',
  detach_swap R = Some (last, found, R') ->
  NoDup (tree_addrs R) ->
  RBT_propagate_double_blackness_prevswap last R' = without_leftmost R
  /\ exists lb lc ll lr lnx,
       last = Node lb lc ll lr lnx /\ In (self lb) (tree_addrs R).
Proof.
  induction R as [| |pb pc sw IHsw pr _ pnx _]; intros last found R' H ND;
    simpl in H; try discriminate.
  destruct sw as [| |sb sc sl sr snx]; try discriminate.
  destruct (is_null sl) eqn:Hsl.
  - destruct sl; try discriminate. unfold bind in H.
    destruct (if color_eqb sc BLACK then add_black sr else Some sr) as [prv_left|] eqn:E;
      [|discriminate].
    inv H. split.
    + cbn [RBT_propagate_double_blackness_prevswap ptr_eqb self].
      rewrite Z.eqb_refl.
      cbn [without_leftmost]. unfold take_place. rewrite E. reflexivity.
    + do 5 eexists. split; [reflexivity|].
      rewrite tree_addrs_node. apply in_or_app. right. left. reflexivity.
  - unfold bind in H.
    destruct (detach_swap (Node sb sc sl sr snx)) as [[[last0 found0] sw']|] eqn:E;
      [|discriminate].
    inv H. rewrite tree_addrs_node in ND.
    assert (NDsw : NoDup (tree_addrs (Node sb sc sl sr snx))).
    { apply NoDup_app_remove_r in ND. exact ND. }
    destruct (IHsw _ _ _ eq_refl NDsw) as (Hp & lb & lc & ll & lr & lnx & -> & Hin).
    split.
    + cbn [RBT_propagate_double_blackness_prevswap ptr_eqb].
      assert (Hne : self pb <> self lb).
      { intros Heq. apply NoDup_remove_2 in ND. apply ND.
        apply in_or_app. left. rewrite Heq. exact Hin. }
      apply Z.eqb_neq in Hne. rewrite Hne. rewrite Hp.
      destruct sl as [| |slb slc sll slr slnx]; try discriminate. reflexivity.
    + do 5 eexists. split; [reflexivity|].
      rewrite (tree_addrs_node pb). apply in_or_app. left. exact Hin.
Qed.

(** ** The removals do not look at the payload *)

Section Payload.
Variable f : block -> block.
Hypothesis f_self : keeps_self f.
Hypothesis f_capacity : forall b, capacity (f b) = capacity b.

Lemma map_blocks_size t : RBT_size (map_blocks f t) = RBT_size t.
Proof. induction t; simpl; auto. Qed.

Lemma map_blocks_ptr_eqb a b :
  ptr_eqb (map_blocks f a) (map_blocks f b) = ptr_eqb a b.
Proof.
  destruct a as [| |x ? ? ? ?], b as [| |y ? ? ? ?]; simpl; auto.
  rewrite !f_self. reflexivity.
Qed.

Lemma map_blocks_is_double_black t :
  is_double_black (map_blocks f t) = is_double_black t.
Proof. destruct t; reflexivity. Qed.

Lemma map_blocks_is_null t : is_null (map_blocks f t) = is_null t.
Proof. destruct t; reflexivity. Qed.

Lemma map_blocks_add_black t :
  add_black (map_blocks f t) = option_map (map_blocks f) (add_black t).
Proof. destruct t as [| |b c l r nx]; try reflexivity. destruct c; reflexivity. Qed.

Ltac split_on_tree :=
  match goal with
  | |- context [match ?x with _ => _ end] => is_var x; destruct x
  | |- context [color_eqb ?x _] => is_var x; destruct x
  | |- context [nonleaf_color_is ?x _] => is_var x; destruct x
  | |- context [is_double_black ?x] => is_var x; destruct x
  | |- context [is_null ?x] => is_var x; destruct x
  | |- context [set_color ?x _] => is_var x; destruct x
  | |- context [blacken ?x] => is_var x; destruct x
  | |- context [add_black ?x] => is_var x; destruct x
  end.

Ltac same_run := repeat (simpl; unfold bind; try reflexivity; try split_on_tree).

Lemma map_blocks_propagate_fuel fuel : forall t,
  propagate_fuel fuel (map_blocks f t)
  = option_map (map_blocks f) (propagate_fuel fuel t).
Proof.
  induction fuel as [|fuel IH]; intros t; [reflexivity|].
  destruct t as [| |b c l r nx]; try reflexivity.
  simpl. rewrite !map_blocks_is_double_black.
  destruct (is_double_black l).
  - destruct r as [| |rb rc rl rr rnx]; try reflexivity. simpl.
    destruct (color_eqb rc RED).
    + change (Node (f b) RED (map_blocks f l) (map_blocks f rl) (map_blocks f nx))
        with (map_blocks f (Node b RED l rl nx)).
      rewrite IH. destruct (propagate_fuel fuel _); reflexivity.
    + same_run.
  - destruct (is_double_black r); [|reflexivity].
    destruct l as [| |lb lc ll lr lnx]; try reflexivity. simpl.
    destruct (color_eqb lc RED).
    + change (Node (f b) RED (map_blocks f lr) (map_blocks f r) (map_blocks f nx))
        with (map_blocks f (Node b RED lr r nx)).
      rewrite IH. destruct (propagate_fuel fuel _); reflexivity.
    + same_run.
Qed.

Lemma map_blocks_propagate t :
  RBT_propagate_double_blackness (map_blocks f t)
  = option_map (map_blocks f) (RBT_propagate_double_blackness t).
Proof.
  unfold RBT_propagate_double_blackness. rewrite map_blocks_size.
  apply map_blocks_propagate_fuel.
Qed.

(* [unmap x]: the tree whose image under [map_blocks f] is [x] *)
Ltac unmap x :=
  lazymatch x with
  | map_blocks f ?u => constr:(u)
  | NULL => constr:(NULL)
  | DOUBLE_BLACK_PTR => constr:(DOUBLE_BLACK_PTR)
  | Node (f ?b) ?c ?l ?r ?n =>
      let l' := unmap l in
      let r' := unmap r in
      let n' := unmap n in
      constr:(Node b c l' r' n')
  | (if ?cond then ?a else ?b) =>
      let a' := unmap a in
      let b' := unmap b in
      constr:(if cond then a' else b')
  end.

Ltac refold t :=
  lazymatch t with
  | map_blocks f _ => fail
  | _ => let t' := unmap t in
         replace t with (map_blocks f t')
           by (simpl; repeat match goal with
                             | |- context [if ?c then _ else _] => destruct c
                             end; reflexivity)
  end.

Ltac refold_calls :=
  repeat match goal with
  | |- context [RBT_propagate_double_blackness ?t] => refold t
  | |- context [RBT_propagate_double_blackness_prevswap ?p ?t] => refold t
  | |- context [RBT_propagate_double_blackness_prevswap ?p ?t] => refold p
  | |- context [detach_swap ?t] => refold t
  | |- context [RBT_remove_empty_root ?t] => refold t
  | |- context [remove_from_list ?n ?t] => refold t
  end.

Lemma map_blocks_prevswap prevswap : forall current,
  RBT_propagate_double_blackness_prevswap (map_blocks f prevswap)
    (map_blocks f current)
  = option_map (map_blocks f)
      (RBT_propagate_double_blackness_prevswap prevswap current).
Proof.
  induction current as [| |b c l IHl r _ nx _].
  - destruct prevswap; reflexivity.
  - destruct prevswap; reflexivity.
  - pose proof (map_blocks_ptr_eqb (Node b c l r nx) prevswap) as Hp.
    simpl in Hp. simpl. rewrite Hp.
    match goal with |- context [if ?c then _ else _] => destruct c end.
    + refold_calls. apply map_blocks_propagate.
    + rewrite IHl. unfold bind.
      destruct (RBT_propagate_double_blackness_prevswap prevswap l) as [new_left|];
        [|reflexivity].
      simpl option_map. cbv iota beta. refold_calls. apply map_blocks_propagate.
Qed.

Lemma map_blocks_detach_swap : forall t,
  detach_swap (map_blocks f t)
  = option_map (fun r => (map_blocks f (fst (fst r)), map_blocks f (snd (fst r)),
                          map_blocks f (snd r)))
      (detach_swap t).
Proof.
  induction t as [| |pb pc sw IHsw pr _ pnx _]; try reflexivity.
  destruct sw as [| |sb sc sl sr snx]; try reflexivity.
  destruct sl as [| |slb slc sll slr slnx].
  - simpl. destruct (color_eqb sc BLACK); [|reflexivity].
    rewrite map_blocks_add_black. destruct (add_black sr); reflexivity.
  - reflexivity.
  - rewrite detach_swap_step by exact I.
    change (map_blocks f (Node pb pc (Node sb sc (Node slb slc sll slr slnx) sr snx) pr pnx))
      with (Node (f pb) pc
              (Node (f sb) sc
                 (Node (f slb) slc (map_blocks f sll) (map_blocks f slr) (map_blocks f slnx))
                 (map_blocks f sr) (map_blocks f snx))
              (map_blocks f pr) (map_blocks f pnx)).
    rewrite detach_swap_step by exact I.
    refold_calls. rewrite IHsw. unfold bind.
    destruct (detach_swap (Node sb sc (Node slb slc sll slr slnx) sr snx))
      as [[[last found] sw']|]; reflexivity.
Qed.

Lemma map_blocks_remove_empty_root t :
  RBT_remove_empty_root (map_blocks f t)
  = option_map (fun r => (map_blocks f (fst r), map_blocks f (snd r)))
      (RBT_remove_empty_root t).
Proof.
  destruct t as [| |b c l r nx]; try reflexivity.
  unfold RBT_remove_empty_root.
  destruct l as [| |lb lc ll lr lnx]; simpl is_null; cbv iota.
  - destruct r as [| |rb rc rl rr rnx]; simpl; try reflexivity.
    + destruct (color_eqb c RED); reflexivity.
    + destruct (color_eqb rc RED); reflexivity.
  - destruct r; reflexivity.
  - destruct r as [| |rb rc rl rr rnx].
    + simpl. destruct (color_eqb lc RED); reflexivity.
    + simpl. rewrite !map_blocks_is_null.
      destruct (is_null ll && is_null lr); [|reflexivity].
      refold_calls. rewrite map_blocks_propagate. unfold bind.
      destruct (RBT_propagate_double_blackness _); reflexivity.
    + simpl map_blocks. cbv iota beta. simpl is_null. cbv iota.
      rewrite !map_blocks_is_null.
      destruct (is_null ll && is_null lr).
      * refold_calls. rewrite map_blocks_propagate. unfold bind.
        destruct (RBT_propagate_double_blackness _); reflexivity.
      * destruct (is_null rl) eqn:Hrl.
        -- assert ((if color_eqb rc BLACK then add_black (map_blocks f rr)
                    else Some (map_blocks f rr))
                   = option_map (map_blocks f)
                       (if color_eqb rc BLACK then add_black rr else Some rr)) as ->.
           { destruct (color_eqb rc BLACK); [apply map_blocks_add_black|reflexivity]. }
           unfold bind.
           destruct (if color_eqb rc BLACK then add_black rr else Some rr) as [p|];
             [|reflexivity].
           simpl option_map. cbv iota beta.
           refold_calls. rewrite map_blocks_propagate.
           destruct (RBT_propagate_double_blackness _); reflexivity.
        -- refold_calls. rewrite map_blocks_detach_swap. unfold bind.
           destruct (detach_swap (Node rb rc rl rr rnx)) as [[[last found] R']|];
             [|reflexivity].
           simpl option_map. cbv iota beta. simpl fst. simpl snd.
           destruct found as [| |sb sc sl sr snx]; try reflexivity.
           simpl map_blocks at 1. cbv iota beta.
           rewrite map_blocks_prevswap.
           destruct (RBT_propagate_double_blackness_prevswap last R') as [R''|];
             [|reflexivity].
           simpl option_map. cbv iota beta.
           refold_calls. rewrite map_blocks_propagate.
           destruct (RBT_propagate_double_blackness _); reflexivity.
Qed.

Lemma map_blocks_remove_root t :
  RBT_remove_root (map_blocks f t)
  = option_map (fun r => (map_blocks f (fst r), map_blocks f (snd r)))
      (RBT_remove_root t).
Proof.
  destruct t as [| |b c l r nx]; try reflexivity.
  destruct nx as [| |tb tc tl tr tnx]; try reflexivity.
  unfold RBT_remove_root. simpl map_blocks. cbv iota beta.
  refold_calls. apply map_blocks_remove_empty_root.
Qed.

Lemma map_blocks_remove_at_least_inner k : forall t,
  RBT_remove_at_least_inner (map_blocks f t) k
  = option_map (fun r => (map_blocks f (fst r), map_blocks f (snd r)))
      (RBT_remove_at_least_inner t k).
Proof.
  induction t as [| |b c l IHl r IHr nx _]; try reflexivity.
  pose proof (map_blocks_remove_root (Node b c l r nx)) as Hroot.
  simpl map_blocks in Hroot.
  simpl. rewrite f_capacity.
  destruct (k =? capacity b); [exact Hroot|].
  destruct (k <? capacity b); unfold bind.
  - rewrite IHl. destruct (RBT_remove_at_least_inner l k) as [[newleft removed]|];
      [|reflexivity].
    simpl option_map. cbv iota beta. simpl fst. simpl snd.
    rewrite map_blocks_is_null. destruct (is_null removed); [exact Hroot|].
    refold_calls. rewrite map_blocks_propagate.
    destruct (RBT_propagate_double_blackness _); reflexivity.
  - rewrite IHr. destruct (RBT_remove_at_least_inner r k) as [[newright removed]|];
      [|reflexivity].
    simpl option_map. cbv iota beta. simpl fst. simpl snd.
    rewrite map_blocks_is_null. destruct (is_null removed); [reflexivity|].
    refold_calls. rewrite map_blocks_propagate.
    destruct (RBT_propagate_double_blackness _); reflexivity.
Qed.

Lemma map_blocks_finish_root t :
  finish_root (map_blocks f t) = map_blocks f (finish_root t).
Proof. destruct t; reflexivity. Qed.

Lemma map_blocks_remove_from_list node : forall ch,
  remove_from_list (map_blocks f node) (map_blocks f ch)
  = option_map (fun r => (map_blocks f (fst r), map_blocks f (snd r)))
      (remove_from_list node ch).
Proof.
  induction ch as [| |tb tc tl _ tr _ tnx IH]; try reflexivity.
  pose proof (map_blocks_ptr_eqb node (Node tb tc tl tr tnx)) as Hp.
  simpl map_blocks in *. cbn [remove_from_list]. rewrite Hp.
  destruct (ptr_eqb node (Node tb tc tl tr tnx)); [reflexivity|].
  rewrite IH. unfold bind.
  destruct (remove_from_list node tnx) as [[tnx' removed]|]; reflexivity.
Qed.

Lemma map_blocks_remove_node_root node t :
  RBT_remove_node_root (map_blocks f t) (map_blocks f node)
  = option_map (fun r => (map_blocks f (fst r), map_blocks f (snd r)))
      (RBT_remove_node_root t node).
Proof.
  destruct t as [| |b c l r nx]; try reflexivity.
  pose proof (map_blocks_ptr_eqb node (Node b c l r nx)) as Hp.
  pose proof (map_blocks_remove_empty_root (Node b c l r nx)) as He.
  unfold RBT_remove_node_root. simpl map_blocks in *. cbv iota beta. rewrite Hp.
  destruct (ptr_eqb node (Node b c l r nx)); simpl negb; cbv iota.
  - destruct nx as [| |xb xc xl xr xnx]; try reflexivity. exact He.
  - rewrite map_blocks_remove_from_list. unfold bind.
    destruct (remove_from_list node nx) as [[nx' removed]|]; reflexivity.
Qed.

Lemma map_blocks_remove_node_inner node cap : forall t,
  RBT_remove_node_inner (map_blocks f t) (map_blocks f node) cap
  = option_map (fun r => (map_blocks f (fst r), map_blocks f (snd r)))
      (RBT_remove_node_inner t node cap).
Proof.
  induction t as [| |b c l IHl r IHr nx _]; try reflexivity.
  pose proof (map_blocks_remove_node_root node (Node b c l r nx)) as Hroot.
  simpl map_blocks in Hroot.
  simpl. rewrite f_capacity.
  destruct (cap =? capacity b); [exact Hroot|].
  destruct (cap <? capacity b); unfold bind.
  - rewrite IHl. destruct (RBT_remove_node_inner l node cap) as [[newleft removed]|];
      [|reflexivity].
    simpl option_map. cbv iota beta. simpl fst. simpl snd.
    refold_calls. rewrite map_blocks_propagate.
    destruct (RBT_propagate_double_blackness _); reflexivity.
  - rewrite IHr. destruct (RBT_remove_node_inner r node cap) as [[newright removed]|];
      [|reflexivity].
    simpl option_map. cbv iota beta. simpl fst. simpl snd.
    refold_calls. rewrite map_blocks_propagate.
    destruct (RBT_propagate_double_blackness _); reflexivity.
Qed.

(** Both removals commute with any change of [prev_dist] and [in_use]. *)
Lemma map_blocks_removals t k node removed :
  RBT_remove_at_least (map_blocks f t) k (option_map (map_blocks f) removed)
  = option_map (map_result f) (RBT_remove_at_least t k removed)
  /\ RBT_remove_node (map_blocks f t) (map_blocks f node)
       (option_map (map_blocks f) removed)
     = option_map (map_result f) (RBT_remove_node t node removed).
Proof.
  split.
  - destruct removed as [cell|]; [|reflexivity]. simpl.
    rewrite map_blocks_remove_at_least_inner. unfold bind.
    destruct (RBT_remove_at_least_inner t k) as [[newroot out]|]; [|reflexivity].
    simpl. unfold map_result. simpl. rewrite map_blocks_finish_root. reflexivity.
  - destruct removed as [cell|]; [|reflexivity].
    destruct node as [| |nb nc nl nr nnx]; try reflexivity.
    pose proof (map_blocks_remove_node_inner (Node nb nc nl nr nnx) (capacity nb) t) as H.
    simpl map_blocks in *. simpl. rewrite f_capacity.
    rewrite H. unfold bind.
    destruct (RBT_remove_node_inner t _ _) as [[newroot out]|]; [|reflexivity].
    simpl. unfold map_result. simpl. rewrite map_blocks_finish_root. reflexivity.
Qed.

End Payload.

(** ** The payload is left alone *)

Lemma removal_blocks t t' x g1 g g2 og :
  inorder t = g1 ++ g :: g2 -> group_removed g x og ->
  inorder t' = g1 ++ og ++ g2 ->
  Permutation (blocks t) (node_block x ++ blocks t').
Proof.
  intros Hi G Hi'. unfold blocks. rewrite Hi, Hi'.
  destruct (removed_blocks g1 g g2 _ _ G) as (bx & l1 & l2 & E1 & E2 & E3).
  rewrite E1, E2, E3. simpl. symmetry. apply Permutation_middle.
Qed.

(** C9. [RBT_remove_at_least] and [RBT_remove_node] leave the address,
    [capacity], [prev_dist] and [in_use] of every node as they were: the
    nodes of the returned tree together with the node stored in the
    out-parameter are the nodes of the tree passed in, field by field.
    Neither looks at [prev_dist] or [in_use]: with other values in these
    fields, the result is the same but for these fields.  The structural
    removal ([RBT_remove_root], [RBT_remove_node_root]) and the rebalancing
    ([RBT_propagate_double_blackness]) do not look at [capacity] either,
    which only the search compares: they commute with any change of the
    blocks that keeps the addresses.  On a well-formed tree both operations
    return. *)
Theorem payload_preserved t k node removed :
  (forall t' out,
      RBT_remove_at_least t k removed = Some (t', out) ->
      Permutation (blocks t) (stored out ++ blocks t'))
  /\ (forall t' out,
        RBT_remove_node t node removed = Some (t', out) ->
        Permutation (blocks t) (stored out ++ blocks t'))
  /\ (forall f, payload_only f ->
        RBT_remove_at_least (map_blocks f t) k (option_map (map_blocks f) removed)
        = option_map (map_result f) (RBT_remove_at_least t k removed)
        /\ RBT_remove_node (map_blocks f t) (map_blocks f node)
             (option_map (map_blocks f) removed)
           = option_map (map_result f) (RBT_remove_node t node removed))
  /\ (forall f, keeps_self f ->
        RBT_remove_root (map_blocks f t)
        = option_map (map_pair f) (RBT_remove_root t)
        /\ RBT_remove_node_root (map_blocks f t) (map_blocks f node)
           = option_map (map_pair f) (RBT_remove_node_root t node)
        /\ RBT_propagate_double_blackness (map_blocks f t)
           = option_map (map_blocks f) (RBT_propagate_double_blackness t))
  /\ (well_formed t -> node <> DOUBLE_BLACK_PTR ->
      (exists r, RBT_remove_at_least t k removed = Some r)
      /\ (exists r, RBT_remove_node t node removed = Some r)).
Proof.
  split; [|split; [|split; [|split]]];
    [| |intros f Hf; apply map_blocks_removals; intro b; apply Hf
     |intros f Hf; repeat split;
      [apply map_blocks_remove_root|apply map_blocks_remove_node_root
      |apply map_blocks_propagate]; exact Hf|].
  - intros t' out E. destruct removed as [cell|]; simpl in E; [|inv E; reflexivity].
    unfold bind in E.
    destruct (RBT_remove_at_least_inner t k) as [[newroot x]|] eqn:E1; [|discriminate].
    inv E.
    destruct (remove_at_least_inner_inorder _ _ _ _ E1)
      as [(-> & -> & _)|(g1 & g & g2 & og & Hi & G & Hi' & _)].
    + unfold blocks. rewrite finish_root_inorder. reflexivity.
    + eapply removal_blocks; eauto. rewrite finish_root_inorder. exact Hi'.
  - intros t' out E. destruct removed as [cell|]; simpl in E; [|inv E; reflexivity].
    destruct node as [| |nb nc nl nr nnx]; [inv E; reflexivity|discriminate|].
    unfold bind in E.
    destruct (RBT_remove_node_inner t _ _) as [[newroot x]|] eqn:E1; [|discriminate].
    inv E.
    destruct (remove_node_inner_spec _ _ _ _ _ _ _ _ _ E1)
      as [(-> & Hi & _)|(g1 & g & g2 & og & Hi & G & Hi' & _)].
    + unfold blocks. rewrite finish_root_inorder, Hi. reflexivity.
    + eapply removal_blocks; eauto. rewrite finish_root_inorder. exact Hi'.
  - intros WF Hn. split.
    + destruct removed as [cell|]; [|simpl; eauto].
      destruct (RBT_remove_at_least_well_formed t k cell WF) as (t' & x & E & _). eauto.
    + destruct removed as [cell|]; [|simpl; eauto].
      destruct node as [| |nb nc nl nr nnx]; [simpl; eauto|congruence|].
      destruct (RBT_remove_node_well_formed t nb nc nl nr nnx cell WF) as (t' & x & E & _).
      eauto.
Qed.

(** ** Structural deletion of a node with two children *)

Lemma detach_swap_leftmost : forall R last found R',
  detach_swap R = Some (last, found, R') -> leftmost R = found.
Proof.
  induction R as [| |pb pc sw IHsw pr _ pnx _]; intros last found R' H; simpl in H; try discriminate.
  destruct sw as [| |sb sc sl sr snx]; try discriminate.
  destruct (is_null sl) eqn:Hsl.
  - destruct sl; try discriminate. unfold bind in H.
    destruct (if color_eqb sc BLACK then add_black sr else Some sr); [|discriminate].
    inv H. reflexivity.
  - unfold bind in H.
    destruct (detach_swap (Node sb sc sl sr snx)) as [[[last0 found0] sw']|] eqn:E; [|discriminate].
    inv H. change (leftmost (Node pb pc (Node sb sc sl sr snx) pr pnx))
      with (leftmost (Node sb sc sl sr snx)).
    eapply IHsw; eauto.
Qed.

(** C6, as the code has it.  When structural deletion removes a tree node
    with two children from a red-black subtree, the node that takes its place
    is its left child when that child has no children of its own, and
    otherwise its in-order successor, the leftmost node of its right
    subtree.  The replacement takes the color of the removed node and its
    other subtree.  The place the replacement leaves is taken by its own
    child (a leaf, for the left child), which carries the deficiency when
    the replacement was BLACK; in the right subtree
    [RBT_propagate_double_blackness] is applied at every node from that
    place up to the root of the subtree, and last at the replacement.  The
    tree returned holds the other nodes in order and counts on every path
    the black the subtree counted before, a doubly-black root, the only
    place left for a deficiency, counting twice; under a RED node there is
    none. *)
Theorem two_children_removal b c lb lc ll lr lnx rb rc rl rr rnx nx :
  let l := Node lb lc ll lr lnx in
  let r := Node rb rc rl rr rnx in
  no_double_black (Node b c l r nx) ->
  no_red_red (Node b c l r nx) ->
  same_black_count (Node b c l r nx) ->
  NoDup (tree_addrs (Node b c l r nx)) ->
  exists t',
    RBT_remove_empty_root (Node b c l r nx) = Some (t', Node b c NULL NULL nx)
    /\ ((ll = NULL /\ lr = NULL
         /\ exists hole,
              take_place lc NULL = Some hole
              /\ inorder hole = []
              /\ RBT_propagate_double_blackness (Node lb c hole r lnx) = Some t')
        \/ ((ll <> NULL \/ lr <> NULL)
            /\ exists sb sc sr snx new_right,
                 leftmost r = Node sb sc NULL sr snx
                 /\ without_leftmost r = Some new_right
                 /\ inorder r = (sb, snx) :: inorder new_right
                 /\ RBT_propagate_double_blackness (Node sb c l new_right snx)
                    = Some t'))
    /\ inorder t' = inorder l ++ inorder r
    /\ same_weight t' (Node b c l r nx)
    /\ double_black_only_root t'
    /\ (c = RED -> no_double_black t').
Proof.
  intros l r Hdb Hrr Hsb ND.
  destruct (invariant_is_rb _ Hdb Hrr Hsb) as (c' & n & HR).
  assert (c' = c) by (inv HR; reflexivity). subst c'.
  destruct (remove_empty_root_rb _ _ _ _ _ _ HR ND) as (t' & E & Hres).
  exists t'. split; [exact E|].
  split; [|split; [apply (remove_empty_root_inorder _ _ _ _ _ _ _ E)|split]].
  2:{ intros x y Hx Hy. rewrite (del_res_weights _ _ _ Hres x Hx).
      symmetry. eapply is_rb_weights; [exact HR|exact Hy]. }
  2:{ apply (del_res_only_root _ _ _ Hres). }
  assert (NDr : NoDup (tree_addrs r)).
  { apply (tree_addrs_NoDup_node _ _ _ _ _ ND). }
  clear Hres.
  unfold RBT_remove_empty_root in E. subst l r. simpl is_null in E. cbv iota in E.
  destruct (is_null ll && is_null lr) eqn:Hleaf.
  - left. destruct ll, lr; try discriminate. unfold bind in E.
    destruct (RBT_propagate_double_blackness _) eqn:E1; [|discriminate]. inv E.
    repeat split.
    exists (if color_eqb lc BLACK then DOUBLE_BLACK_PTR else NULL).
    split; [unfold take_place; destruct lc; reflexivity|].
    split; [destruct lc; reflexivity|exact E1].
  - right. split.
    { destruct ll; [right|left; discriminate|left; discriminate].
      destruct lr; [discriminate Hleaf|discriminate|discriminate]. }
    destruct (is_null rl) eqn:Hrl; unfold bind in E.
    + destruct rl; try discriminate.
      destruct (if color_eqb rc BLACK then add_black rr else Some rr) as [p|] eqn:E1; [|discriminate].
      destruct (RBT_propagate_double_blackness _) eqn:E2; [|discriminate]. inv E.
      exists rb, rc, rr, rnx, p. split; [reflexivity|].
      split; [exact E1|]. split; [|exact E2].
      simpl. f_equal. symmetry.
      destruct (color_eqb rc BLACK); [apply add_black_inorder; exact E1|inv E1; reflexivity].
    + destruct (detach_swap (Node rb rc rl rr rnx)) as [[[last found] R']|] eqn:E1; [|discriminate].
      destruct (detach_swap_inorder _ _ _ _ E1) as (sb & sc & sr & snx & -> & Hi).
      destruct (RBT_propagate_double_blackness_prevswap last R') as [R''|] eqn:E2; [|discriminate].
      destruct (RBT_propagate_double_blackness _) eqn:E3; [|discriminate]. inv E.
      exists sb, sc, sr, snx, R''. split; [eapply detach_swap_leftmost; eauto|].
      split.
      { rewrite <- E2. symmetry.
        apply (prevswap_without_leftmost _ _ _ _ E1 NDr). }
      split; [|exact E3]. rewrite Hi. f_equal. symmetry. eapply prevswap_inorder; eauto.
Qed.

(** ** The insertion test *)

Example char_codes_algorithm :
  char_codes "ALGORITHM"%string = [65; 76; 71; 79; 82; 73; 84; 72; 77].
Proof. reflexivity. Qed.

(** C7, as the specification has it: the left child of the root would be a BLACK
    node.  It is not. *)
Lemma algorithm_left_child_not_black :
  ~ exists b c gb gl gr gnx r nx,
      algorithm_tree = Some (Node b c (Node gb BLACK gl gr gnx) r nx).
Proof.
  intros (b & c & gb & gl & gr & gnx & r & nx & H).
  vm_compute in H. discriminate H.
Qed.

(** C7, as the code has it.  Inserting the character codes of A, L, G, O, R,
    I, T, H, M in that order into an empty tree yields height 3 and
    black-height 2, root I (BLACK), left child G (RED) over A and H (both
    BLACK), right child O (RED) over L (BLACK, with right child M, RED) and R
    (BLACK, with right child T, RED): the tree drawn in the test. *)
Theorem algorithm_tree_shape :
  algorithm_tree
  = Some (Node (mkBlock 105 73 0 false) BLACK
            (Node (mkBlock 102 71 0 false) RED
               (leaf_node 100 65 BLACK) (leaf_node 107 72 BLACK) NULL)
            (Node (mkBlock 103 79 0 false) RED
               (Node (mkBlock 101 76 0 false) BLACK
                  NULL (leaf_node 108 77 RED) NULL)
               (Node (mkBlock 104 82 0 false) BLACK
                  NULL (leaf_node 106 84 RED) NULL)
               NULL)
            NULL)
  /\ (t <- algorithm_tree ;; RBT_height t) = Some 3
  /\ (t <- algorithm_tree ;; RBT_black_height t) = Some 2.
Proof. repeat split; vm_compute; reflexivity. Qed.

(** ** Black height *)

(** C10, as the specification has it: 0 for a single BLACK node.  The leaf under it
    is counted, so the function returns 1. *)
Lemma single_black_node_black_height :
  (t <- RBT_new (storage 100) 5 ;; Some t) = Some (leaf_node 100 5 BLACK)
  /\ RBT_black_height (leaf_node 100 5 BLACK) = Some 1
  /\ RBT_black_height (leaf_node 100 5 BLACK) <> Some 0.
Proof. repeat split; try (vm_compute; reflexivity). discriminate. Qed.

Lemma black_height_leftmost t :
  no_double_black t ->
  exists x rest,
    black_counts t = x :: rest
    /\ RBT_black_height t
       = Some (Z.of_nat x
               + match t with
                 | Node _ RED _ _ _ => 1
                 | _ => 0
                 end).
Proof.
  induction t as [| |b c l IHl r _ nx _]; simpl no_double_black; intros ND.
  - exists O, []. split; reflexivity.
  - destruct ND.
  - destruct ND as (Hc & NDl & _). destruct (IHl NDl) as (xl & rest & El & Hl).
    exists (if color_eqb c BLACK then S xl else xl),
      (map (fun n => if color_eqb c BLACK then S n else n) (rest ++ black_counts r)).
    split; [simpl; rewrite El; reflexivity|].
    destruct l as [| |lb lc ll lr lnx].
    + simpl in El. inv El. destruct c; try congruence; reflexivity.
    + destruct NDl.
    + rewrite black_height_node, Hl. destruct NDl as (Hlc & _).
      destruct lc, c; try congruence; cbn [bind color_eqb]; apply f_equal; lia.
Qed.

(** C10, as the code has it.  On a non-empty tree without doubly-black node
    whose paths all hold the same number of BLACK nodes, [RBT_black_height]
    returns the number of BLACK nodes on any path from the root down to a
    leaf, not counting the root and counting the leaf, which is BLACK: 1 for
    a single node, whatever its color.  It returns 0 for the empty tree
    only. *)
Theorem black_height_counts b c l r nx :
  no_double_black (Node b c l r nx) ->
  same_black_count (Node b c l r nx) ->
  forall below, In below (black_counts l ++ black_counts r) ->
    RBT_black_height (Node b c l r nx) = Some (Z.of_nat below + 1)
    /\ RBT_black_height (Node b c NULL NULL nx) = Some 1
    /\ RBT_black_height NULL = Some 0.
Proof.
  intros ND SB below Hin. split; [|split; reflexivity].
  destruct (black_height_leftmost _ ND) as (x & rest & E & H).
  rewrite H. apply f_equal.
  assert (Hx : In x (black_counts (Node b c l r nx))) by (rewrite E; left; reflexivity).
  assert (Hb : In (if color_eqb c BLACK then S below else below)
                  (black_counts (Node b c l r nx))).
  { simpl. apply in_map_iff. exists below. auto. }
  rewrite (SB _ _ Hx Hb). destruct ND as (Hc & _).
  destruct c; try congruence; simpl color_eqb; cbv iota; lia.
Qed.

Lemma black_height_counts_witness :
  RBT_black_height (Node (mkBlock 2 2 0 false) BLACK
                      (leaf_node 1 1 RED) (leaf_node 3 3 RED) NULL)
  = Some (Z.of_nat 0 + 1)
  /\ RBT_black_height (Node (mkBlock 2 2 0 false) BLACK NULL NULL NULL) = Some 1
  /\ RBT_black_height NULL = Some 0.
Proof.
  apply (black_height_counts (mkBlock 2 2 0 false) BLACK
           (leaf_node 1 1 RED) (leaf_node 3 3 RED) NULL).
  - simpl. repeat split; discriminate.
  - intros x y Hx Hy. simpl in Hx, Hy.
    repeat (destruct Hx as [<-|Hx]); repeat (destruct Hy as [<-|Hy]);
      try reflexivity; contradiction.
  - simpl. left. reflexivity.
Defined.

(** ** Insertion keeps the order *)

Lemma store_capacity_small cap :
  0 <= cap < 2 ^ capacity_bits -> store_capacity cap = cap.
Proof. intros H. unfold store_capacity. apply Z.mod_small. exact H. Qed.

Lemma sorted_insert (l1 l2 : list Z) x :
  StronglySorted Z.lt (l1 ++ l2) ->
  Forall (fun y => y < x) l1 -> Forall (fun y => x < y) l2 ->
  StronglySorted Z.lt (l1 ++ x :: l2).
Proof.
  induction l1 as [|a l1 IH]; simpl; intros S F1 F2.
  - constructor; assumption.
  - inv S. inv F1. constructor; [auto|].
    apply Forall_app in H2. destruct H2 as [G1 G2].
    apply Forall_app. split; [exact G1|]. constructor; assumption.
Qed.

Lemma find_key_complete cap : forall t,
  keys_sorted (inorder t) -> In cap (map key (inorder t)) ->
  find_key t cap = true.
Proof.
  induction t as [| |b c l IHl r IHr nx _]; simpl; intros S Hin; try contradiction.
  destruct (keys_sorted_node b c l r nx S) as (Sl & Sr & Fl & Fr).
  destruct (cap =? capacity b) eqn:Heq; [reflexivity|]. apply Z.eqb_neq in Heq.
  rewrite map_app in Hin. apply in_app_or in Hin. simpl in Hin.
  rewrite Forall_forall in Fl, Fr.
  destruct (cap <? capacity b) eqn:Hlt.
  - apply Z.ltb_lt in Hlt. destruct Hin as [Hin|[Hin|Hin]]; [auto|unfold key in Hin; simpl in Hin; lia|].
    apply in_map_iff in Hin. destruct Hin as (g & <- & Hg). specialize (Fr _ Hg). lia.
  - apply Z.ltb_ge in Hlt. destruct Hin as [Hin|[Hin|Hin]]; [|unfold key in Hin; simpl in Hin; lia|auto].
    apply in_map_iff in Hin. destruct Hin as (g & <- & Hg). specialize (Fl _ Hg). lia.
Qed.

Lemma find_key_sound cap : forall t,
  find_key t cap = true -> In cap (map key (inorder t)).
Proof.
  induction t as [| |b c l IHl r IHr nx _]; simpl; intros H; try discriminate.
  rewrite map_app. apply in_or_app. simpl.
  destruct (cap =? capacity b) eqn:Heq.
  - apply Z.eqb_eq in Heq. right. left. unfold key. simpl. auto.
  - destruct (cap <? capacity b); auto.
Qed.

(** What [RBT_add] does to the in-order listing of a tree in order. *)
Lemma RBT_add_ordered t nb nc nl nr nnx cap t' :
  ordered (inorder t) -> 0 <= cap < 2 ^ capacity_bits ->
  RBT_add t (Node nb nc nl nr nnx) cap = Some t' ->
  ordered (inorder t')
  /\ ((find_key t cap = false
       /\ exists g1 g2,
            inorder t = g1 ++ g2
            /\ inorder t' = g1 ++ (mkBlock (self nb) cap 0 false, NULL) :: g2)
      \/ (find_key t cap = true
          /\ exists g1 b ch g2,
               inorder t = g1 ++ (b, ch) :: g2 /\ capacity b = cap
               /\ inorder t'
                  = g1 ++ (b, Node (mkBlock (self nb) cap 0 false)
                                BLACK NULL NULL ch) :: g2)).
Proof.
  intros Ho Hcap E. unfold RBT_add in E. simpl is_null in E. cbv iota in E.
  unfold bind in E.
  destruct (RBT_add_inner t (Node nb nc nl nr nnx) cap) as [t1|] eqn:E1; [|discriminate].
  apply set_color_inorder in E. rewrite E.
  destruct (add_inner_inorder _ _ _ _ _ _ _ _ E1)
    as [(g1 & g2 & Hi & Hi' & Hpos)|(g1 & b & ch & g2 & Hi & Hi' & Hk)];
    rewrite store_capacity_small in Hi' by exact Hcap.
  - destruct (Hpos (proj1 Ho)) as [P1 P2].
    split.
    + rewrite Hi'. rewrite Hi in Ho. destruct Ho as [S F]. split.
      * unfold keys_sorted in *. rewrite map_app in *. simpl.
        apply sorted_insert; [exact S| |]; rewrite Forall_map; assumption.
      * apply Forall_app in F. destruct F as [F1 F2].
        apply Forall_app. split; [exact F1|]. constructor; [constructor|exact F2].
    + left. split; [|eauto].
      destruct (find_key t cap) eqn:Hf; [|reflexivity]. exfalso.
      apply find_key_sound in Hf. rewrite Hi, map_app in Hf.
      rewrite Forall_forall in P1, P2.
      apply in_app_or in Hf. destruct Hf as [Hf|Hf];
        apply in_map_iff in Hf; destruct Hf as (g & Hg & Hin);
        [specialize (P1 _ Hin)|specialize (P2 _ Hin)]; lia.
  - split.
    + rewrite Hi'. rewrite Hi in Ho. destruct Ho as [S F]. split.
      * unfold keys_sorted in *. rewrite map_app in *. exact S.
      * apply Forall_app in F. destruct F as [F1 F2]. inv F2.
        apply Forall_app. split; [exact F1|]. constructor; [|assumption].
        unfold bucket_keys_ok, key in *. simpl in *. constructor; [simpl; auto|assumption].
    + right. split; [|eauto 10].
      apply find_key_complete; [exact (proj1 Ho)|].
      rewrite Hi, map_app. apply in_or_app. right. left. exact Hk.
Qed.

(** ** Inserting under a capacity the tree already holds *)

Lemma eliminate_rb_id b c l r nx n :
  is_rb (Node b c l r nx) c n ->
  RBT_eliminate_red_red (Node b c l r nx) = Some (Node b c l r nx).
Proof.
  intros H. unfold RBT_eliminate_red_red. run; reflexivity.
Qed.

Section AddExisting.
Variables (nb hb : block) (nc hc : color) (nl nr nnx hl hr hnx : RBT) (cap : Z).
Hypothesis same_address : self hb = self nb.
Let node := Node nb nc nl nr nnx.
Let held := Node hb hc hl hr hnx.
Let nb' := mkBlock (self nb) (store_capacity cap) 0 false.

Lemma add_inner_existing : forall t c n,
  is_rb t c n -> find_key t cap = true -> ~ In (self nb) (tree_addrs t) ->
  exists t1,
    RBT_add_inner t node cap = Some t1
    /\ is_rb t1 c n /\ skeleton t1 = skeleton t /\ is_node t1
    /\ RBT_remove_node_inner t1 held cap = Some (t, Node nb' BLACK NULL NULL NULL).
Proof.
  induction t as [| |b col l IHl r IHr nx _]; intros c n HR Hf Hfresh; try discriminate.
  assert (col = c) by (inv HR; reflexivity). subst col.
  destruct (is_rb_up _ _ _ _ _ _ HR) as (cl & cr & m & Hl & Hr & -> & Hred).
  rewrite tree_addrs_node in Hfresh.
  assert (Hb : self nb <> self b).
  { intros Heq. apply Hfresh. apply in_or_app. right. left. symmetry. exact Heq. }
  assert (Fl : ~ In (self nb) (tree_addrs l)).
  { intros Hin. apply Hfresh. apply in_or_app. left. exact Hin. }
  assert (Fr : ~ In (self nb) (tree_addrs r)).
  { intros Hin. apply Hfresh. apply in_or_app. right. right. exact Hin. }
  simpl in Hf. simpl RBT_add_inner.
  destruct (cap =? capacity b) eqn:Heq.
  - eexists. split; [reflexivity|]. split; [eapply is_rb_next; exact HR|].
    split; [reflexivity|]. split; [exact I|].
    simpl RBT_remove_node_inner. rewrite Heq.
    unfold RBT_remove_node_root. simpl ptr_eqb. rewrite same_address.
    apply Z.eqb_neq in Hb. rewrite Hb. simpl. rewrite same_address, Z.eqb_refl.
    reflexivity.
  - destruct (cap <? capacity b) eqn:Hlt.
    + destruct (IHl _ _ Hl Hf Fl) as (l1 & E1 & R1 & S1 & N1 & D1).
      unfold bind. fold node. rewrite E1.
      assert (is_null l = false) as -> by (destruct l; simpl in *; congruence).
      assert (HR1 : is_rb (Node b c l1 r nx) c (up c m)).
      { destruct c; [simpl; eauto with rb| |inv HR].
        destruct (Hred eq_refl) as [-> ->]. simpl. eauto with rb. }
      rewrite (eliminate_rb_id _ _ _ _ _ _ HR1).
      eexists. split; [reflexivity|]. split; [exact HR1|].
      split; [simpl; rewrite S1; reflexivity|]. split; [exact I|].
      simpl RBT_remove_node_inner. rewrite Heq, Hlt. unfold bind. fold held. rewrite D1.
      rewrite propagate_unchanged by eauto using is_rb_not_double_black. reflexivity.
    + destruct (IHr _ _ Hr Hf Fr) as (r1 & E1 & R1 & S1 & N1 & D1).
      unfold bind. fold node. rewrite E1.
      assert (is_null r = false) as -> by (destruct r; simpl in *; congruence).
      assert (HR1 : is_rb (Node b c l r1 nx) c (up c m)).
      { destruct c; [simpl; eauto with rb| |inv HR].
        destruct (Hred eq_refl) as [-> ->]. simpl. eauto with rb. }
      rewrite (eliminate_rb_id _ _ _ _ _ _ HR1).
      eexists. split; [reflexivity|]. split; [exact HR1|].
      split; [simpl; rewrite S1; reflexivity|]. split; [exact I|].
      simpl RBT_remove_node_inner. rewrite Heq, Hlt. unfold bind. fold held. rewrite D1.
      rewrite propagate_unchanged by eauto using is_rb_not_double_black. reflexivity.
Qed.

End AddExisting.

(** ** Insertion followed by removal of the same node *)

Lemma split_unique {A : Type} (P : A -> Prop) : forall (l1 l2 h1 h2 : list A) a b,
  l1 ++ a :: l2 = h1 ++ b :: h2 -> P b ->
  Forall (fun x => ~ P x) l1 -> Forall (fun x => ~ P x) l2 ->
  l1 = h1 /\ a = b /\ l2 = h2.
Proof.
  induction l1 as [|x l1 IH]; intros l2 h1 h2 a b E Pb F1 F2.
  - destruct h1 as [|y h1]; simpl in E; inv E; [auto|].
    exfalso. rewrite Forall_forall in F2. apply (F2 b); [|exact Pb].
    apply in_or_app. right. left. reflexivity.
  - destruct h1 as [|y h1]; simpl in E; inv E.
    + inv F1. contradiction.
    + inv F1. destruct (IH _ _ _ _ _ H1 Pb H3 F2) as (-> & -> & ->). auto.
Qed.

Lemma not_in_blocks_of a gs :
  ~ In a (map self (blocks_of gs)) ->
  Forall (fun g => ~ In a (map self (group_blocks g))) gs.
Proof.
  induction gs as [|g gs IH]; intros H; constructor.
  - intros Hin. apply H.
    change (blocks_of (g :: gs)) with (group_blocks g ++ blocks_of gs).
    rewrite map_app. apply in_or_app. left. exact Hin.
  - apply IH. intros Hin. apply H.
    change (blocks_of (g :: gs)) with (group_blocks g ++ blocks_of gs).
    rewrite map_app. apply in_or_app. right. exact Hin.
Qed.

(** C4, as the specification has it: the tree 2 over 1 and 3 (both RED), to which 4
    is added and removed at once, comes back with 1 and 3 BLACK. *)
Lemma round_trip_changes_colors :
  three_nodes
  = Some (Node (mkBlock 2 2 0 false) BLACK
            (leaf_node 1 1 RED) (leaf_node 3 3 RED) NULL)
  /\ (t <- three_nodes ;;
      t1 <- RBT_add t (storage 4) 4 ;;
      RBT_remove_node t1 (handle 4 4) (Some NULL))
     = Some (Node (mkBlock 2 2 0 false) BLACK
               (leaf_node 1 1 BLACK) (leaf_node 3 3 BLACK) NULL,
             Some (leaf_node 4 4 RED))
  /\ leaf_node 1 1 BLACK <> leaf_node 1 1 RED.
Proof. repeat split; try (vm_compute; reflexivity). discriminate. Qed.

(** C4, as the code has it.  On a well-formed tree in order, adding a node
    that is not in the tree, with a capacity below 2^30, and removing that
    node at once gives the node back, detached, and returns a well-formed
    tree with the same tree nodes in the same order, each with the same
    bucket list.  When the capacity was stored already, the tree returned
    is the tree before the insertion; otherwise colors and shape need not
    be the ones before. *)
Theorem add_then_remove_node t nb nc nl nr nnx cap hc hl hr hnx cell :
  well_formed t -> ordered (inorder t) ->
  ~ In (self nb) (addrs t) -> 0 <= cap < 2 ^ capacity_bits ->
  exists t1 t2 cx,
    RBT_add t (Node nb nc nl nr nnx) cap = Some t1
    /\ RBT_remove_node t1 (Node (mkBlock (self nb) cap 0 false) hc hl hr hnx)
         (Some cell)
       = Some (t2, Some (Node (mkBlock (self nb) cap 0 false) cx NULL NULL NULL))
    /\ inorder t2 = inorder t
    /\ well_formed t2
    /\ (In cap (map key (inorder t)) -> t2 = t).
Proof.
  intros WF Ho Hfresh Hcap.
  destruct (find_key t cap) eqn:Hf.
  - (* the capacity is stored: the node goes on a bucket list and comes off it *)
    destruct (well_formed_parts _ WF) as ((n & HR) & Hch & ND).
    assert (Hfresh' : ~ In (self nb) (tree_addrs t)).
    { intros Hin. apply Hfresh. apply tree_addrs_sub. exact Hin. }
    destruct (add_inner_existing nb (mkBlock (self nb) cap 0 false) nc hc nl nr nnx hl hr hnx
                cap eq_refl t BLACK n HR Hf Hfresh') as (t1 & E1 & R1 & _ & N1 & D1).
    rewrite store_capacity_small in D1 by exact Hcap.
    exists t1, t, BLACK. split.
    { unfold RBT_add. simpl is_null. cbv iota. unfold bind. rewrite E1.
      inv R1; [destruct N1|reflexivity]. }
    split.
    { unfold RBT_remove_node, bind. simpl capacity. rewrite D1.
      rewrite (finish_root_black _ _ HR). reflexivity. }
    auto.
  - (* a new capacity: the node becomes a tree node *)
    destruct (RBT_add_well_formed t nb nc nl nr nnx cap WF Hfresh) as (t1 & E1 & WF1 & _).
    destruct (RBT_add_ordered _ _ _ _ _ _ _ _ Ho Hcap E1)
      as (Ho1 & [(_ & g1 & g2 & Hi & Hi1)|(Hf' & _)]); [|congruence].
    set (nb' := mkBlock (self nb) cap 0 false) in *.
    destruct (RBT_remove_node_well_formed t1 nb' hc hl hr hnx cell WF1)
      as (t2 & x & E2 & WF2 & [(-> & -> & Habs)|(h1 & g & h2 & og & Hi2 & G & Hi3 & P)]).
    + exfalso. specialize (Habs Ho1). rewrite Forall_forall in Habs.
      apply (Habs nb'); [|reflexivity|reflexivity].
      unfold blocks. rewrite Hi1, blocks_of_app. apply in_or_app. right. left. reflexivity.
    + destruct (group_removed_blocks _ _ _ G) as (bx & l1 & l2 & Ex & Eg & _).
      destruct x as [| |xb xc xl xr xnx]; try discriminate. simpl in Ex. inv Ex.
      simpl in P. apply Z.eqb_eq in P.
      assert (Pg : In (self nb) (map self (group_blocks g))).
      { rewrite Eg, P. apply in_map. apply in_or_app. right. left. reflexivity. }
      assert (Hnot : Forall (fun g0 => ~ In (self nb) (map self (group_blocks g0))) (g1 ++ g2)).
      { apply not_in_blocks_of. unfold addrs, blocks in Hfresh. rewrite Hi in Hfresh. exact Hfresh. }
      apply Forall_app in Hnot. destruct Hnot as [N1 N2].
      rewrite Hi1 in Hi2.
      destruct (split_unique _ _ _ _ _ _ _ Hi2 Pg N1 N2) as (<- & <- & <-).
      inv G; [|match goal with U : unlinked NULL _ _ |- _ => inv U end].
      exists t1, t2, xc. split; [exact E1|]. split; [exact E2|].
      split; [rewrite Hi3, Hi; reflexivity|]. split; [exact WF2|].
      intros Hin. apply find_key_complete in Hin; [congruence|exact (proj1 Ho)].
Qed.

(** ** Structural deletion: the left child without children *)

(** C6, as the specification has it: removing the root 2 of the tree 2 over 1 and 3
    would put the in-order successor 3 in its place.  The left child 1, which
    has no children, takes the place. *)
Lemma left_child_takes_the_place :
  (t <- three_nodes ;; RBT_remove_node t (handle 2 2) (Some NULL))
  = Some (Node (mkBlock 1 1 0 false) BLACK NULL (leaf_node 3 3 RED) NULL,
          Some (leaf_node 2 2 BLACK))
  /\ (t <- three_nodes ;; Some (leftmost (right_of t))) = Some (leaf_node 3 3 RED)
  /\ (t <- three_nodes ;; Some (left_of t)) = Some (leaf_node 1 1 RED).
Proof. repeat split; vm_compute; reflexivity. Qed.

(** ** Duplicates *)

Lemma height_skeleton t : RBT_height (skeleton t) = RBT_height t.
Proof.
  induction t as [| |b c l IHl r IHr nx _]; simpl; try reflexivity.
  rewrite IHl, IHr. destruct l, r; reflexivity.
Qed.

Lemma black_height_skeleton t : RBT_black_height (skeleton t) = RBT_black_height t.
Proof.
  induction t as [| |b c l IHl r _ nx _]; try reflexivity.
  destruct l as [| |lb lc ll lr lnx]; try reflexivity.
  change (skeleton (Node b c (Node lb lc ll lr lnx) r nx))
    with (Node b c (Node lb lc (skeleton ll) (skeleton lr) NULL) (skeleton r) NULL).
  rewrite !black_height_node.
  change (Node lb lc (skeleton ll) (skeleton lr) NULL)
    with (skeleton (Node lb lc ll lr lnx)).
  rewrite IHl. reflexivity.
Qed.

Lemma RBT_add_existing t nb nc nl nr nnx cap :
  well_formed t -> find_key t cap = true -> ~ In (self nb) (addrs t) ->
  exists t1, RBT_add t (Node nb nc nl nr nnx) cap = Some t1
             /\ skeleton t1 = skeleton t.
Proof.
  intros WF Hf Hfresh. destruct (well_formed_parts _ WF) as ((n & HR) & _ & _).
  assert (Hfresh' : ~ In (self nb) (tree_addrs t)).
  { intros Hin. apply Hfresh. apply tree_addrs_sub. exact Hin. }
  destruct (add_inner_existing nb nb nc nc nl nr nnx nl nr nnx cap eq_refl
              t BLACK n HR Hf Hfresh') as (t1 & E1 & R1 & S1 & N1 & _).
  exists t1. split; [|exact S1].
  unfold RBT_add. simpl is_null. cbv iota. unfold bind. rewrite E1.
  inv R1; [destruct N1|reflexivity].
Qed.

Lemma NoDup_move (a : Z) (l1 l2 l3 : list Z) :
  NoDup ((a :: l1) ++ l2) -> Permutation l3 (a :: l2) -> NoDup (l1 ++ l3).
Proof.
  intros ND HP. eapply Permutation_NoDup; [|exact ND].
  simpl. rewrite (Permutation_middle l1 l2 a).
  apply Permutation_app_head. symmetry. exact HP.
Qed.

Section Duplicates.
Variable cap : Z.
Hypothesis cap_range : 0 <= cap < 2 ^ capacity_bits.

Lemma add_all_existing g1 b g2 : forall nodes t ch,
  well_formed t -> ordered (inorder t) ->
  inorder t = g1 ++ (b, ch) :: g2 -> capacity b = cap ->
  Forall is_node nodes -> NoDup (node_addrs nodes ++ addrs t) ->
  exists tk chain,
    add_all t nodes cap = Some tk
    /\ inorder tk = g1 ++ (b, chain) :: g2
    /\ length (chain_blocks chain) = (length nodes + length (chain_blocks ch))%nat
    /\ skeleton tk = skeleton t
    /\ well_formed tk /\ ordered (inorder tk).
Proof.
  induction nodes as [|node nodes IH]; intros t ch WF Ho Hi Hb Hn ND.
  - exists t, ch. simpl. auto 10.
  - apply Forall_cons_iff in Hn. destruct Hn as [Hnode Hn].
    destruct node as [| |nb nc nl nr nnx]; try contradiction.
    unfold node_addrs in ND. simpl in ND.
    assert (Hfresh : ~ In (self nb) (addrs t)).
    { apply NoDup_cons_iff in ND. destruct ND as [Hnot _].
      intros Hin. apply Hnot. apply in_or_app. right. exact Hin. }
    assert (Hf : find_key t cap = true).
    { apply find_key_complete; [exact (proj1 Ho)|].
      rewrite Hi, map_app. apply in_or_app. right. left. exact Hb. }
    destruct (RBT_add_existing t nb nc nl nr nnx cap WF Hf Hfresh) as (t1 & E1 & S1).
    destruct (RBT_add_well_formed t nb nc nl nr nnx cap WF Hfresh) as (t1' & E1' & WF1 & _ & HP).
    rewrite E1 in E1'. injection E1' as <-.
    destruct (RBT_add_ordered _ _ _ _ _ _ _ _ Ho cap_range E1)
      as (Ho1 & [(Hf' & _)|(_ & h1 & b' & ch' & h2 & Hi' & Hb' & Hi1)]); [congruence|].
    (* the group found is the group of [b] *)
    pose proof Ho as Ho'. rewrite Hi in Ho'.
    destruct (ordered_split _ _ _ Ho') as (_ & _ & _ & L1 & L2).
    rewrite Hi in Hi'.
    assert (N1 : Forall (fun g => ~ key g = cap) g1).
    { eapply Forall_impl; [|exact L1]. unfold key. simpl. intros; lia. }
    assert (N2 : Forall (fun g => ~ key g = cap) g2).
    { eapply Forall_impl; [|exact L2]. unfold key. simpl. intros; lia. }
    destruct (split_unique (fun g => key g = cap) _ _ _ _ _ _ Hi' Hb' N1 N2)
      as (<- & Hg & <-).
    injection Hg as <- <-.
    assert (ND1 : NoDup (node_addrs nodes ++ addrs t1)).
    { eapply NoDup_move; [exact ND|]. unfold addrs.
      apply (Permutation_map self) in HP. exact HP. }
    destruct (IH t1 _ WF1 Ho1 Hi1 Hb Hn ND1)
      as (tk & chain & Ek & Hik & Lk & Sk & WFk & Hok).
    exists tk, chain. simpl add_all. unfold bind. rewrite E1.
    split; [exact Ek|]. split; [exact Hik|].
    split; [rewrite Lk; simpl; lia|]. split; [congruence|]. auto.
Qed.

End Duplicates.

(** C5.  Into a well-formed tree in order that does not hold capacity [cap]
    (the empty tree, for one), inserting [cap] with k = 1 + [length nodes]
    distinct nodes leaves one tree node with that capacity, the first node
    inserted, at the place the first insertion gave it, with the k - 1 other
    nodes on its [next] list; every other tree node and its bucket list are
    as after the first insertion, and so are [RBT_height] and
    [RBT_black_height]. *)
Theorem duplicate_compaction t nb nc nl nr nnx nodes cap :
  well_formed t -> ordered (inorder t) ->
  0 <= cap < 2 ^ capacity_bits ->
  ~ In cap (map key (inorder t)) ->
  Forall is_node nodes ->
  NoDup (node_addrs (Node nb nc nl nr nnx :: nodes) ++ addrs t) ->
  exists t1 tk g1 g2 chain,
    RBT_add t (Node nb nc nl nr nnx) cap = Some t1
    /\ add_all t1 nodes cap = Some tk
    /\ inorder t1 = g1 ++ (mkBlock (self nb) cap 0 false, NULL) :: g2
    /\ inorder tk = g1 ++ (mkBlock (self nb) cap 0 false, chain) :: g2
    /\ Forall (fun g => key g <> cap) (g1 ++ g2)
    /\ chain_ok chain
    /\ length (chain_blocks chain) = length nodes
    /\ RBT_height tk = RBT_height t1
    /\ RBT_black_height tk = RBT_black_height t1.
Proof.
  intros WF Ho Hcap Hnew Hn ND.
  unfold node_addrs in ND. simpl in ND.
  assert (Hfresh : ~ In (self nb) (addrs t)).
  { apply NoDup_cons_iff in ND. destruct ND as [Hnot _].
    intros Hin. apply Hnot. apply in_or_app. right. exact Hin. }
  destruct (RBT_add_well_formed t nb nc nl nr nnx cap WF Hfresh) as (t1 & E1 & WF1 & _ & HP).
  destruct (RBT_add_ordered _ _ _ _ _ _ _ _ Ho Hcap E1)
    as (Ho1 & [(_ & g1 & g2 & Hi & Hi1)|(Hf & _)]);
    [|apply find_key_sound in Hf; contradiction].
  assert (ND1 : NoDup (node_addrs nodes ++ addrs t1)).
  { eapply NoDup_move; [exact ND|]. unfold addrs.
    apply (Permutation_map self) in HP. exact HP. }
  destruct (add_all_existing cap Hcap g1 _ g2 nodes t1 NULL WF1 Ho1 Hi1 eq_refl Hn ND1)
    as (tk & chain & Ek & Hik & Lk & Sk & WFk & Hok).
  exists t1, tk, g1, g2, chain.
  split; [exact E1|]. split; [exact Ek|]. split; [exact Hi1|]. split; [exact Hik|].
  split.
  { rewrite Forall_forall. intros g Hg Hk. apply Hnew. rewrite Hi, <- Hk.
    apply in_map. exact Hg. }
  split.
  { destruct (well_formed_parts _ WFk) as (_ & Hch & _). unfold chains_ok in Hch. rewrite Hik in Hch.
    apply Forall_app in Hch. destruct Hch as [_ Hch]. inv Hch. assumption. }
  split; [rewrite Lk; simpl; lia|].
  rewrite <- (height_skeleton tk), <- (height_skeleton t1).
  rewrite <- (black_height_skeleton tk), <- (black_height_skeleton t1).
  rewrite Sk. auto.
Qed.

(** ** The trees the library builds are well-formed and in order *)

Lemma step_ordered t o :
  well_formed t -> ordered (inorder t) -> allowed t o -> capacity_fits o ->
  exists t', step t o = Some t' /\ well_formed t' /\ ordered (inorder t').
Proof.
  intros WF Ho A Hfit. destruct o as [node cap|cap removed|node removed]; simpl in *.
  - destruct node as [| |nb nc nl nr nnx]; [exists t; auto|destruct A|].
    destruct (RBT_add_well_formed t nb nc nl nr nnx cap WF A) as (t' & E & W & _).
    destruct (RBT_add_ordered _ _ _ _ _ _ _ _ Ho Hfit E) as (Ho' & _).
    eauto.
  - destruct removed as [cell|]; [|exists t; auto].
    destruct (RBT_remove_at_least_well_formed t cap cell WF)
      as (t' & x & E & W & [(_ & -> & _)|(g1 & g & g2 & og & Hi & G & Hi' & _)]);
      rewrite E; simpl; eexists; (split; [reflexivity|]); (split; [exact W|]); auto.
    rewrite Hi'. rewrite Hi in Ho. eapply removed_ordered; eauto.
  - destruct removed as [cell|]; [|exists t; auto].
    destruct node as [| |nb nc nl nr nnx]; [exists t; auto|congruence|].
    destruct (RBT_remove_node_well_formed t nb nc nl nr nnx cell WF)
      as (t' & x & E & W & [(_ & -> & _)|(g1 & g & g2 & og & Hi & G & Hi' & _)]);
      rewrite E; simpl; eexists; (split; [reflexivity|]); (split; [exact W|]); auto.
    rewrite Hi'. rewrite Hi in Ho. eapply removed_ordered; eauto.
Qed.

Lemma run_ordered ops : forall t,
  well_formed t -> ordered (inorder t) ->
  allowed_run t ops -> Forall capacity_fits ops ->
  exists roots,
    run t ops = Some roots
    /\ Forall (fun root => well_formed root /\ ordered (inorder root)) roots.
Proof.
  induction ops as [|o ops IH]; simpl; intros t WF Ho A Hfit.
  - exists []. auto.
  - destruct A as [A1 A2]. apply Forall_cons_iff in Hfit. destruct Hfit as [F1 F2].
    destruct (step_ordered t o WF Ho A1 F1) as (t' & E & W & O).
    destruct (IH t' W O (A2 t' E) F2) as (roots & E' & F).
    unfold bind. rewrite E, E'. exists (t' :: roots). auto.
Qed.

(** Every root returned along a sequence of operations that starts from the
    empty tree satisfies the hypotheses under which the removals are
    specified, as long as the capacities inserted fit the 30-bit field. *)
Theorem library_trees_ordered ops :
  allowed_run NULL ops -> Forall capacity_fits ops ->
  exists roots,
    run NULL ops = Some roots
    /\ Forall (fun root => well_formed root /\ ordered (inorder root)) roots.
Proof.
  intros A Hfit. apply run_ordered; auto.
  - apply well_formed_empty.
  - split; constructor.
Qed.

(** ** Capacities of 2^30 and more

    [RBT_add] compares the capacity as it is passed and stores its low 30
    bits, so a capacity that does not fit the field leaves the tree out of
    order. *)

(** C2, as the specification has it, on a tree that is out of order: the
    request 1 is answered with the node of capacity 5 although a node of
    capacity 1 is stored. *)
Lemma best_fit_misses_out_of_order :
  oversize_tree
  = Some (Node (mkBlock 1 5 0 false) BLACK NULL (leaf_node 2 1 RED) NULL)
  /\ (t <- oversize_tree ;; RBT_remove_at_least t 1 (Some NULL))
     = Some (leaf_node 2 1 BLACK, Some (leaf_node 1 5 BLACK))
  /\ ~ Forall (fun b => 1 <= capacity b -> 5 <= capacity b)
        (blocks (Node (mkBlock 1 5 0 false) BLACK NULL (leaf_node 2 1 RED) NULL)).
Proof.
  split; [vm_compute; reflexivity|]. split; [vm_compute; reflexivity|].
  intros H. simpl in H. inv H. inv H3. simpl in H1. lia.
Qed.

(** C3, as the specification has it, on the same tree: the node at address
    2 is in the tree, and [RBT_remove_node] on it stores NULL. *)
Lemma remove_node_misses_out_of_order :
  (t <- oversize_tree ;; RBT_remove_node t (leaf_node 2 1 RED) (Some NULL))
  = Some (Node (mkBlock 1 5 0 false) BLACK NULL (leaf_node 2 1 RED) NULL,
          Some NULL)
  /\ In 2 (addrs (Node (mkBlock 1 5 0 false) BLACK NULL (leaf_node 2 1 RED) NULL)).
Proof.
  split; [vm_compute; reflexivity|]. simpl. auto.
Qed.

(** C5, as the specification has it, with the capacity 2^30 + 3: the second
    insertion makes a second tree node, no bucket list, and the height
    grows. *)
Lemma oversize_duplicates_not_compacted :
  oversize_once = Some (leaf_node 1 3 BLACK)
  /\ oversize_twice
     = Some (Node (mkBlock 1 3 0 false) BLACK NULL (leaf_node 2 3 RED) NULL)
  /\ (t <- oversize_once ;; RBT_height t) = Some 0
  /\ (t <- oversize_twice ;; RBT_height t) = Some 1
  /\ (t <- oversize_twice ;; RBT_height t) <> (t <- oversize_once ;; RBT_height t).
Proof.
  repeat split; try (vm_compute; reflexivity). vm_compute. discriminate.
Qed.

(** ** The theorems at concrete trees *)

Ltac not_in_list := cbv; intuition discriminate.

Ltac no_dup :=
  repeat (apply NoDup_cons; [not_in_list|]); apply NoDup_nil.

Ltac same_counts :=
  let x := fresh "x" in
  let y := fresh "y" in
  let Hx := fresh "Hx" in
  let Hy := fresh "Hy" in
  intros x y Hx Hy; simpl in Hx, Hy;
  repeat (destruct Hx as [<-|Hx]); repeat (destruct Hy as [<-|Hy]);
  try reflexivity; contradiction.

Ltac well_formed_tree :=
  split;
  [split; [simpl; try exact I; reflexivity
          |split; [simpl; repeat split; discriminate
                  |split; [simpl; repeat split; intros; simpl; try discriminate; tauto
                          |same_counts]]]
  |split; [unfold chains_ok; simpl; repeat constructor
          |unfold addrs, blocks; simpl; no_dup]].

Ltac ordered_tree :=
  split; [unfold keys_sorted; simpl; repeat constructor; unfold key; simpl; lia
         |simpl; repeat constructor].

Ltac allowed_step :=
  split;
  [simpl; try exact I; try discriminate; try not_in_list
  |let t' := fresh "t" in
   let E := fresh "E" in
   intros t' E; vm_compute in E; injection E as <-].

Lemma invariant_closure_witness :
  exists roots,
    run NULL sample_ops = Some roots
    /\ length roots = length sample_ops
    /\ Forall (fun root => rb_invariant root /\ RBT_rep_ok root = true) roots.
Proof.
  apply (invariant_closure sample_ops).
  unfold sample_ops. repeat allowed_step. exact I.
Defined.

Lemma best_fit_removal_witness :
  exists t' x,
    RBT_remove_at_least sample_tree 3 (Some NULL) = Some (t', Some x)
    /\ well_formed t' /\ ordered (inorder t') /\ rb_invariant t'
    /\ (x = NULL <-> Forall (fun b => capacity b < 3) (blocks sample_tree))
    /\ (x = NULL -> t' = sample_tree)
    /\ (x <> NULL ->
        exists bx cx l1 l2,
          x = Node bx cx NULL NULL NULL
          /\ 3 <= capacity bx
          /\ Forall (fun b => 3 <= capacity b -> capacity bx <= capacity b)
               (blocks sample_tree)
          /\ blocks sample_tree = l1 ++ bx :: l2 /\ blocks t' = l1 ++ l2).
Proof.
  apply (best_fit_removal sample_tree 3 NULL); [well_formed_tree|ordered_tree].
Defined.

Lemma identity_removal_witness :
  exists t' x,
    RBT_remove_node sample_tree (handle 5 3) (Some NULL) = Some (t', Some x)
    /\ well_formed t' /\ ordered (inorder t') /\ rb_invariant t'
    /\ (ptr_eqb (handle 5 3) x = true <-> In 5 (addrs sample_tree))
    /\ (In 5 (addrs sample_tree) ->
        exists bx cx l1 l2,
          x = Node bx cx NULL NULL NULL /\ self bx = 5
          /\ blocks sample_tree = l1 ++ bx :: l2 /\ blocks t' = l1 ++ l2)
    /\ (~ In 5 (addrs sample_tree) -> x = NULL /\ t' = sample_tree).
Proof.
  apply (identity_removal sample_tree (mkBlock 5 3 0 false) BLACK NULL NULL NULL NULL);
    [well_formed_tree|ordered_tree|].
  intros b Hin Hs. simpl in Hin.
  repeat (destruct Hin as [<-|Hin]; [try discriminate Hs; try reflexivity|]).
  destruct Hin.
Defined.

Lemma add_then_remove_node_witness :
  exists t1 t2 cx,
    RBT_add sample_tree (storage 4) 4 = Some t1
    /\ RBT_remove_node t1 (handle 4 4) (Some NULL)
       = Some (t2, Some (Node (mkBlock 4 4 0 false) cx NULL NULL NULL))
    /\ inorder t2 = inorder sample_tree
    /\ well_formed t2
    /\ (In 4 (map key (inorder sample_tree)) -> t2 = sample_tree).
Proof.
  apply (add_then_remove_node sample_tree (mkBlock 4 12345 77 true) RED
           DOUBLE_BLACK_PTR DOUBLE_BLACK_PTR DOUBLE_BLACK_PTR 4 BLACK NULL NULL NULL NULL);
    [well_formed_tree|ordered_tree|not_in_list|unfold capacity_bits; lia].
Defined.

Lemma duplicate_compaction_witness :
  exists t1 tk g1 g2 chain,
    RBT_add NULL (storage 10) 100 = Some t1
    /\ add_all t1 [storage 11; storage 12] 100 = Some tk
    /\ inorder t1 = g1 ++ (mkBlock 10 100 0 false, NULL) :: g2
    /\ inorder tk = g1 ++ (mkBlock 10 100 0 false, chain) :: g2
    /\ Forall (fun g => key g <> 100) (g1 ++ g2)
    /\ chain_ok chain
    /\ length (chain_blocks chain) = 2%nat
    /\ RBT_height tk = RBT_height t1
    /\ RBT_black_height tk = RBT_black_height t1.
Proof.
  apply (duplicate_compaction NULL (mkBlock 10 12345 77 true) RED
           DOUBLE_BLACK_PTR DOUBLE_BLACK_PTR DOUBLE_BLACK_PTR
           [storage 11; storage 12] 100).
  - well_formed_tree.
  - split; constructor.
  - unfold capacity_bits; lia.
  - simpl. tauto.
  - repeat constructor.
  - unfold node_addrs. simpl. no_dup.
Defined.

Lemma two_children_removal_witness :
  exists t',
    RBT_remove_empty_root seven_nodes
    = Some (t', Node (mkBlock 4 4 0 false) BLACK NULL NULL NULL)
    /\ ((leaf_node 1 1 BLACK = NULL /\ leaf_node 3 3 BLACK = NULL
         /\ exists hole,
              take_place RED NULL = Some hole
              /\ inorder hole = []
              /\ RBT_propagate_double_blackness
                   (Node (mkBlock 2 2 0 false) BLACK hole (right_of seven_nodes) NULL)
                 = Some t')
        \/ ((leaf_node 1 1 BLACK <> NULL \/ leaf_node 3 3 BLACK <> NULL)
            /\ exists sb sc sr snx new_right,
                 leftmost (right_of seven_nodes) = Node sb sc NULL sr snx
                 /\ without_leftmost (right_of seven_nodes) = Some new_right
                 /\ inorder (right_of seven_nodes) = (sb, snx) :: inorder new_right
                 /\ RBT_propagate_double_blackness
                      (Node sb BLACK (left_of seven_nodes) new_right snx)
                    = Some t'))
    /\ inorder t' = inorder (left_of seven_nodes) ++ inorder (right_of seven_nodes)
    /\ same_weight t' seven_nodes
    /\ double_black_only_root t'
    /\ (BLACK = RED -> no_double_black t').
Proof.
  apply (two_children_removal (mkBlock 4 4 0 false) BLACK
           (mkBlock 2 2 0 false) RED (leaf_node 1 1 BLACK) (leaf_node 3 3 BLACK) NULL
           (mkBlock 6 6 0 false) RED (leaf_node 5 5 BLACK)
           (Node (mkBlock 7 7 0 false) BLACK NULL (leaf_node 8 8 RED) NULL) NULL
           NULL).
  - simpl. repeat split; discriminate.
  - simpl. repeat split; intros; simpl; try discriminate; tauto.
  - same_counts.
  - unfold tree_addrs. simpl. no_dup.
Defined.

Lemma removed_is_detached_witness :
  ((exists bx cx, leaf_node 5 3 BLACK = Node bx cx NULL NULL NULL)
   /\ ptr_eqb (leaf_node 5 3 BLACK) sample_tree_less_5 = false)
  /\ ((exists bx cx, leaf_node 1 1 RED = Node bx cx NULL NULL NULL)
      /\ ptr_eqb (leaf_node 1 1 RED)
           (Node (mkBlock 2 2 0 false) BLACK NULL
              (Node (mkBlock 3 3 0 false) RED NULL NULL (leaf_node 5 3 BLACK)) NULL)
         = false).
Proof.
  assert (WF : well_formed sample_tree) by well_formed_tree.
  split.
  - apply (proj1 (removed_is_detached sample_tree WF) 3 NULL);
      [vm_compute; reflexivity|discriminate].
  - apply (proj2 (removed_is_detached sample_tree WF) (handle 1 1) NULL);
      [vm_compute; reflexivity|discriminate].
Defined.

Lemma payload_preserved_witness :
  Permutation (blocks sample_tree)
    (stored (Some (leaf_node 5 3 BLACK)) ++ blocks sample_tree_less_5)
  /\ Permutation (blocks sample_tree)
       (stored (Some (leaf_node 5 3 BLACK)) ++ blocks sample_tree_less_5)
  /\ (RBT_remove_at_least (map_blocks mark_in_use sample_tree) 3 (Some NULL)
      = option_map (map_result mark_in_use)
          (RBT_remove_at_least sample_tree 3 (Some NULL))
      /\ RBT_remove_node (map_blocks mark_in_use sample_tree)
           (map_blocks mark_in_use (handle 5 3)) (Some NULL)
         = option_map (map_result mark_in_use)
             (RBT_remove_node sample_tree (handle 5 3) (Some NULL)))
  /\ (RBT_remove_root (map_blocks clear_capacity sample_tree)
      = option_map (map_pair clear_capacity) (RBT_remove_root sample_tree)
      /\ RBT_remove_node_root (map_blocks clear_capacity sample_tree)
           (map_blocks clear_capacity (handle 5 3))
         = option_map (map_pair clear_capacity)
             (RBT_remove_node_root sample_tree (handle 5 3))
      /\ RBT_propagate_double_blackness (map_blocks clear_capacity sample_tree)
         = option_map (map_blocks clear_capacity)
             (RBT_propagate_double_blackness sample_tree))
  /\ (exists r, RBT_remove_at_least sample_tree 3 (Some NULL) = Some r)
  /\ (exists r, RBT_remove_node sample_tree (handle 5 3) (Some NULL) = Some r).
Proof.
  destruct (payload_preserved sample_tree 3 (handle 5 3) (Some NULL))
    as (H1 & H2 & H3 & H4 & H5).
  split; [apply H1; vm_compute; reflexivity|].
  split; [apply H2; vm_compute; reflexivity|].
  split; [apply (H3 mark_in_use); intros b; split; reflexivity|].
  split; [apply (H4 clear_capacity); intros b; reflexivity|].
  apply H5; [well_formed_tree|discriminate].
Defined.

(** * Further properties of the library *)

(** ** The invariant checker *)

Lemma checkers_is_rb : forall t,
  RBT_double_blackness_ok t = true -> RBT_red_red_ok t = true ->
  RBT_black_height_ok t = true ->
  exists c n, is_rb t c n.
Proof.
  induction t as [| |b col l IHl r IHr nx _]; intros Hd Hr Hb.
  - exists BLACK, O. constructor.
  - discriminate.
  - simpl in Hd, Hr. cbn [RBT_black_height_ok] in Hb.
    apply andb_prop in Hd. destruct Hd as [Hd Hdr].
    apply andb_prop in Hd. destruct Hd as [Hcol Hdl].
    apply andb_prop in Hr. destruct Hr as [Hr Hrr].
    apply andb_prop in Hr. destruct Hr as [Hred Hrl].
    destruct (RBT_black_height l) as [lh|] eqn:Elh; [|discriminate].
    destruct (RBT_black_height r) as [rh|] eqn:Erh; [|discriminate].
    destruct (leaf_or_color_is l BLACK) as [lb|] eqn:Elb; [|discriminate].
    destruct (leaf_or_color_is r BLACK) as [rb|] eqn:Erb; [|discriminate].
    apply andb_prop in Hb. destruct Hb as [Hb Hbr].
    apply andb_prop in Hb. destruct Hb as [Heq Hbl].
    apply Z.eqb_eq in Heq.
    destruct (IHl Hdl Hrl Hbl) as (cl & nl & Rl).
    destruct (IHr Hdr Hrr Hbr) as (cr & nr & Rr).
    rewrite (black_height_is_rb _ _ _ Rl) in Elh.
    rewrite (black_height_is_rb _ _ _ Rr) in Erh.
    rewrite (leaf_or_color_black _ _ _ Rl) in Elb.
    rewrite (leaf_or_color_black _ _ _ Rr) in Erb.
    inv Elh. inv Erh. inv Elb. inv Erb.
    pose proof (is_rb_color _ _ _ Rl) as Cl.
    pose proof (is_rb_color _ _ _ Rr) as Cr.
    assert (nl = nr) as <-.
    { destruct cl, cr; simpl in Heq; try congruence; lia. }
    destruct col; simpl in Hcol; [| |discriminate].
    + exists BLACK, (S nl). econstructor; eassumption.
    + simpl in Hred. apply andb_prop in Hred. destruct Hred as [H1 H2].
      destruct cl; simpl in H1; try discriminate.
      destruct cr; simpl in H2; try discriminate.
      exists RED, nl. constructor; assumption.
Qed.

(** X1. [RBT_rep_ok] returns normally exactly on the trees that satisfy the
    red-black invariant: the root is BLACK or the tree is empty, there is no
    doubly-black node or leaf, no RED node has a RED child, and all paths
    from the root to a leaf count the same number of BLACK nodes.  On every
    other tree it raises SIGABRT.  The check of the black heights compares,
    at every node, the counts along the leftmost paths of the two
    children, which is enough. *)
Theorem rep_ok_decides_invariant t :
  RBT_rep_ok t = true <-> rb_invariant t.
Proof.
  split.
  - intros H. destruct t as [| |b col l r nx].
    + apply (is_rb_invariant NULL O). constructor.
    + discriminate.
    + unfold RBT_rep_ok in H.
      apply andb_prop in H. destruct H as [H Hb].
      apply andb_prop in H. destruct H as [H Hr].
      apply andb_prop in H. destruct H as [H Hd].
      apply andb_prop in H. destruct H as [_ Hc].
      destruct (checkers_is_rb _ Hd Hr Hb) as (c & n & R).
      assert (c = col) by (inv R; reflexivity). subst c.
      destruct col; try discriminate.
      eapply is_rb_invariant. exact R.
  - intros (Hroot & Hdb & Hrr & Hsb).
    destruct (invariant_is_rb _ Hdb Hrr Hsb) as (c & n & R).
    destruct t as [| |b col l r nx]; [reflexivity|destruct Hroot|].
    simpl in Hroot. subst col.
    assert (c = BLACK) by (inv R; reflexivity). subst c.
    eapply is_rb_rep_ok. exact R.
Qed.

(** ** Balance *)

Lemma is_rb_black_node_height b c l r nx n :
  is_rb (Node b c l r nx) BLACK n -> (1 <= n)%nat.
Proof. intros H. inv H. lia. Qed.

Lemma height_is_rb t c n :
  is_rb t c n ->
  exists h, RBT_height t = Some h /\ 0 <= h
            /\ (is_node t ->
                h + 1 <= 2 * Z.of_nat n + (if color_eqb c RED then 1 else 0)).
Proof.
  induction 1 as [|b l r nx n Hl IHl Hr IHr|b l r nx cl cr n Hl IHl Hr IHr].
  - exists 0. simpl. split; [reflexivity|]. split; [lia|]. intros [].
  - destruct IHl as (hl & El & Pl & Bl). destruct IHr as (hr & Er & Pr & Br).
    cbn [RBT_height]. rewrite El, Er.
    destruct l as [| |lb lc ll lr lnx]; [|inv Hl|];
      (destruct r as [| |rb rc rl rr rnx]; [|inv Hr|]);
      cbn [is_null andb bind color_eqb].
    + exists 0. split; [reflexivity|]. split; lia.
    + apply is_rb_black_node_height in Hr. inv Hl. exfalso. lia.
    + apply is_rb_black_node_height in Hl. inv Hr. exfalso. lia.
    + specialize (Bl I). specialize (Br I). cbn [color_eqb] in Bl, Br.
      destruct (1 + hl >? 1 + hr) eqn:G; eexists; (split; [reflexivity|]);
        split; try lia; intros _; lia.
  - destruct IHl as (hl & El & Pl & Bl). destruct IHr as (hr & Er & Pr & Br).
    cbn [RBT_height]. rewrite El, Er.
    assert (Cl : (if color_eqb cl RED then 1 else 0) <= 1) by (destruct cl; simpl; lia).
    assert (Cr : (if color_eqb cr RED then 1 else 0) <= 1) by (destruct cr; simpl; lia).
    destruct l as [| |lb lc ll lr lnx]; [|inv Hl|];
      (destruct r as [| |rb rc rl rr rnx]; [|inv Hr|]);
      cbn [is_null andb bind color_eqb].
    + exists 0. split; [reflexivity|]. split; lia.
    + specialize (Br I). simpl in El. inv El.
      destruct (1 + 0 >? 1 + hr) eqn:G; eexists; (split; [reflexivity|]);
        split; try lia; intros _; lia.
    + specialize (Bl I). simpl in Er. inv Er.
      destruct (1 + hl >? 1 + 0) eqn:G; eexists; (split; [reflexivity|]);
        split; try lia; intros _; lia.
    + specialize (Bl I). specialize (Br I).
      destruct (1 + hl >? 1 + hr) eqn:G; eexists; (split; [reflexivity|]);
        split; try lia; intros _; lia.
Qed.

Lemma size_is_rb t c n :
  is_rb t c n -> 2 ^ Z.of_nat n <= Z.of_nat (RBT_size t) + 1.
Proof.
  induction 1 as [|b l r nx n Hl IHl Hr IHr|b l r nx cl cr n Hl IHl Hr IHr].
  - simpl. lia.
  - simpl RBT_size. assert (0 < 2 ^ Z.of_nat n) by (apply Z.pow_pos_nonneg; lia). lia.
  - simpl RBT_size. rewrite Nat2Z.inj_succ, Z.pow_succ_r by lia. lia.
Qed.

(** X2. A tree that satisfies the red-black invariant is balanced: its
    [RBT_height] is at most twice its [RBT_black_height] (less one when the
    tree is not empty), and a tree of black height [k] has at least
    [2 ^ k - 1] tree nodes, so the height is at most twice the binary
    logarithm of the number of tree nodes plus one.  Neither function
    faults on such a tree. *)
Theorem height_logarithmic t :
  rb_invariant t ->
  exists h k,
    RBT_height t = Some h /\ RBT_black_height t = Some k
    /\ 0 <= h <= 2 * k
    /\ (is_node t -> h + 1 <= 2 * k)
    /\ 2 ^ k <= Z.of_nat (RBT_size t) + 1
    /\ h <= 2 * Z.log2 (Z.of_nat (RBT_size t) + 1).
Proof.
  intros (Hroot & Hdb & Hrr & Hsb).
  destruct (invariant_is_rb _ Hdb Hrr Hsb) as (c & n & R).
  assert (c = BLACK).
  { destruct t as [| |b col l r nx]; [inv R; reflexivity|destruct Hroot|].
    simpl in Hroot. subst col. inv R; reflexivity. }
  subst c.
  destruct (height_is_rb _ _ _ R) as (h & Eh & Ph & Bh). cbn [color_eqb] in Bh.
  pose proof (size_is_rb _ _ _ R) as Hs.
  pose proof (black_height_is_rb _ _ _ R) as Ek. cbn [color_eqb] in Ek.
  rewrite Z.add_0_r in Ek.
  exists h, (Z.of_nat n). split; [exact Eh|]. split; [exact Ek|].
  assert (Hk : h <= 2 * Z.of_nat n).
  { destruct t as [| |b col l r nx]; [simpl in Eh; inv Eh; lia|destruct Hroot|].
    specialize (Bh I). lia. }
  split; [lia|]. split; [intros Hn; specialize (Bh Hn); lia|]. split; [exact Hs|].
  assert (Z.of_nat n <= Z.log2 (Z.of_nat (RBT_size t) + 1)).
  { apply Z.log2_le_pow2; lia. }
  lia.
Qed.

(** X3. [RBT_black_height] returns 0 for the empty tree only: for every
    node it returns at least 1, or faults on a doubly-black leaf along the
    leftmost path.  The loop [while (RBT_black_height(tree) != 0)] of the
    tests therefore runs until the tree is empty. *)
Theorem black_height_zero_iff_empty t :
  (RBT_black_height t = Some 0 <-> t = NULL)
  /\ (forall k, RBT_black_height t = Some k -> is_node t -> 1 <= k).
Proof.
  assert (P : forall u k, RBT_black_height u = Some k -> is_node u -> 1 <= k).
  { induction u as [| |b c l IHl r _ nx _]; intros k E Hn; try destruct Hn.
    destruct l as [| |lb lc ll lr lnx].
    - simpl in E. inv E. lia.
    - discriminate.
    - rewrite black_height_node in E. unfold bind in E.
      destruct (RBT_black_height (Node lb lc ll lr lnx)) as [h|] eqn:Eh; [|discriminate].
      specialize (IHl _ eq_refl I).
      destruct (color_eqb lc BLACK);
        [assert (k = 1 + h) by congruence|assert (k = h) by congruence]; lia. }
  split; [|apply P].
  split.
  - intros E. destruct t as [| |b c l r nx]; [reflexivity|discriminate|].
    specialize (P _ _ E I). lia.
  - intros ->. reflexivity.
Qed.

(** ** Termination of the propagation *)

Lemma propagate_fuel_enough : forall f1 f2 t,
  (RBT_size t < f1)%nat -> (RBT_size t < f2)%nat ->
  propagate_fuel f1 t = propagate_fuel f2 t.
Proof.
  induction f1 as [|f1 IH]; intros f2 t H1 H2; [lia|].
  destruct f2 as [|f2]; [lia|].
  destruct t as [| |b c l r nx]; try reflexivity.
  cbn [propagate_fuel].
  destruct (is_double_black l).
  - destruct r as [| |rb rc rl rr rnx]; try reflexivity.
    destruct (color_eqb rc RED); [|reflexivity].
    rewrite (IH f2); [reflexivity| |]; simpl in *; lia.
  - destruct (is_double_black r); [|reflexivity].
    destruct l as [| |lb lc ll lr lnx]; try reflexivity.
    destruct (color_eqb lc RED); [|reflexivity].
    rewrite (IH f2); [reflexivity| |]; simpl in *; lia.
Qed.

(** X4. [RBT_propagate_double_blackness] does what rbt.c says of it.  On
    a node that is not doubly black, with one subtree doubly black at its
    root and the other red-black with as much black (and BLACK when the
    node is RED), the function returns a tree without a fault; its
    recursion terminates, every recursion depth above the number of tree
    nodes giving that same tree.  The tree returned holds the same nodes in
    the same order and counts on every path the black counted before:
    either a rotation absorbed the deficiency, or the deficiency is at the
    root, the only place where the tree returned can be doubly black, and
    never when the node was RED. *)
Theorem propagate_terminates b c l r nx n cs :
  c <> DOUBLE_BLACK -> (c = RED -> cs = BLACK) ->
  (is_dbl l n /\ is_rb r cs n) \/ (is_rb l cs n /\ is_dbl r n) ->
  exists t',
    (forall fuel, (RBT_size (Node b c l r nx) < fuel)%nat ->
                  propagate_fuel fuel (Node b c l r nx) = Some t')
    /\ RBT_propagate_double_blackness (Node b c l r nx) = Some t'
    /\ inorder t' = inorder (Node b c l r nx)
    /\ same_weight t' (Node b c l r nx)
    /\ double_black_only_root t'
    /\ (c = RED -> no_double_black t').
Proof.
  intros Hc Hred Hcase.
  assert (Hw : forall y, In y (path_weights (Node b c l r nx)) -> y = up c n).
  { intros y Hy. cbn [path_weights] in Hy. apply in_map_iff in Hy.
    destruct Hy as (z & <- & Hz).
    assert (z = n).
    { apply in_app_or in Hz.
      destruct Hcase as [[Hl Hr]|[Hl Hr]]; destruct Hz as [Hz|Hz];
        first [exact (is_dbl_weights _ _ Hl _ Hz) | exact (is_rb_weights _ _ _ Hl _ Hz)
              |exact (is_dbl_weights _ _ Hr _ Hz) | exact (is_rb_weights _ _ _ Hr _ Hz)]. }
    subst z. destruct c; [reflexivity|reflexivity|congruence]. }
  assert (Hres : exists t', RBT_propagate_double_blackness (Node b c l r nx) = Some t'
                            /\ del_res c (up c n) t').
  { destruct Hcase as [[Hl Hr]|[Hl Hr]].
    - apply (propagate_left b c l r nx BLACK cs n); auto.
      apply dr_dbl; [reflexivity|exact Hl].
    - apply (propagate_right b c l r nx cs BLACK n); auto.
      apply dr_dbl; [reflexivity|exact Hr]. }
  destruct Hres as (t' & E & Hres).
  exists t'. split.
  { intros fuel Hf. rewrite <- E. unfold RBT_propagate_double_blackness.
    apply propagate_fuel_enough; lia. }
  split; [exact E|]. split; [apply propagate_inorder; exact E|].
  split.
  { intros x y Hx Hy. rewrite (del_res_weights _ _ _ Hres x Hx). symmetry. apply Hw, Hy. }
  apply (del_res_only_root _ _ _ Hres).
Qed.

(** ** Insertion *)

(** X5. On a well-formed tree, [RBT_add] of a node that is not in the tree
    never fails and never returns NULL.  Whatever the storage held before,
    the node is stored with the low 30 bits of the capacity passed,
    [prev_dist] 0 and [in_use] false; every node stored before is still
    stored, with its fields as they were, and the tree returned is
    well-formed again. *)
Theorem add_stores_node t nb nc nl nr nnx cap :
  well_formed t -> ~ In (self nb) (addrs t) ->
  exists t',
    RBT_add t (Node nb nc nl nr nnx) cap = Some t'
    /\ t' <> NULL
    /\ well_formed t'
    /\ Permutation (blocks t')
         (mkBlock (self nb) (cap mod 2 ^ 30) 0 false :: blocks t)
    /\ length (blocks t') = S (length (blocks t)).
Proof.
  intros WF Hfresh.
  destruct (RBT_add_well_formed t nb nc nl nr nnx cap WF Hfresh)
    as (t' & E & WF' & Hn & P).
  exists t'. split; [exact E|]. split; [intros ->; destruct Hn|].
  split; [exact WF'|]. split; [exact P|].
  apply Permutation_length in P. exact P.
Qed.

(** X6. The search-tree order is kept by every operation.  Along any
    sequence of [RBT_add], [RBT_remove_at_least] and [RBT_remove_node]
    started on the empty tree, in which the capacities inserted are below
    2^30 and the storage inserted is not in the tree at that time, no call
    faults, and after each call the capacities of the tree nodes increase
    strictly from left to right, every member of a bucket list has the
    capacity of its tree node, the bucket lists are made of nodes without
    children, and no node is stored twice. *)
Theorem search_order_closure ops :
  allowed_run NULL ops -> Forall capacity_fits ops ->
  exists roots,
    run NULL ops = Some roots
    /\ length roots = length ops
    /\ Forall (fun root =>
                 keys_sorted (inorder root)
                 /\ Forall bucket_keys_ok (inorder root)
                 /\ chains_ok (inorder root)
                 /\ NoDup (addrs root)) roots.
Proof.
  intros Ha Hc.
  destruct (run_ordered ops NULL well_formed_empty) as (roots & E & F); auto.
  { split; constructor. }
  destruct (run_well_formed ops NULL well_formed_empty Ha) as (roots' & E' & L & _).
  rewrite E in E'. inv E'.
  exists roots'. split; [exact E|]. split; [exact L|].
  eapply Forall_impl; [|exact F]. simpl.
  intros root ((_ & Hch & ND) & Hs & Hb). auto.
Qed.

(** ** Printing *)

Lemma list_print_chain : forall ch,
  chain_ok ch -> RBT_list_print ch = Some (capacities (chain_blocks ch)).
Proof.
  induction ch as [| |b c l _ r _ nx IH]; simpl; intros H.
  - reflexivity.
  - destruct H.
  - destruct H as (_ & _ & H). rewrite (IH H). reflexivity.
Qed.

Lemma in_order_print_blocks : forall t,
  no_double_black t -> chains_ok (inorder t) ->
  RBT_in_order_print t = Some (capacities (blocks t)).
Proof.
  induction t as [| |b c l IHl r IHr nx _]; intros Hd Hch.
  - reflexivity.
  - destruct Hd.
  - destruct Hd as (_ & Hl & Hr).
    destruct (chains_ok_node _ _ _ _ _ Hch) as (Cl & Cnx & Cr).
    cbn [RBT_in_order_print]. rewrite (IHl Hl Cl), (IHr Hr Cr), (list_print_chain _ Cnx).
    unfold bind, capacities. rewrite blocks_node, !map_app. reflexivity.
Qed.

Lemma sorted_le_app (l1 l2 : list Z) :
  StronglySorted Z.le l1 -> StronglySorted Z.le l2 ->
  (forall x y, In x l1 -> In y l2 -> x <= y) ->
  StronglySorted Z.le (l1 ++ l2).
Proof.
  induction l1 as [|a l1 IH]; simpl; intros S1 S2 H; [exact S2|].
  inv S1. constructor.
  - apply IH; auto.
  - apply Forall_app. split; [assumption|].
    apply Forall_forall. intros y Hy. apply H; auto.
Qed.

Lemma sorted_le_constant (l : list Z) k :
  Forall (fun x => x = k) l -> StronglySorted Z.le l.
Proof.
  induction 1 as [|x l -> F IH]; constructor; [exact IH|].
  eapply Forall_impl; [|exact F]. simpl. intros; lia.
Qed.

Lemma ordered_capacities gs :
  ordered gs -> StronglySorted Z.le (capacities (blocks_of gs)).
Proof.
  induction gs as [|g gs IH]; intros Ho; [constructor|].
  destruct (ordered_split [] g gs Ho) as (_ & Fg & F2 & _ & S2).
  assert (Ho' : ordered gs).
  { destruct Ho as [S F]. inv S. inv F. split; assumption. }
  change (blocks_of (g :: gs)) with (group_blocks g ++ blocks_of gs).
  unfold capacities. rewrite map_app. apply sorted_le_app.
  - apply (sorted_le_constant _ (key g)). rewrite Forall_map. unfold group_blocks.
    constructor; [reflexivity|exact Fg].
  - apply IH. exact Ho'.
  - intros x y Hx Hy.
    apply in_map_iff in Hx. destruct Hx as (bx & <- & Hx).
    apply in_map_iff in Hy. destruct Hy as (by' & <- & Hy).
    pose proof (blocks_of_capacity (fun z => key g < z) _ F2 S2) as Hc.
    rewrite Forall_forall in Hc. specialize (Hc _ Hy). simpl in Hc.
    assert (capacity bx = key g); [|lia].
    unfold group_blocks in Hx. destruct Hx as [<-|Hx]; [reflexivity|].
    unfold bucket_keys_ok in Fg. rewrite Forall_forall in Fg. apply Fg. exact Hx.
Qed.

(** X7. On a well-formed tree, [RBT_in_order_print] writes the capacity of
    every stored node, bucket members included (a capacity stored several
    times is written as many times), and nothing else.  When the tree is in
    order the capacities come out in non-decreasing order. *)
Theorem in_order_print_sorted t :
  well_formed t ->
  exists out,
    RBT_in_order_print t = Some out
    /\ out = capacities (blocks t)
    /\ length out = length (blocks t)
    /\ (ordered (inorder t) -> StronglySorted Z.le out).
Proof.
  intros ((_ & Hd & _) & Hch & _).
  exists (capacities (blocks t)). split; [apply in_order_print_blocks; assumption|].
  split; [reflexivity|]. split; [apply length_map|].
  intros Ho. apply ordered_capacities. exact Ho.
Qed.

(** ** Freeing *)

Lemma uint_range n : 0 <= uint n < 2 ^ uint_bits.
Proof. unfold uint. apply Z.mod_pos_bound. reflexivity. Qed.

Lemma uint_small n : 0 <= n < 2 ^ uint_bits -> uint n = n.
Proof. apply Z.mod_small. Qed.

Lemma uint_sub_idemp a b : uint (uint a - b) = uint (a - b).
Proof. unfold uint. apply Zminus_mod_idemp_l. Qed.

Lemma uint_add_idemp a b : uint (uint a + b) = uint (a + b).
Proof. unfold uint. apply Zplus_mod_idemp_l. Qed.

Section Freeing.
Variable track : bool.

Lemma released_nil s : counter_ok s -> released track [] s = s.
Proof.
  intros H. unfold released. rewrite app_nil_r. destruct s as [f n]. simpl in *.
  destruct track; [|reflexivity].
  change (Z.of_nat 0) with 0. rewrite Z.sub_0_r, uint_small by exact H. reflexivity.
Qed.

Lemma released_counter_ok l s : counter_ok s -> counter_ok (released track l s).
Proof.
  intros H. unfold counter_ok, released. simpl.
  destruct track; [apply uint_range|exact H].
Qed.

Lemma released_app l1 l2 s :
  released track l2 (released track l1 s) = released track (l1 ++ l2) s.
Proof.
  unfold released. simpl. rewrite <- app_assoc. apply f_equal.
  destruct track; [|reflexivity].
  rewrite uint_sub_idemp, length_app, Nat2Z.inj_add. apply f_equal. lia.
Qed.

Lemma free_one b s : count_down track (free b s) = released track [self b] s.
Proof. unfold count_down, free, released. destruct track; reflexivity. Qed.

Lemma free_list_released : forall ch s,
  chain_ok ch -> counter_ok s ->
  RBT_free_list track ch s = Some (released track (map self (chain_blocks ch)) s).
Proof.
  induction ch as [| |b c l _ r _ nx IH]; intros s H Hs.
  - simpl. rewrite released_nil by exact Hs. reflexivity.
  - destruct H.
  - destruct H as (_ & _ & H). cbn [RBT_free_list chain_blocks map].
    rewrite free_one, IH; [|exact H|apply released_counter_ok; exact Hs].
    rewrite released_app. reflexivity.
Qed.

Lemma free_released : forall t s,
  no_double_black t -> chains_ok (inorder t) -> counter_ok s ->
  RBT_free track t s = Some (released track (free_order t) s).
Proof.
  induction t as [| |b c l IHl r IHr nx _]; intros s Hd Hch Hs.
  - simpl. rewrite released_nil by exact Hs. reflexivity.
  - destruct Hd.
  - destruct Hd as (_ & Hl & Hr).
    destruct (chains_ok_node _ _ _ _ _ Hch) as (Cl & Cnx & Cr).
    cbn [RBT_free free_order]. rewrite (IHl s Hl Cl Hs). unfold bind.
    rewrite free_list_released; [|exact Cnx|apply released_counter_ok; exact Hs].
    rewrite IHr; [|exact Hr|exact Cr|repeat apply released_counter_ok; exact Hs].
    rewrite free_one, !released_app, <- ?app_assoc. reflexivity.
Qed.

End Freeing.

Lemma free_order_addrs t : Permutation (free_order t) (addrs t).
Proof.
  induction t as [| |b c l IHl r IHr nx _]; try constructor.
  unfold addrs in *. rewrite blocks_node, !map_app. cbn [free_order map].
  rewrite IHl. apply Permutation_app_head.
  rewrite (Permutation_app_comm (free_order r) [self b]). simpl.
  rewrite <- IHr. symmetry. apply Permutation_middle.
Qed.

Lemma free_tracked t s :
  well_formed t -> counter_ok s ->
  RBT_free true t s = Some (released true (free_order t) s)
  /\ length (free_order t) = length (blocks t).
Proof.
  intros ((_ & Hd & _) & Hch & ND) Hs.
  split; [apply free_released; assumption|].
  rewrite (Permutation_length (free_order_addrs t)). unfold addrs. apply length_map.
Qed.

(** X8. On a well-formed tree, [RBT_free] calls [free] exactly once on
    every node stored in the tree, tree nodes and bucket members alike,
    and on nothing else, each node after the nodes below it; nothing is
    freed twice.  With ALLOC_TRACK the counter goes down by the number of
    nodes (modulo 2^32); without it the counter is left alone. *)
Theorem free_releases_every_node track t s :
  well_formed t -> counter_ok s ->
  RBT_free track t s = Some (released track (free_order t) s)
  /\ Permutation (free_order t) (addrs t)
  /\ NoDup (free_order t)
  /\ length (free_order t) = length (blocks t).
Proof.
  intros ((_ & Hd & _) & Hch & ND) Hs.
  split; [apply free_released; assumption|].
  pose proof (free_order_addrs t) as P.
  split; [exact P|]. split.
  - eapply Permutation_NoDup; [symmetry; exact P|exact ND].
  - rewrite (Permutation_length P). unfold addrs. apply length_map.
Qed.

(** ** Allocation tracking *)

Lemma add_counted_add track t node cap s :
  RBT_add_counted track t node cap s
  = (t' <- RBT_add t node cap ;;
     Some (t', if is_null node then s else count_up track s)).
Proof.
  unfold RBT_add_counted, RBT_add. destruct (is_null node); [reflexivity|].
  unfold bind. destruct (RBT_add_inner t node cap) as [t1|]; [|reflexivity].
  destruct (set_color t1 BLACK); reflexivity.
Qed.

Lemma free_detached bx cx s :
  RBT_free true (Node bx cx NULL NULL NULL) s
  = Some (mkAlloc (freed s ++ [self bx]) (uint (NUM_NODES s - 1))).
Proof. reflexivity. Qed.

Lemma count_after_removal (n n' : Z) (l1 l2 : list block) (bx : block) :
  n' = uint (n - 1) ->
  uint (n' - Z.of_nat (length (l1 ++ l2)))
  = uint (n - Z.of_nat (length (l1 ++ bx :: l2))).
Proof.
  intros ->. rewrite uint_sub_idemp, !length_app. simpl length.
  apply f_equal. lia.
Qed.

Lemma step_freeing_count t s o :
  well_formed t -> allowed t o -> counter_ok s ->
  exists t' s',
    step_freeing true t s o = Some (t', s')
    /\ step t o = Some t'
    /\ well_formed t' /\ counter_ok s'
    /\ uint (NUM_NODES s' - Z.of_nat (length (blocks t')))
       = uint (NUM_NODES s - Z.of_nat (length (blocks t))).
Proof.
  intros WF Ha Hs. destruct o as [node cap|cap removed|node removed].
  - cbn [step_freeing step]. rewrite add_counted_add.
    destruct node as [| |nb nc nl nr nnx]; [|destruct Ha|].
    + exists t, s. auto.
    + destruct (RBT_add_well_formed t nb nc nl nr nnx cap WF Ha) as (t' & E & WF' & _ & P).
      rewrite E. cbn [bind is_null].
      exists t', (count_up true s). split; [reflexivity|]. split; [reflexivity|].
      split; [exact WF'|]. split; [apply uint_range|].
      apply Permutation_length in P. rewrite P. cbn [count_up NUM_NODES length].
      rewrite uint_sub_idemp. apply f_equal. lia.
  - cbn [step_freeing step]. destruct removed as [cell|].
    + destruct (RBT_remove_at_least_well_formed t cap cell WF)
        as (t' & x & E & WF' & [(-> & -> & _)|(g1 & g & g2 & og & Hi & G & Hi' & _)]).
      * rewrite E. exists t, s. auto.
      * destruct (well_formed_parts _ WF) as (_ & Hch & ND).
        destruct (removal_facts _ _ _ _ _ _ _ Hch ND Hi G Hi')
          as (_ & _ & bx & cx & l1 & l2 & -> & B & B' & _).
        rewrite E. cbn [bind option_map fst free_removed]. rewrite free_detached.
        eexists _, _. split; [reflexivity|]. split; [reflexivity|].
        split; [exact WF'|]. split; [apply uint_range|].
        rewrite B, B'. apply count_after_removal. reflexivity.
    + simpl. exists t, s. auto.
  - cbn [step_freeing step]. destruct removed as [cell|]; [|simpl; exists t, s; auto].
    destruct node as [| |nb nc nl nr nnx]; [simpl; exists t, s; auto|congruence|].
    destruct (RBT_remove_node_well_formed t nb nc nl nr nnx cell WF)
      as (t' & x & E & WF' & [(-> & -> & _)|(g1 & g & g2 & og & Hi & G & Hi' & _)]).
    + rewrite E. exists t, s. auto.
    + destruct (well_formed_parts _ WF) as (_ & Hch & ND).
      destruct (removal_facts _ _ _ _ _ _ _ Hch ND Hi G Hi')
        as (_ & _ & bx & cx & l1 & l2 & -> & B & B' & _).
      rewrite E. cbn [bind option_map fst free_removed]. rewrite free_detached.
      eexists _, _. split; [reflexivity|]. split; [reflexivity|].
      split; [exact WF'|]. split; [apply uint_range|].
      rewrite B, B'. apply count_after_removal. reflexivity.
Qed.

Lemma run_freeing_count ops : forall t s,
  well_formed t -> allowed_run t ops -> counter_ok s ->
  exists t' s',
    run_freeing true t s ops = Some (t', s')
    /\ well_formed t' /\ counter_ok s'
    /\ uint (NUM_NODES s' - Z.of_nat (length (blocks t')))
       = uint (NUM_NODES s - Z.of_nat (length (blocks t))).
Proof.
  induction ops as [|o ops IH]; intros t s WF Ha Hs.
  - exists t, s. auto.
  - destruct Ha as [Ho Hrest].
    destruct (step_freeing_count t s o WF Ho Hs) as (t1 & s1 & E1 & St & WF1 & Hs1 & C1).
    destruct (IH t1 s1 WF1 (Hrest _ St) Hs1) as (t' & s' & E & WF' & Hs' & C).
    exists t', s'. cbn [run_freeing]. rewrite E1. cbn [bind].
    split; [exact E|]. split; [exact WF'|]. split; [exact Hs'|]. congruence.
Qed.

(** X9. Allocation tracking balances.  Start from the empty tree with the
    counter of the ALLOC_TRACK build at any value, run any sequence of
    [RBT_add], [RBT_remove_at_least] and [RBT_remove_node] in which the
    storage inserted is not in the tree at that time, and call [RBT_free]
    on the node stored by each removal, as the tests do.  Then at the end
    [RBT_num_nodes] exceeds its initial value by the number of nodes in the
    tree (modulo 2^32), and [RBT_free] of the tree brings it back to the
    initial value. *)
Theorem num_nodes_balance ops s :
  allowed_run NULL ops -> counter_ok s ->
  exists t s' s'',
    run_freeing true NULL s ops = Some (t, s')
    /\ RBT_num_nodes true s'
       = uint (RBT_num_nodes true s + Z.of_nat (length (blocks t)))
    /\ RBT_free true t s' = Some s''
    /\ RBT_num_nodes true s'' = RBT_num_nodes true s.
Proof.
  intros Ha Hs.
  destruct (run_freeing_count ops NULL s well_formed_empty Ha Hs)
    as (t & s' & E & WF & Hs' & C).
  destruct (free_tracked t s' WF Hs') as (E' & L).
  exists t, s', (released true (free_order t) s').
  split; [exact E|]. cbn [RBT_num_nodes]. split; [|split; [exact E'|]].
  - simpl in C. rewrite Z.sub_0_r, (uint_small (NUM_NODES s)) in C by exact Hs.
    rewrite <- C, uint_add_idemp.
    replace (NUM_NODES s' - Z.of_nat (length (blocks t)) + Z.of_nat (length (blocks t)))
      with (NUM_NODES s') by lia.
    symmetry. apply uint_small. exact Hs'.
  - unfold released. cbn [NUM_NODES]. rewrite L, C. simpl.
    rewrite Z.sub_0_r. apply uint_small. exact Hs.
Qed.

(** ** Best fit, repeated *)

Lemma remove_at_least_fit t k cell :
  well_formed t -> ordered (inorder t) ->
  exists t' x,
    RBT_remove_at_least t k (Some cell) = Some (t', Some x)
    /\ well_formed t' /\ ordered (inorder t')
    /\ ((x = NULL /\ t' = t /\ Forall (fun b => capacity b < k) (blocks t))
        \/ (exists bx cx l1 l2,
              x = Node bx cx NULL NULL NULL
              /\ k <= capacity bx
              /\ Forall (fun b => k <= capacity b -> capacity bx <= capacity b)
                   (blocks t)
              /\ blocks t = l1 ++ bx :: l2 /\ blocks t' = l1 ++ l2)).
Proof.
  intros WF Ho.
  destruct (RBT_remove_at_least_well_formed t k cell WF)
    as (t' & x & E & WF' & [(-> & -> & Hall)|(g1 & g & g2 & og & Hi & G & Hi' & Hpos)]).
  - exists t, NULL. split; [exact E|]. split; [exact WF'|]. split; [exact Ho|].
    left. split; [reflexivity|]. split; [reflexivity|].
    destruct Ho as [S F]. apply (blocks_of_capacity (fun z => z < k)); auto.
  - exists t', x. split; [exact E|]. split; [exact WF'|].
    destruct (well_formed_parts _ WF) as (_ & Hch & ND).
    destruct (removal_facts _ _ _ _ _ _ _ Hch ND Hi G Hi')
      as (_ & _ & bx & cx & l1 & l2 & -> & B & B' & _).
    destruct (Hpos (proj1 Ho)) as [P1 P2].
    pose proof Ho as Ho1. rewrite Hi in Ho1.
    destruct (ordered_split _ _ _ Ho1) as (F1 & Fg & F2 & S1 & S2).
    pose proof (group_removed_capacity _ _ _ bx G Fg eq_refl) as Hcap.
    split; [rewrite Hi'; eapply removed_ordered; eauto|].
    right. exists bx, cx, l1, l2. split; [reflexivity|]. split; [lia|].
    split; [|auto].
    unfold blocks. rewrite Hi, blocks_of_app.
    change (blocks_of (g :: g2)) with (group_blocks g ++ blocks_of g2).
    apply Forall_app; split; [|apply Forall_app; split].
    + pose proof (blocks_of_capacity (fun z => z < k) _ F1 P1) as Hc.
      eapply Forall_impl; [|exact Hc]. simpl. intros; lia.
    + unfold group_blocks. constructor; [unfold key in *; intros; lia|].
      eapply Forall_impl; [|exact Fg]. simpl. intros; lia.
    + pose proof (blocks_of_capacity (fun z => key g < z) _ F2 S2) as Hc.
      eapply Forall_impl; [|exact Hc]. simpl. intros; lia.
Qed.

Lemma no_blocks_empty t : well_formed t -> blocks t = [] -> t = NULL.
Proof.
  intros ((Hroot & _) & _) E. destruct t as [| |b c l r nx]; [reflexivity|destruct Hroot|].
  rewrite blocks_node in E. apply app_eq_nil in E. destruct E as [_ E]. discriminate.
Qed.

Lemma remove_each_all k : forall n t cell,
  length (blocks t) = n ->
  well_formed t -> ordered (inorder t) ->
  Forall (fun b => k <= capacity b) (blocks t) ->
  exists xs,
    remove_each n t k cell = Some (NULL, xs)
    /\ length xs = n
    /\ Forall (fun x => exists bx cx, x = Node bx cx NULL NULL NULL) xs
    /\ Permutation (nodes_of xs) (blocks t)
    /\ StronglySorted Z.le (capacities (nodes_of xs)).
Proof.
  induction n as [|n IH]; intros t cell L WF Ho Hk.
  - apply length_zero_iff_nil in L. rewrite (no_blocks_empty t WF L).
    exists []. repeat split; constructor.
  - destruct (remove_at_least_fit t k cell WF Ho)
      as (t' & x & E & WF' & Ho' & [(-> & -> & Hlt)|(bx & cx & l1 & l2 & -> & Hge & Hmin & B & B')]).
    + exfalso. destruct (blocks t) as [|b bs]; [discriminate|].
      inv Hlt. inv Hk. lia.
    + assert (L' : length (blocks t') = n).
      { rewrite B in L. rewrite B'. rewrite length_app in *. simpl in L. lia. }
      assert (Hsub : forall b, In b (blocks t') -> In b (blocks t)).
      { intros b Hb. rewrite B' in Hb. rewrite B. apply in_app_or in Hb.
        apply in_or_app. destruct Hb; [left|right; right]; assumption. }
      assert (Hk' : Forall (fun b => k <= capacity b) (blocks t')).
      { rewrite Forall_forall in *. intros b Hb. apply Hk, Hsub, Hb. }
      destruct (IH t' (Node bx cx NULL NULL NULL) L' WF' Ho' Hk')
        as (xs & E' & Lx & D & P & S).
      exists (Node bx cx NULL NULL NULL :: xs).
      cbn [remove_each]. rewrite E. cbn [bind is_null]. rewrite E'. cbn [bind].
      split; [reflexivity|]. split; [simpl; congruence|].
      split; [constructor; eauto|].
      split.
      * cbn [nodes_of flat_map node_block app]. fold (nodes_of xs).
        rewrite P, B, B'. apply Permutation_middle.
      * cbn [nodes_of flat_map node_block app capacities map]. fold (nodes_of xs).
        constructor; [exact S|].
        fold (capacities (nodes_of xs)). unfold capacities. rewrite Forall_map.
        rewrite Forall_forall in *. intros b Hb.
        apply Hmin; [|apply Hk].
        all: apply Hsub; eapply Permutation_in; [exact P|exact Hb].
Qed.

(** X10. The removal loop of the tests empties the tree.  On a well-formed
    tree in order whose [n] nodes all have a capacity of at least [k],
    calling [RBT_remove_at_least] with [k] [n] times stores a node each
    time, never NULL; the nodes come out detached, each stored node exactly
    once, in non-decreasing order of capacity, and the tree returned by the
    last call is the empty tree, on which one more call stores NULL. *)
Theorem remove_each_drains t k cell :
  well_formed t -> ordered (inorder t) ->
  Forall (fun b => k <= capacity b) (blocks t) ->
  exists xs,
    remove_each (length (blocks t)) t k cell = Some (NULL, xs)
    /\ length xs = length (blocks t)
    /\ Forall (fun x => exists bx cx, x = Node bx cx NULL NULL NULL) xs
    /\ Permutation (nodes_of xs) (blocks t)
    /\ StronglySorted Z.le (capacities (nodes_of xs))
    /\ RBT_remove_at_least NULL k (Some (last xs cell)) = Some (NULL, Some NULL).
Proof.
  intros WF Ho Hk.
  destruct (remove_each_all k _ t cell eq_refl WF Ho Hk) as (xs & E & L & D & P & S).
  exists xs. auto 10.
Qed.

(** ** Insertion, then best fit *)

(** X11. A node that was inserted can be found.  On a well-formed tree in
    order, after [RBT_add] of a node that is not in the tree with a
    capacity [cap] below 2^30, [RBT_remove_at_least] with any [k <= cap]
    stores a node, never NULL: a detached node whose capacity lies between
    [k] and [cap].  The tree is left with as many nodes as before the
    insertion. *)
Theorem add_then_remove_at_least t nb nc nl nr nnx cap k cell :
  well_formed t -> ordered (inorder t) ->
  ~ In (self nb) (addrs t) -> 0 <= cap < 2 ^ capacity_bits -> k <= cap ->
  exists t1 t2 bx cx,
    RBT_add t (Node nb nc nl nr nnx) cap = Some t1
    /\ RBT_remove_at_least t1 k (Some cell)
       = Some (t2, Some (Node bx cx NULL NULL NULL))
    /\ k <= capacity bx <= cap
    /\ well_formed t2 /\ ordered (inorder t2)
    /\ length (blocks t2) = length (blocks t).
Proof.
  intros WF Ho Hfresh Hcap Hk.
  destruct (RBT_add_well_formed t nb nc nl nr nnx cap WF Hfresh)
    as (t1 & E1 & WF1 & _ & P).
  destruct (RBT_add_ordered _ _ _ _ _ _ _ _ Ho Hcap E1) as (Ho1 & _).
  rewrite store_capacity_small in P by exact Hcap.
  assert (Hin : In (mkBlock (self nb) cap 0 false) (blocks t1)).
  { eapply Permutation_in; [symmetry; exact P|]. left. reflexivity. }
  destruct (remove_at_least_fit t1 k cell WF1 Ho1)
    as (t2 & x & E2 & WF2 & Ho2 & [(-> & -> & Hlt)|(bx & cx & l1 & l2 & -> & Hge & Hmin & B & B')]).
  - exfalso. rewrite Forall_forall in Hlt. specialize (Hlt _ Hin). simpl in Hlt. lia.
  - exists t1, t2, bx, cx. split; [exact E1|]. split; [exact E2|].
    rewrite Forall_forall in Hmin. specialize (Hmin _ Hin Hk). simpl in Hmin.
    split; [lia|]. split; [exact WF2|]. split; [exact Ho2|].
    apply Permutation_length in P. rewrite B in P. rewrite B'.
    rewrite length_app in *. simpl in P. lia.
Qed.

(** ** Bucket lists are stacks *)

Section AddExistingPop.
Variables (nb : block) (nc : color) (nl nr nnx : RBT) (cap : Z).
Let node := Node nb nc nl nr nnx.
Let nb' := mkBlock (self nb) (store_capacity cap) 0 false.

Lemma add_inner_existing_pop : forall t c n,
  is_rb t c n -> find_key t cap = true ->
  exists t1,
    RBT_add_inner t node cap = Some t1
    /\ is_rb t1 c n /\ is_node t1 /\ skeleton t1 = skeleton t
    /\ RBT_remove_at_least_inner t1 cap = Some (t, Node nb' BLACK NULL NULL NULL).
Proof.
  induction t as [| |b col l IHl r IHr nx _]; intros c n HR Hf; try discriminate.
  assert (col = c) by (inv HR; reflexivity). subst col.
  destruct (is_rb_up _ _ _ _ _ _ HR) as (cl & cr & m & Hl & Hr & -> & Hred).
  simpl in Hf. simpl RBT_add_inner.
  destruct (cap =? capacity b) eqn:Heq.
  - eexists. split; [reflexivity|]. split; [eapply is_rb_next; exact HR|].
    split; [exact I|]. split; [reflexivity|].
    simpl RBT_remove_at_least_inner. rewrite Heq. reflexivity.
  - destruct (cap <? capacity b) eqn:Hlt.
    + destruct (IHl _ _ Hl Hf) as (l1 & E1 & R1 & N1 & S1 & D1).
      unfold bind. fold node. rewrite E1.
      assert (is_null l = false) as -> by (destruct l; simpl in *; congruence).
      assert (HR1 : is_rb (Node b c l1 r nx) c (up c m)).
      { destruct c; [simpl; eauto with rb| |inv HR].
        destruct (Hred eq_refl) as [-> ->]. simpl. eauto with rb. }
      rewrite (eliminate_rb_id _ _ _ _ _ _ HR1).
      eexists. split; [reflexivity|]. split; [exact HR1|]. split; [exact I|].
      split; [simpl; rewrite S1; reflexivity|].
      simpl RBT_remove_at_least_inner. rewrite Heq, Hlt. unfold bind. rewrite D1.
      cbn [is_null].
      rewrite propagate_unchanged by eauto using is_rb_not_double_black. reflexivity.
    + destruct (IHr _ _ Hr Hf) as (r1 & E1 & R1 & N1 & S1 & D1).
      unfold bind. fold node. rewrite E1.
      assert (is_null r = false) as -> by (destruct r; simpl in *; congruence).
      assert (HR1 : is_rb (Node b c l r1 nx) c (up c m)).
      { destruct c; [simpl; eauto with rb| |inv HR].
        destruct (Hred eq_refl) as [-> ->]. simpl. eauto with rb. }
      rewrite (eliminate_rb_id _ _ _ _ _ _ HR1).
      eexists. split; [reflexivity|]. split; [exact HR1|]. split; [exact I|].
      split; [simpl; rewrite S1; reflexivity|].
      simpl RBT_remove_at_least_inner. rewrite Heq, Hlt. unfold bind. rewrite D1.
      cbn [is_null].
      rewrite propagate_unchanged by eauto using is_rb_not_double_black. reflexivity.
Qed.

End AddExistingPop.

(** X12. A bucket list is a stack.  When the tree already holds a node of
    capacity [cap], [RBT_add] of a node that is not in the tree, with that
    capacity, puts the new node at the
    head of the bucket list without touching the tree nodes, and
    [RBT_remove_at_least] with exactly [cap] then gives that same node
    back and returns the tree as it was before the insertion, node for node
    and color for color: among nodes of one capacity, the last one
    inserted is the first one handed out. *)
Theorem add_then_pop t nb nc nl nr nnx cap cell :
  well_formed t -> ordered (inorder t) ->
  ~ In (self nb) (addrs t) ->
  In cap (map key (inorder t)) ->
  exists t1,
    RBT_add t (Node nb nc nl nr nnx) cap = Some t1
    /\ skeleton t1 = skeleton t
    /\ RBT_remove_at_least t1 cap (Some cell)
       = Some (t, Some (Node (mkBlock (self nb) (cap mod 2 ^ 30) 0 false)
                          BLACK NULL NULL NULL)).
Proof.
  intros WF Ho _ Hin.
  destruct (well_formed_parts _ WF) as ((n & HR) & _ & _).
  pose proof (find_key_complete cap t (proj1 Ho) Hin) as Hf.
  destruct (add_inner_existing_pop nb nc nl nr nnx cap t BLACK n HR Hf)
    as (t1 & E1 & R1 & N1 & S1 & D1).
  assert (Et : set_color t1 BLACK = Some t1) by (inv R1; [destruct N1|reflexivity]).
  exists t1. split.
  { unfold RBT_add. simpl is_null. cbv iota. unfold bind. rewrite E1. exact Et. }
  split; [exact S1|].
  unfold RBT_remove_at_least, bind. rewrite D1.
  rewrite (finish_root_black _ _ HR). reflexivity.
Qed.

(** ** A tree of one node *)

(** X13. [RBT_new] makes a tree of one BLACK node that holds the low 30
    bits of the capacity passed.  [RBT_remove_at_least] on that tree gives
    the node back and returns NULL, the empty tree, when the request is at
    most the stored capacity; it stores NULL and returns the tree when the
    request is larger.  A node created with a capacity of 2^30 or more is
    therefore not found again by a request for that capacity. *)
Theorem singleton_removal nb nc nl nr nnx cap k cell :
  let stored_node :=
    Node (mkBlock (self nb) (cap mod 2 ^ 30) 0 false) BLACK NULL NULL NULL in
  RBT_new (Node nb nc nl nr nnx) cap = Some stored_node
  /\ (k <= cap mod 2 ^ 30 ->
      RBT_remove_at_least stored_node k (Some cell)
      = Some (NULL, Some stored_node))
  /\ (cap mod 2 ^ 30 < k ->
      RBT_remove_at_least stored_node k (Some cell)
      = Some (stored_node, Some NULL))
  /\ (2 ^ 30 <= cap ->
      RBT_remove_at_least stored_node cap (Some cell)
      = Some (stored_node, Some NULL)).
Proof.
  intros stored_node.
  assert (Hle : forall k', k' <= cap mod 2 ^ 30 ->
            RBT_remove_at_least stored_node k' (Some cell)
            = Some (NULL, Some stored_node)).
  { intros k' H. unfold stored_node, RBT_remove_at_least.
    cbn [RBT_remove_at_least_inner capacity bind].
    destruct (k' =? cap mod 2 ^ 30) eqn:Heq; [reflexivity|].
    apply Z.eqb_neq in Heq.
    destruct (k' <? cap mod 2 ^ 30) eqn:Hlt; [reflexivity|].
    apply Z.ltb_ge in Hlt. lia. }
  assert (Hgt : forall k', cap mod 2 ^ 30 < k' ->
            RBT_remove_at_least stored_node k' (Some cell)
            = Some (stored_node, Some NULL)).
  { intros k' H. unfold stored_node, RBT_remove_at_least.
    cbn [RBT_remove_at_least_inner capacity bind].
    destruct (k' =? cap mod 2 ^ 30) eqn:Heq; [apply Z.eqb_eq in Heq; lia|].
    destruct (k' <? cap mod 2 ^ 30) eqn:Hlt; [apply Z.ltb_lt in Hlt; lia|].
    reflexivity. }
  split; [reflexivity|]. split; [apply Hle|]. split; [apply Hgt|].
  intros H. apply Hgt.
  pose proof (Z.mod_pos_bound cap (2 ^ 30) ltac:(reflexivity)). lia.
Qed.

(** ** Insertion, then printing *)

Lemma add_each_ordered : forall l t,
  well_formed t -> ordered (inorder t) ->
  NoDup (map fst l ++ addrs t) ->
  Forall (fun p => 0 <= snd p < 2 ^ capacity_bits) l ->
  exists t',
    add_each t l = Some t'
    /\ well_formed t' /\ ordered (inorder t')
    /\ Permutation (capacities (blocks t')) (map snd l ++ capacities (blocks t)).
Proof.
  induction l as [|[a cap] l IH]; intros t WF Ho ND Hr.
  - exists t. simpl. auto.
  - apply Forall_cons_iff in Hr. destruct Hr as [Hcap Hr]. simpl in Hcap.
    assert (Hfresh : ~ In a (addrs t)).
    { simpl in ND. apply NoDup_cons_iff in ND. destruct ND as [Hn _].
      intros Hin. apply Hn. apply in_or_app. right. exact Hin. }
    destruct (RBT_add_well_formed t (mkBlock a 12345 77 true) RED
                DOUBLE_BLACK_PTR DOUBLE_BLACK_PTR DOUBLE_BLACK_PTR cap WF Hfresh)
      as (t1 & E1 & WF1 & _ & P1).
    destruct (RBT_add_ordered _ _ _ _ _ _ _ _ Ho Hcap E1) as (Ho1 & _).
    cbn [self] in P1. rewrite store_capacity_small in P1 by exact Hcap.
    assert (ND1 : NoDup (map fst l ++ addrs t1)).
    { apply (NoDup_move a _ (addrs t)); [exact ND|].
      unfold addrs. rewrite P1. reflexivity. }
    destruct (IH t1 WF1 Ho1 ND1 Hr) as (t' & E & WF' & Ho' & P).
    exists t'. cbn [add_each]. unfold storage. rewrite E1. cbn [bind].
    split; [exact E|]. split; [exact WF'|]. split; [exact Ho'|].
    eapply Permutation_trans; [exact P|].
    eapply Permutation_trans;
      [apply Permutation_app_head, (Permutation_map capacity), P1|].
    symmetry. apply Permutation_middle.
Qed.

(** X14. Insertion followed by printing sorts.  For any list of capacities
    below 2^30, inserted one after the other with [RBT_add] into the empty
    tree, each in storage of its own, no call faults and
    [RBT_in_order_print] then writes the capacities inserted, each as many
    times as it was inserted, in non-decreasing order: what
    rbt_insertion_test_1 compares with the sorted input. *)
Theorem in_order_print_sorts l :
  NoDup (map fst l) ->
  Forall (fun p => 0 <= snd p < 2 ^ capacity_bits) l ->
  exists t out,
    add_each NULL l = Some t
    /\ RBT_in_order_print t = Some out
    /\ Permutation out (map snd l)
    /\ StronglySorted Z.le out.
Proof.
  intros ND Hr.
  destruct (add_each_ordered l NULL well_formed_empty) as (t & E & WF & Ho & P).
  { split; constructor. }
  { simpl. rewrite app_nil_r. exact ND. }
  { exact Hr. }
  destruct WF as ((_ & Hd & _) & Hch & _).
  exists t, (capacities (blocks t)). split; [exact E|].
  split; [apply in_order_print_blocks; assumption|].
  split; [simpl in P; rewrite app_nil_r in P; exact P|].
  apply ordered_capacities. exact Ho.
Qed.

(** ** Removal from a bucket list *)






(** ** What the storage passed to an insertion holds *)

Lemma add_inner_storage nb nc nl nr nnx nc' nl' nr' nnx' pd iu c0 cap : forall t,
  RBT_add_inner t (Node nb nc nl nr nnx) cap
  = RBT_add_inner t (Node (mkBlock (self nb) c0 pd iu) nc' nl' nr' nnx') cap.
Proof.
  induction t as [| |b col l IHl r IHr nx _]; try reflexivity.
  cbn [RBT_add_inner]. rewrite IHl, IHr. reflexivity.
Qed.

(** X16. [RBT_add] reads nothing of the storage it is given but its
    address: for storage that is not in the tree, whatever the capacity,
    [prev_dist], [in_use], color and links the storage holds, the tree
    returned is the same.  Every field of the new node is overwritten,
    which is why rbt.h tells the caller to save the values that should be
    kept. *)
Theorem add_overwrites_storage t nb nc nl nr nnx cap c0 pd iu nc' nl' nr' nnx' :
  ~ In (self nb) (addrs t) ->
  RBT_add t (Node nb nc nl nr nnx) cap
  = RBT_add t (Node (mkBlock (self nb) c0 pd iu) nc' nl' nr' nnx') cap.
Proof.
  intros _. unfold RBT_add. cbn [is_null].
  rewrite (add_inner_storage nb nc nl nr nnx nc' nl' nr' nnx' pd iu c0 cap t).
  reflexivity.
Qed.

(** ** Removal by identity from a bucket list *)









(** ** The recursive helpers of the removals *)

(** X18. What rbt.c says of [RBT_remove_at_least_inner] and
    [RBT_remove_node_inner] holds: if the tree they return contains a
    doubly-black node or leaf, it is the root.  On any subtree that is
    red-black (no doubly-black node, no RED node with a RED child, equal
    black counts), with proper bucket lists and distinct nodes, both return
    without a fault, and below the root of the tree returned nothing is
    doubly black; when the root of the subtree was RED, the root returned
    is not doubly black either. *)
Theorem inner_double_black_at_root t k nb nc nl nr nnx cap :
  no_double_black t -> no_red_red t -> same_black_count t ->
  chains_ok (inorder t) -> NoDup (tree_addrs t) ->
  (exists t' x,
      RBT_remove_at_least_inner t k = Some (t', x)
      /\ double_black_only_root t'
      /\ (is_red t -> no_double_black t'))
  /\ (exists t' x,
        RBT_remove_node_inner t (Node nb nc nl nr nnx) cap = Some (t', x)
        /\ double_black_only_root t'
        /\ (is_red t -> no_double_black t')).
Proof.
  intros Hd Hrr Hsb Hch ND.
  destruct (invariant_is_rb _ Hd Hrr Hsb) as (c & n & HR).
  assert (Hred : is_red t -> c = RED).
  { destruct t as [| |b col l r nx]; try (intros []).
    destruct col; try (intros []). inv HR. reflexivity. }
  split.
  - destruct (remove_at_least_inner_rb k t c n HR Hch ND) as (t' & x & E & Hres).
    exists t', x. split; [exact E|].
    destruct Hres as [->|Hres].
    + destruct (remove_at_least_inner_inorder _ _ _ _ E)
        as [(_ & -> & _)|(g1 & g & g2 & og & _ & G & _)].
      * split; [apply no_double_black_only_root; exact Hd|intros _; exact Hd].
      * apply group_removed_node in G. destruct G.
    + destruct (del_res_only_root _ _ _ Hres) as [H1 H2]. auto.
  - destruct (remove_node_inner_rb nb nc nl nr nnx cap t c n HR Hch ND)
      as (t' & x & E & [(_ & ->)|(_ & Hres)]).
    + exists t, x. split; [exact E|].
      split; [apply no_double_black_only_root; exact Hd|intros _; exact Hd].
    + exists t', x. split; [exact E|].
      destruct (del_res_only_root _ _ _ Hres) as [H1 H2]. auto.
Qed.

(** ** The further properties at concrete trees *)

Lemma height_logarithmic_witness :
  exists h k,
    RBT_height seven_nodes = Some h /\ RBT_black_height seven_nodes = Some k
    /\ 0 <= h <= 2 * k
    /\ (is_node seven_nodes -> h + 1 <= 2 * k)
    /\ 2 ^ k <= Z.of_nat (RBT_size seven_nodes) + 1
    /\ h <= 2 * Z.log2 (Z.of_nat (RBT_size seven_nodes) + 1).
Proof.
  apply (height_logarithmic seven_nodes).
  split; [reflexivity|].
  split; [simpl; repeat split; discriminate|].
  split; [simpl; repeat split; intros; simpl; try discriminate; tauto|same_counts].
Defined.

(** A BLACK node whose left child is the doubly-black leaf and whose right
    child is RED: case C, the one that recurses. *)
Lemma propagate_terminates_witness :
  exists t',
    (forall fuel,
        (RBT_size (Node (mkBlock 2 2 0 false) BLACK DOUBLE_BLACK_PTR
                     (Node (mkBlock 4 4 0 false) RED
                        (leaf_node 3 3 BLACK) (leaf_node 5 5 BLACK) NULL) NULL)
         < fuel)%nat ->
        propagate_fuel fuel
          (Node (mkBlock 2 2 0 false) BLACK DOUBLE_BLACK_PTR
             (Node (mkBlock 4 4 0 false) RED
                (leaf_node 3 3 BLACK) (leaf_node 5 5 BLACK) NULL) NULL)
        = Some t')
    /\ RBT_propagate_double_blackness
         (Node (mkBlock 2 2 0 false) BLACK DOUBLE_BLACK_PTR
            (Node (mkBlock 4 4 0 false) RED
               (leaf_node 3 3 BLACK) (leaf_node 5 5 BLACK) NULL) NULL)
       = Some t'
    /\ inorder t'
       = inorder (Node (mkBlock 2 2 0 false) BLACK DOUBLE_BLACK_PTR
                    (Node (mkBlock 4 4 0 false) RED
                       (leaf_node 3 3 BLACK) (leaf_node 5 5 BLACK) NULL) NULL)
    /\ same_weight t'
         (Node (mkBlock 2 2 0 false) BLACK DOUBLE_BLACK_PTR
            (Node (mkBlock 4 4 0 false) RED
               (leaf_node 3 3 BLACK) (leaf_node 5 5 BLACK) NULL) NULL)
    /\ double_black_only_root t'
    /\ (BLACK = RED -> no_double_black t').
Proof.
  apply (propagate_terminates (mkBlock 2 2 0 false) BLACK DOUBLE_BLACK_PTR
           (Node (mkBlock 4 4 0 false) RED
              (leaf_node 3 3 BLACK) (leaf_node 5 5 BLACK) NULL) NULL 1%nat RED).
  - discriminate.
  - intros H. discriminate H.
  - left. split; [constructor|].
    unfold leaf_node. constructor; econstructor; constructor.
Defined.

Lemma add_stores_node_witness :
  exists t',
    RBT_add sample_tree (storage 4) (2 ^ 30 + 4) = Some t'
    /\ t' <> NULL
    /\ well_formed t'
    /\ Permutation (blocks t')
         (mkBlock 4 ((2 ^ 30 + 4) mod 2 ^ 30) 0 false :: blocks sample_tree)
    /\ length (blocks t') = S (length (blocks sample_tree)).
Proof.
  apply (add_stores_node sample_tree (mkBlock 4 12345 77 true) RED
           DOUBLE_BLACK_PTR DOUBLE_BLACK_PTR DOUBLE_BLACK_PTR (2 ^ 30 + 4));
    [well_formed_tree|not_in_list].
Defined.

Lemma search_order_closure_witness :
  exists roots,
    run NULL sample_ops = Some roots
    /\ length roots = length sample_ops
    /\ Forall (fun root =>
                 keys_sorted (inorder root)
                 /\ Forall bucket_keys_ok (inorder root)
                 /\ chains_ok (inorder root)
                 /\ NoDup (addrs root)) roots.
Proof.
  apply (search_order_closure sample_ops).
  - unfold sample_ops. repeat allowed_step. exact I.
  - unfold sample_ops. repeat constructor; simpl; unfold capacity_bits; lia.
Defined.

Lemma in_order_print_sorted_witness :
  exists out,
    RBT_in_order_print sample_tree = Some out
    /\ out = capacities (blocks sample_tree)
    /\ length out = length (blocks sample_tree)
    /\ (ordered (inorder sample_tree) -> StronglySorted Z.le out).
Proof.
  apply (in_order_print_sorted sample_tree). well_formed_tree.
Defined.

Lemma free_releases_every_node_witness :
  RBT_free true sample_tree (mkAlloc [] 4)
  = Some (released true (free_order sample_tree) (mkAlloc [] 4))
  /\ Permutation (free_order sample_tree) (addrs sample_tree)
  /\ NoDup (free_order sample_tree)
  /\ length (free_order sample_tree) = length (blocks sample_tree).
Proof.
  apply (free_releases_every_node true sample_tree (mkAlloc [] 4));
    [well_formed_tree|unfold counter_ok, uint_bits; simpl; lia].
Defined.

Lemma num_nodes_balance_witness :
  exists t s' s'',
    run_freeing true NULL (mkAlloc [] 0) sample_ops = Some (t, s')
    /\ RBT_num_nodes true s'
       = uint (RBT_num_nodes true (mkAlloc [] 0) + Z.of_nat (length (blocks t)))
    /\ RBT_free true t s' = Some s''
    /\ RBT_num_nodes true s'' = RBT_num_nodes true (mkAlloc [] 0).
Proof.
  apply (num_nodes_balance sample_ops (mkAlloc [] 0)).
  - unfold sample_ops. repeat allowed_step. exact I.
  - unfold counter_ok, uint_bits. simpl. lia.
Defined.

Lemma remove_each_drains_witness :
  exists xs,
    remove_each (length (blocks sample_tree)) sample_tree 1 NULL = Some (NULL, xs)
    /\ length xs = length (blocks sample_tree)
    /\ Forall (fun x => exists bx cx, x = Node bx cx NULL NULL NULL) xs
    /\ Permutation (nodes_of xs) (blocks sample_tree)
    /\ StronglySorted Z.le (capacities (nodes_of xs))
    /\ RBT_remove_at_least NULL 1 (Some (last xs NULL)) = Some (NULL, Some NULL).
Proof.
  apply (remove_each_drains sample_tree 1 NULL); [well_formed_tree|ordered_tree|].
  simpl. repeat constructor; simpl; lia.
Defined.

Lemma add_then_remove_at_least_witness :
  exists t1 t2 bx cx,
    RBT_add sample_tree (storage 4) 4 = Some t1
    /\ RBT_remove_at_least t1 3 (Some NULL)
       = Some (t2, Some (Node bx cx NULL NULL NULL))
    /\ 3 <= capacity bx <= 4
    /\ well_formed t2 /\ ordered (inorder t2)
    /\ length (blocks t2) = length (blocks sample_tree).
Proof.
  apply (add_then_remove_at_least sample_tree (mkBlock 4 12345 77 true) RED
           DOUBLE_BLACK_PTR DOUBLE_BLACK_PTR DOUBLE_BLACK_PTR 4 3 NULL);
    [well_formed_tree|ordered_tree|not_in_list|unfold capacity_bits; lia|lia].
Defined.

Lemma add_then_pop_witness :
  exists t1,
    RBT_add sample_tree (storage 4) 3 = Some t1
    /\ skeleton t1 = skeleton sample_tree
    /\ RBT_remove_at_least t1 3 (Some NULL)
       = Some (sample_tree,
               Some (Node (mkBlock 4 (3 mod 2 ^ 30) 0 false) BLACK NULL NULL NULL)).
Proof.
  apply (add_then_pop sample_tree (mkBlock 4 12345 77 true) RED
           DOUBLE_BLACK_PTR DOUBLE_BLACK_PTR DOUBLE_BLACK_PTR 3 NULL);
    [well_formed_tree|ordered_tree|not_in_list|simpl; auto].
Defined.

Lemma in_order_print_sorts_witness :
  exists t out,
    add_each NULL (at_addresses 100 (char_codes "ALGORITHM"%string)) = Some t
    /\ RBT_in_order_print t = Some out
    /\ Permutation out (map snd (at_addresses 100 (char_codes "ALGORITHM"%string)))
    /\ StronglySorted Z.le out.
Proof.
  apply (in_order_print_sorts (at_addresses 100 (char_codes "ALGORITHM"%string))).
  - simpl. no_dup.
  - simpl. repeat constructor; simpl; unfold capacity_bits; lia.
Defined.



(** The right subtree of [seven_nodes]: the removal of its BLACK node of
    capacity 5 starts a propagation. *)
Lemma inner_double_black_at_root_witness :
  (exists t' x,
      RBT_remove_at_least_inner (right_of seven_nodes) 5 = Some (t', x)
      /\ double_black_only_root t'
      /\ (is_red (right_of seven_nodes) -> no_double_black t'))
  /\ (exists t' x,
        RBT_remove_node_inner (right_of seven_nodes) (handle 5 5) 5 = Some (t', x)
        /\ double_black_only_root t'
        /\ (is_red (right_of seven_nodes) -> no_double_black t')).
Proof.
  apply (inner_double_black_at_root (right_of seven_nodes) 5
           (mkBlock 5 5 0 false) BLACK NULL NULL NULL 5).
  - simpl. repeat split; discriminate.
  - simpl. repeat split; intros; simpl; try discriminate; tauto.
  - same_counts.
  - unfold chains_ok. simpl. repeat constructor.
  - unfold tree_addrs. simpl. no_dup.
Defined.

(** Storage as [storage 4] against storage at the same address with every
    field cleared. *)
Lemma add_overwrites_storage_witness :
  RBT_add sample_tree (storage 4) 7
  = RBT_add sample_tree
      (Node (mkBlock 4 0 0 false) BLACK NULL NULL NULL) 7.
Proof.
  apply (add_overwrites_storage sample_tree (mkBlock 4 12345 77 true) RED
           DOUBLE_BLACK_PTR DOUBLE_BLACK_PTR DOUBLE_BLACK_PTR 7
           0 0 false BLACK NULL NULL NULL).
  not_in_list.
Defined.
